(** * Poster composition engine: layout solver, text fitter, manipulation
      controller, layout reset, poster renderer, upload area and reply
      trimming, embedded from the TypeScript sources.

    Numbers.  The sources compute on JavaScript numbers, which are binary64
    floating-point numbers.  The embedding has two models of them.

    The modules [LayoutSolver], [TextFit], [Index], [ListingPreview] and
    [ImageGenerator] use exact rationals ([Q]): every arithmetic operation
    is the exact one, comparisons are the rational ones, and the two
    infinities used as fold seeds ([-Infinity] for the best score,
    [Number.POSITIVE_INFINITY] for the left edge) are an absent value
    ([None]).  Statements about numbers are up to [==] on [Q].  A division
    by zero, which yields an infinity or NaN in the sources, yields 0 here;
    the statements below that go through a division have the divisor
    positive.

    The modules [LayoutSolver64] and [TextFit64] embed the layout solver
    and the size loop of the text fitter on binary64 numbers themselves
    ([PrimFloat]), rounding included.  They are evaluated on concrete
    inputs to show what the rounding of the program does to a property
    that holds of the rationals.

    Statements on the geometry of a layout are therefore given with a
    relative margin ([MARGIN], 10^-9) on inputs of ordinary size
    ([ordinary]: at most four ratios, none above 10^6, sides between 1 and
    10^6), far above the rounding of the program there; lemmas marked
    _in exact arithmetic_ are the facts of the rational model they follow
    from.  Statements on the size loops have both sizes within the safe
    integer range ([MAX_SAFE_INTEGER]), where subtracting 1 from a size
    changes it.

    Strings are byte strings ([string]); the white space of [trim] and of
    the regular expression [\s] is its ASCII part. *)

From Stdlib Require Import String Ascii DecimalString.
From Stdlib Require Import QArith Qminmax Qround Qabs Lqa Lia ZArith.
From Stdlib Require Import List Permutation Sorted Bool Arith.
From Stdlib Require Import SetoidList SetoidPermutation Floats.
Import ListNotations.

Local Open Scope Q_scope.

(** ** src/lib/layoutSolver.ts *)

Module LayoutSolver.

Record LayoutRect := mkLayoutRect {
  index : nat;
  x : Q;
  y : Q;
  width : Q;
  height : Q
}.

Inductive Orientation := vertical | horizontal.

(** [LeafNode | SplitNode]; both carry a [ratio] field. *)
Inductive LayoutNode :=
| LeafNode (index : nat) (ratio : Q)
| SplitNode (orientation : Orientation) (nleft nright : LayoutNode) (ratio : Q).

Definition ratio (node : LayoutNode) : Q :=
  match node with
  | LeafNode _ r => r
  | SplitNode _ _ _ r => r
  end.

Record ContainerRect := mkContainerRect {
  cx : Q;
  cy : Q;
  cwidth : Q;
  cheight : Q
}.

Record LayoutSolution := mkLayoutSolution {
  rects : list LayoutRect;
  usedWidth : Q
}.

Definition buildLeaf (index : nat) (ratio : Q) : LayoutNode :=
  LeafNode index (Qmax ratio (1 # 10)).

Definition buildSplit (orientation : Orientation) (nleft nright : LayoutNode)
  : LayoutNode :=
  let ratio :=
    match orientation with
    | vertical => ratio nleft + ratio nright
    | horizontal => 1 / (1 / ratio nleft + 1 / ratio nright)
    end in
  SplitNode orientation nleft nright ratio.

(** [[...source.slice(0, idx), ...source.slice(idx + 1)]] *)
Definition removeAt {A : Type} (idx : nat) (source : list A) : list A :=
  firstn idx source ++ skipn (S idx) source.

(** The [(item, idx)] pairs visited by [source.forEach]. *)
Definition entries {A : Type} (source : list A) : list (A * nat) :=
  combine source (seq 0 (length source)).

(** The recursion of [generatePermutations] is on a list one shorter than
    its argument; [fuel] bounds its depth and the length of the source is
    always enough (the base case is the source's own when [fuel] is 0). *)
Fixpoint generatePermutationsF {A : Type} (fuel : nat) (source : list A)
  : list (list A) :=
  match fuel with
  | O => [source]
  | S fuel' =>
      if (length source <=? 1)%nat then [source]
      else
        flat_map
          (fun entry : A * nat =>
             let (item, idx) := entry in
             map (cons item) (generatePermutationsF fuel' (removeAt idx source)))
          (entries source)
  end.

Definition generatePermutations {A : Type} (source : list A) : list (list A) :=
  generatePermutationsF (length source) source.

(** [ratios[index]]: the solver only builds trees over indices of
    [ratios] (see [generatePermutations_indices]), so the default of [nth]
    is never read there. *)
Fixpoint buildTreesF (fuel : nat) (indices : list nat) (ratios : list Q)
  : list LayoutNode :=
  match fuel with
  | O => []
  | S fuel' =>
      match indices with
      | [index] => [buildLeaf index (nth index ratios 0)]
      | _ =>
          flat_map
            (fun split =>
               let leftTrees := buildTreesF fuel' (firstn split indices) ratios in
               let rightTrees := buildTreesF fuel' (skipn split indices) ratios in
               flat_map
                 (fun leftNode =>
                    flat_map
                      (fun rightNode =>
                         [buildSplit vertical leftNode rightNode;
                          buildSplit horizontal leftNode rightNode])
                      rightTrees)
                 leftTrees)
            (seq 1 (length indices - 1))
      end
  end.

Definition buildTrees (indices : list nat) (ratios : list Q) : list LayoutNode :=
  buildTreesF (length indices) indices ratios.

Definition rectOf (index : nat) (container : ContainerRect) : LayoutRect :=
  mkLayoutRect index (cx container) (cy container)
    (cwidth container) (cheight container).

(** [node.left.kind === 'leaf' ? node.left.index : 0] *)
Definition fallbackIndex (nleft : LayoutNode) : nat :=
  match nleft with
  | LeafNode i _ => i
  | SplitNode _ _ _ _ => O
  end.

Definition Qleb (a b : Q) : bool := Qle_bool a b.
Definition Qltb (a b : Q) : bool := negb (Qle_bool b a).

Fixpoint layoutTree (node : LayoutNode) (container : ContainerRect)
  : list LayoutRect :=
  match node with
  | LeafNode index _ => [rectOf index container]
  | SplitNode vertical nleft nright _ =>
      let totalRatio := ratio nleft + ratio nright in
      if Qleb totalRatio 0 then [rectOf (fallbackIndex nleft) container]
      else
        let maxHeight := Qmin (cheight container) (cwidth container / totalRatio) in
        let usedWidth := totalRatio * maxHeight in
        let offsetX := cx container + (cwidth container - usedWidth) / 2 in
        let offsetY := cy container + (cheight container - maxHeight) / 2 in
        let leftWidth := maxHeight * ratio nleft in
        let rightWidth := maxHeight * ratio nright in
        let leftContainer := mkContainerRect offsetX offsetY leftWidth maxHeight in
        let rightContainer :=
          mkContainerRect (offsetX + leftWidth) offsetY rightWidth maxHeight in
        layoutTree nleft leftContainer ++ layoutTree nright rightContainer
  | SplitNode horizontal nleft nright nodeRatio =>
      if Qleb nodeRatio 0 then [rectOf (fallbackIndex nleft) container]
      else
        let availableWidth :=
          Qmin (cwidth container) (cheight container * nodeRatio) in
        let usedHeight := availableWidth / nodeRatio in
        let offsetX := cx container + (cwidth container - availableWidth) / 2 in
        let offsetY := cy container + (cheight container - usedHeight) / 2 in
        let topHeight := availableWidth / ratio nleft in
        let bottomHeight := availableWidth / ratio nright in
        let topContainer := mkContainerRect offsetX offsetY availableWidth topHeight in
        let bottomContainer :=
          mkContainerRect offsetX (offsetY + topHeight) availableWidth bottomHeight in
        layoutTree nleft topContainer ++ layoutTree nright bottomContainer
  end.

(** [layout.reduce((sum, rect) => sum + rect.width * rect.height, 0)] *)
Definition score (layout : list LayoutRect) : Q :=
  fold_left (fun sum rect => sum + width rect * height rect) layout 0.

(** [score > bestScore], where [bestScore] starts at [-Infinity] ([None]). *)
Definition better (score : Q) (bestScore : option Q) : bool :=
  match bestScore with
  | None => true
  | Some b => Qltb b score
  end.

(** The body of the inner [trees.forEach] callback on the pair
    [(bestLayout, bestScore)]. *)
Definition consider (container : ContainerRect)
  (best : list LayoutRect * option Q) (tree : LayoutNode)
  : list LayoutRect * option Q :=
  let layout := layoutTree tree container in
  let s := score layout in
  if better s (snd best) then (layout, Some s) else best.

(** [.sort((a, b) => a.index - b.index)]: a stable sort on [index]. *)
Fixpoint insertByIndex (rect : LayoutRect) (sorted : list LayoutRect)
  : list LayoutRect :=
  match sorted with
  | [] => [rect]
  | r :: rest =>
      if (index r <=? index rect)%nat then r :: insertByIndex rect rest
      else rect :: r :: rest
  end.

Definition sortByIndex (layout : list LayoutRect) : list LayoutRect :=
  fold_right insertByIndex [] (rev layout).

(** [Math.min(min, rect.x)] from [Number.POSITIVE_INFINITY] ([None]). *)
Definition minStep (min : option Q) (rect : LayoutRect) : option Q :=
  match min with
  | None => Some (x rect)
  | Some m => Some (Qmin m (x rect))
  end.

Definition computeOptimalLayout (aspectRatios : list Q)
  (containerWidth containerHeight : Q) : LayoutSolution :=
  match aspectRatios with
  | [] => mkLayoutSolution [] containerWidth
  | [first] =>
      let ratio := if Qeq_bool first 0 then 1 else first in
      let naturalWidth := containerHeight * ratio in
      let clampedWidth :=
        Qmin containerWidth (Qmax naturalWidth (containerWidth * (1 # 4))) in
      mkLayoutSolution [mkLayoutRect 0 0 0 clampedWidth containerHeight]
        clampedWidth
  | _ =>
      let indices := seq 0 (length aspectRatios) in
      let permutations := generatePermutations indices in
      let container := mkContainerRect 0 0 containerWidth containerHeight in
      let best :=
        fold_left
          (fun best perm =>
             fold_left (consider container) (buildTrees perm aspectRatios) best)
          permutations ([], None) in
      let bestLayout := fst best in
      let sorted := sortByIndex bestLayout in
      let minX := fold_left minStep sorted None in
      let maxRight :=
        fold_left (fun max rect => Qmax max (x rect + width rect)) sorted 0 in
      (* [Math.max(maxRight - Infinity, 1)] is 1 *)
      let boundingWidth :=
        match minX with
        | Some m => Qmax (maxRight - m) 1
        | None => 1
        end in
      let normalizedRects :=
        map (fun rect =>
               mkLayoutRect (index rect)
                 (x rect - match minX with Some m => m | None => 0 end)
                 (y rect) (width rect) (height rect))
            sorted in
      mkLayoutSolution normalizedRects (Qmin boundingWidth containerWidth)
  end.

End LayoutSolver.

(** ** src/lib/layoutSolver.ts in binary64

    The same source with the numbers the program computes on: IEEE 754
    binary64 values, every operation rounded to nearest (ties to even),
    with the infinities and NaN.  The permutations and the tree shapes are
    those of [LayoutSolver]. *)

Module LayoutSolver64.
Import LayoutSolver (Orientation, vertical, horizontal, generatePermutations).

Local Open Scope float_scope.

Record LayoutRect := mkLayoutRect {
  index : nat;
  x : float;
  y : float;
  width : float;
  height : float
}.

Inductive LayoutNode :=
| LeafNode (index : nat) (ratio : float)
| SplitNode (orientation : Orientation) (nleft nright : LayoutNode) (ratio : float).

Definition ratio (node : LayoutNode) : float :=
  match node with
  | LeafNode _ r => r
  | SplitNode _ _ _ r => r
  end.

Record ContainerRect := mkContainerRect {
  cx : float;
  cy : float;
  cwidth : float;
  cheight : float
}.

Record LayoutSolution := mkLayoutSolution {
  rects : list LayoutRect;
  usedWidth : float
}.

(** [Math.max]: NaN when an argument is NaN, and [+0] above [-0]. *)
Definition max (a b : float) : float :=
  if is_nan a || is_nan b then nan
  else if a <? b then b
  else if b <? a then a
  else if is_zero a then a + b
  else a.

(** [Math.min]: NaN when an argument is NaN, and [-0] below [+0]. *)
Definition min (a b : float) : float :=
  if is_nan a || is_nan b then nan
  else if a <? b then a
  else if b <? a then b
  else if is_zero a then - (- a + - b)
  else a.

Definition tenth : float := 0x1.999999999999ap-4.
Definition quarter : float := 0x1p-2.

Definition buildLeaf (index : nat) (ratio : float) : LayoutNode :=
  LeafNode index (max ratio tenth).

Definition buildSplit (orientation : Orientation) (nleft nright : LayoutNode)
  : LayoutNode :=
  let ratio :=
    match orientation with
    | vertical => ratio nleft + ratio nright
    | horizontal => 1 / (1 / ratio nleft + 1 / ratio nright)
    end in
  SplitNode orientation nleft nright ratio.

Fixpoint buildTreesF (fuel : nat) (indices : list nat) (ratios : list float)
  : list LayoutNode :=
  match fuel with
  | O => []
  | S fuel' =>
      match indices with
      | [index] => [buildLeaf index (nth index ratios nan)]
      | _ =>
          flat_map
            (fun split =>
               let leftTrees := buildTreesF fuel' (firstn split indices) ratios in
               let rightTrees := buildTreesF fuel' (skipn split indices) ratios in
               flat_map
                 (fun leftNode =>
                    flat_map
                      (fun rightNode =>
                         [buildSplit vertical leftNode rightNode;
                          buildSplit horizontal leftNode rightNode])
                      rightTrees)
                 leftTrees)
            (seq 1 (length indices - 1))
      end
  end.

Definition buildTrees (indices : list nat) (ratios : list float)
  : list LayoutNode :=
  buildTreesF (length indices) indices ratios.

Definition rectOf (index : nat) (container : ContainerRect) : LayoutRect :=
  mkLayoutRect index (cx container) (cy container)
    (cwidth container) (cheight container).

Definition fallbackIndex (nleft : LayoutNode) : nat :=
  match nleft with
  | LeafNode i _ => i
  | SplitNode _ _ _ _ => O
  end.

Fixpoint layoutTree (node : LayoutNode) (container : ContainerRect)
  : list LayoutRect :=
  match node with
  | LeafNode index _ => [rectOf index container]
  | SplitNode vertical nleft nright _ =>
      let totalRatio := ratio nleft + ratio nright in
      if totalRatio <=? 0 then [rectOf (fallbackIndex nleft) container]
      else
        let maxHeight := min (cheight container) (cwidth container / totalRatio) in
        let usedWidth := totalRatio * maxHeight in
        let offsetX := cx container + (cwidth container - usedWidth) / 2 in
        let offsetY := cy container + (cheight container - maxHeight) / 2 in
        let leftWidth := maxHeight * ratio nleft in
        let rightWidth := maxHeight * ratio nright in
        let leftContainer := mkContainerRect offsetX offsetY leftWidth maxHeight in
        let rightContainer :=
          mkContainerRect (offsetX + leftWidth) offsetY rightWidth maxHeight in
        layoutTree nleft leftContainer ++ layoutTree nright rightContainer
  | SplitNode horizontal nleft nright nodeRatio =>
      if nodeRatio <=? 0 then [rectOf (fallbackIndex nleft) container]
      else
        let availableWidth :=
          min (cwidth container) (cheight container * nodeRatio) in
        let usedHeight := availableWidth / nodeRatio in
        let offsetX := cx container + (cwidth container - availableWidth) / 2 in
        let offsetY := cy container + (cheight container - usedHeight) / 2 in
        let topHeight := availableWidth / ratio nleft in
        let bottomHeight := availableWidth / ratio nright in
        let topContainer := mkContainerRect offsetX offsetY availableWidth topHeight in
        let bottomContainer :=
          mkContainerRect offsetX (offsetY + topHeight) availableWidth bottomHeight in
        layoutTree nleft topContainer ++ layoutTree nright bottomContainer
  end.

Definition score (layout : list LayoutRect) : float :=
  fold_left (fun sum rect => sum + width rect * height rect) layout 0.

Definition consider (container : ContainerRect)
  (best : list LayoutRect * float) (tree : LayoutNode)
  : list LayoutRect * float :=
  let layout := layoutTree tree container in
  let s := score layout in
  if snd best <? s then (layout, s) else best.

Fixpoint insertByIndex (rect : LayoutRect) (sorted : list LayoutRect)
  : list LayoutRect :=
  match sorted with
  | [] => [rect]
  | r :: rest =>
      if (index r <=? index rect)%nat then r :: insertByIndex rect rest
      else rect :: r :: rest
  end.

Definition sortByIndex (layout : list LayoutRect) : list LayoutRect :=
  fold_right insertByIndex [] (rev layout).

Definition computeOptimalLayout (aspectRatios : list float)
  (containerWidth containerHeight : float) : LayoutSolution :=
  match aspectRatios with
  | [] => mkLayoutSolution [] containerWidth
  | [first] =>
      let ratio := if is_nan first || is_zero first then 1 else first in
      let naturalWidth := containerHeight * ratio in
      let clampedWidth :=
        min containerWidth (max naturalWidth (containerWidth * quarter)) in
      mkLayoutSolution [mkLayoutRect 0 0 0 clampedWidth containerHeight]
        clampedWidth
  | _ =>
      let indices := seq 0 (length aspectRatios) in
      let permutations := generatePermutations indices in
      let container := mkContainerRect 0 0 containerWidth containerHeight in
      let best :=
        fold_left
          (fun best perm =>
             fold_left (consider container) (buildTrees perm aspectRatios) best)
          permutations ([], neg_infinity) in
      let bestLayout := fst best in
      let sorted := sortByIndex bestLayout in
      let minX := fold_left (fun m rect => min m (x rect)) sorted infinity in
      let maxRight :=
        fold_left (fun m rect => max m (x rect + width rect)) sorted 0 in
      let boundingWidth := max (maxRight - minX) 1 in
      let normalizedRects :=
        map (fun rect =>
               mkLayoutRect (index rect) (x rect - minX) (y rect)
                 (width rect) (height rect))
            sorted in
      mkLayoutSolution normalizedRects (min boundingWidth containerWidth)
  end.

End LayoutSolver64.

(** ** src/lib/textFit.ts *)

Module TextFit.

Record TextFitOptions := mkTextFitOptions {
  maxWidth : Q;
  maxHeight : Q;
  maxLines : Z;
  maxFontSize : Q;
  minFontSize : Q;
  fontWeight : string;
  lineHeightMultiplier : Q
}.

(** The value assigned to [ctx.font]: weight and pixel size (the font
    families are the same at every assignment). *)
Record Font := mkFont {
  weight : string;
  size : Q
}.

Record TypographyFit := mkTypographyFit {
  fontSize : Q;
  lineHeight : Q;
  lines : list string
}.

(** White space of [trim] and of [\s]: tab, line feed, vertical tab, form
    feed, carriage return, space. *)
Definition isSpace (c : ascii) : bool :=
  let n := nat_of_ascii c in
  ((9 <=? n) && (n <=? 13) || (n =? 32))%nat.

Definition isLineFeed (c : ascii) : bool := (nat_of_ascii c =? 10)%nat.
Definition isCarriageReturn (c : ascii) : bool := (nat_of_ascii c =? 13)%nat.

Fixpoint trimStart (s : string) : string :=
  match s with
  | EmptyString => EmptyString
  | String c rest => if isSpace c then trimStart rest else s
  end.

Fixpoint trimEnd (s : string) : string :=
  match s with
  | EmptyString => EmptyString
  | String c rest =>
      match trimEnd rest with
      | EmptyString => if isSpace c then EmptyString else String c EmptyString
      | kept => String c kept
      end
  end.

Definition trim (s : string) : string := trimEnd (trimStart s).

(** A string used as a condition: true unless empty. *)
Definition truthy (s : string) : bool :=
  match s with
  | EmptyString => false
  | String _ _ => true
  end.

Definition pushChar (c : ascii) (pieces : list string) : list string :=
  match pieces with
  | [] => [String c EmptyString]
  | piece :: rest => String c piece :: rest
  end.

(** [text.split(/\r?\n/)] *)
Fixpoint splitLines (text : string) : list string :=
  match text with
  | EmptyString => [EmptyString]
  | String c rest =>
      if isLineFeed c then EmptyString :: splitLines rest
      else
        match rest with
        | String c' rest' =>
            if isCarriageReturn c && isLineFeed c'
            then EmptyString :: splitLines rest'
            else pushChar c (splitLines rest)
        | EmptyString => pushChar c (splitLines rest)
        end
  end.

(** [paragraph.split(/\s+/)]; [inSeparator] holds while a run of white
    space is being skipped. *)
Fixpoint splitSpacesFrom (inSeparator : bool) (paragraph : string)
  : list string :=
  match paragraph with
  | EmptyString => [EmptyString]
  | String c rest =>
      if isSpace c then
        if inSeparator then splitSpacesFrom true rest
        else EmptyString :: splitSpacesFrom true rest
      else pushChar c (splitSpacesFrom false rest)
  end.

Definition splitSpaces (paragraph : string) : list string :=
  splitSpacesFrom false paragraph.

(** [lines.slice(0, end)] *)
Definition slice0 {A : Type} (stop : Z) (l : list A) : list A :=
  if (stop <? 0)%Z
  then firstn (Z.to_nat (Z.max (Z.of_nat (length l) + stop) 0)) l
  else firstn (Z.to_nat stop) l.

(** [lines.length < maxLines] *)
Definition hasRoom (lines : list string) (maxLines : Z) : bool :=
  (Z.of_nat (length lines) <? maxLines)%Z.

Section WithMeasure.

(** The text measurement capability: [ctx.measureText(s).width] under the
    font last assigned to [ctx.font]. *)
Variable measureText : Font -> string -> Q.

(** The [words.forEach] callback of [wrapText] on [(lines, currentLine)]. *)
Definition wrapWord (font : Font) (maxWidth : Q) (maxLines : Z)
  (state : list string * string) (word : string) : list string * string :=
  let (lines, currentLine) := state in
  let nextLine :=
    if truthy currentLine then (currentLine ++ " " ++ word)%string else word in
  let width := measureText font nextLine in
  if LayoutSolver.Qltb maxWidth width && truthy currentLine
  then ((if hasRoom lines maxLines then lines ++ [currentLine] else lines), word)
  else (lines, nextLine).

(** The [for] loop of [wrapText] from paragraph [i] on, [lines] being the
    lines collected so far. *)
Fixpoint wrapParagraphs (font : Font) (maxWidth : Q) (maxLines : Z)
  (paragraphs : list string) (lines : list string) : list string :=
  match paragraphs with
  | [] => lines
  | raw :: rest =>
      let paragraph := trim raw in
      if negb (truthy paragraph) then
        let lines1 := if hasRoom lines maxLines then lines ++ [EmptyString] else lines in
        if negb (hasRoom lines1 maxLines) then slice0 maxLines lines1
        else wrapParagraphs font maxWidth maxLines rest lines1
      else
        let words := splitSpaces paragraph in
        let (lines1, currentLine) :=
          fold_left (wrapWord font maxWidth maxLines) words (lines, EmptyString) in
        let lines2 :=
          if truthy currentLine && hasRoom lines1 maxLines
          then lines1 ++ [currentLine] else lines1 in
        let hasMoreParagraphs := match rest with [] => false | _ => true end in
        let canAddBreak := hasRoom lines2 maxLines in
        let lines3 :=
          if hasMoreParagraphs && canAddBreak then lines2 ++ [EmptyString] else lines2 in
        if negb (hasRoom lines3 maxLines) then slice0 maxLines lines3
        else wrapParagraphs font maxWidth maxLines rest lines3
  end.

Definition wrapText (font : Font) (text : string) (maxWidth : Q) (maxLines : Z)
  : list string :=
  wrapParagraphs font maxWidth maxLines (splitLines text) [].

(** [lines.length * lineHeight] *)
Definition blockHeightOf (lines : list string) (lineHeight : Q) : Q :=
  inject_Z (Z.of_nat (length lines)) * lineHeight.

(** The [for] loop of [fitTextBlock] from [size] down; [None] when the loop
    ends without returning.  [fuel] bounds the number of iterations. *)
Fixpoint fitLoop (fuel : nat) (words : string) (options : TextFitOptions)
  (size : Q) : option TypographyFit :=
  match fuel with
  | O => None
  | S fuel' =>
      if LayoutSolver.Qleb (minFontSize options) size then
        let lines :=
          wrapText (mkFont (fontWeight options) size) words
            (maxWidth options) (maxLines options) in
        let lineHeight := size * lineHeightMultiplier options in
        let blockHeight := blockHeightOf lines lineHeight in
        if LayoutSolver.Qleb blockHeight (maxHeight options)
        then Some (mkTypographyFit size lineHeight lines)
        else fitLoop fuel' words options (size - 1)
      else None
  end.

(** 2^53 - 1, [Number.MAX_SAFE_INTEGER]: between its opposite and itself
    [size -= 1] steps down by one, as the exact [size - 1] of [fitLoop]
    does; further out the binary64 subtraction can give back [size] (see
    [TextFit64]). *)
Definition MAX_SAFE_INTEGER : Q := 9007199254740991.

(** With sizes in that range the loop runs at most
    [floor(maxFontSize - minFontSize) + 1] times. *)
Definition iterations (options : TextFitOptions) : nat :=
  Z.to_nat (Qfloor (maxFontSize options - minFontSize options) + 1).

Definition fitTextBlock (rawText : string) (options : TextFitOptions)
  : TypographyFit :=
  let text := trim rawText in
  let words := if truthy text then text else " "%string in
  match fitLoop (iterations options) words options (maxFontSize options) with
  | Some fit => fit
  | None =>
      let fallbackSize := minFontSize options in
      let lines :=
        wrapText (mkFont (fontWeight options) fallbackSize) words
          (maxWidth options) (maxLines options) in
      mkTypographyFit fallbackSize
        (fallbackSize * lineHeightMultiplier options)
        (match lines with [] => [EmptyString] | _ => lines end)
  end.

(** The [for] loop of [fitPriceFontSize] from [size] down; [None] when the
    loop ends without returning. *)
Fixpoint fitPriceLoop (fuel : nat) (text : string) (maxWidth minFontSize : Q)
  (size : Q) : option Q :=
  match fuel with
  | O => None
  | S fuel' =>
      if LayoutSolver.Qleb minFontSize size then
        if LayoutSolver.Qleb (measureText (mkFont "600" size) text) maxWidth
        then Some size
        else fitPriceLoop fuel' text maxWidth minFontSize (size - 1)
      else None
  end.

Definition fitPriceFontSize (text : string) (maxWidth maxFontSize minFontSize : Q)
  : Q :=
  match fitPriceLoop (Z.to_nat (Qfloor (maxFontSize - minFontSize) + 1)) text
          maxWidth minFontSize maxFontSize with
  | Some size => size
  | None => minFontSize
  end.

End WithMeasure.

End TextFit.

(** ** The size loops of src/lib/textFit.ts in binary64

    The control of [for (let size = maxFontSize; size >= minFontSize;
    size -= 1)], shared by [fitTextBlock] and [fitPriceFontSize], on the
    binary64 values the program computes on; the test of the body is a
    parameter. *)

Module TextFit64.

Local Open Scope float_scope.

(** Where a run stands after a number of turns. *)
Inductive Outcome :=
| Returned (size : float)
| Exhausted
| Running (size : float).

(** At most [turns] turns of the loop from [size]: it returns from the
    body at a size that fits, leaves for the fallback when
    [size >= minFontSize] fails, or is still running, about to test a
    size. *)
Fixpoint countDown (fits : float -> bool) (minFontSize : float) (turns : nat)
  (size : float) : Outcome :=
  match turns with
  | O => Running size
  | S turns' =>
      if minFontSize <=? size then
        if fits size then Returned size
        else countDown fits minFontSize turns' (size - 1)
      else Exhausted
  end.

(** The test of the body of [fitTextBlock] for a wrap of [lineCount] lines:
    [lines.length * (size * lineHeightMultiplier) <= maxHeight]. *)
Definition blockFits (lineCount lineHeightMultiplier maxHeight : float)
  (size : float) : bool :=
  lineCount * (size * lineHeightMultiplier) <=? maxHeight.

End TextFit64.


(** ** src/lib/types.ts *)

Module Types.

Record NormalizedRect := mkNormalizedRect {
  x : Q;
  y : Q;
  width : Q;
  height : Q
}.

(** The [file] field (a browser [File]) takes no part in any computation
    and is left out. *)
Record PhotoFrame := mkPhotoFrame {
  id : string;
  src : string;
  aspectRatio : Q;
  naturalWidth : Q;
  naturalHeight : Q;
  layout : NormalizedRect
}.

Definition withLayout (frame : PhotoFrame) (newLayout : NormalizedRect)
  : PhotoFrame :=
  mkPhotoFrame (id frame) (src frame) (aspectRatio frame)
    (naturalWidth frame) (naturalHeight frame) newLayout.

End Types.

(** ** The page component (Index): solving, editing and resetting frames *)

Module Index.
Import Types.

Record File := mkFile {
  name : string;
  fileSize : N;
  lastModified : N
}.

(** What [readImageMetadata] resolves to. *)
Record Metadata := mkMetadata {
  url : string;
  pixelWidth : Q;
  pixelHeight : Q;
  aspect : Q
}.

Record State := mkState {
  frames : list PhotoFrame;
  photoAreaWidth : Q;
  hasCustomLayout : bool
}.

Definition decimal (n : N) : string := NilZero.string_of_uint (N.to_uint n).

Definition buildFrameId (file : File) (index : nat) : string :=
  (name file ++ "-" ++ decimal (fileSize file) ++ "-"
   ++ decimal (lastModified file) ++ "-" ++ decimal (N.of_nat index))%string.

(** The updater [handleFrameChange] passes to [setFrames]. *)
Definition setLayout (frameId : string) (newLayout : NormalizedRect)
  (prev : list PhotoFrame) : list PhotoFrame :=
  map (fun frame =>
         if String.eqb (id frame) frameId then withLayout frame newLayout
         else frame)
      prev.

Definition handleFrameChange (frameId : string) (newLayout : NormalizedRect)
  (s : State) : State :=
  mkState (setLayout frameId newLayout (frames s)) (photoAreaWidth s) true.

(** [prev.findIndex((frame) => frame.id === id)]; [None] for [-1]. *)
Fixpoint findIndex (frameId : string) (prev : list PhotoFrame) : option nat :=
  match prev with
  | [] => None
  | frame :: rest =>
      if String.eqb (id frame) frameId then Some O
      else option_map S (findIndex frameId rest)
  end.

(** The updater [handleFocusFrame] passes to [setFrames]. *)
Definition bringToFront (frameId : string) (prev : list PhotoFrame)
  : list PhotoFrame :=
  match findIndex frameId prev with
  | None => prev
  | Some index =>
      if (index =? length prev - 1)%nat then prev
      else
        match nth_error prev index with
        | Some selected => LayoutSolver.removeAt index prev ++ [selected]
        | None => prev
        end
  end.

Definition handleFocusFrame (frameId : string) (s : State) : State :=
  mkState (bringToFront frameId (frames s)) (photoAreaWidth s) (hasCustomLayout s).

(** [Promise.all]: every decode resolved, or the batch is rejected. *)
Fixpoint allResolved {A : Type} (results : list (option A)) : option (list A) :=
  match results with
  | [] => Some []
  | None :: _ => None
  | Some a :: rest => option_map (cons a) (allResolved rest)
  end.

Section WithConstants.

(** The constants of [lib/constants]. *)
Variables CANVAS_WIDTH CANVAS_HEIGHT MIN_TEXT_RATIO : Q.

(** The image decode capability; [None] when the image fails to load. *)
Variable readImageMetadata : File -> option Metadata.

Definition MIN_TEXT_WIDTH : Q := CANVAS_WIDTH * MIN_TEXT_RATIO.
Definition MAX_PHOTO_WIDTH : Q := CANVAS_WIDTH - MIN_TEXT_WIDTH.
Definition DEFAULT_PHOTO_WIDTH : Q := CANVAS_WIDTH / 2.

(** [rects.find((item) => item.index === index) ?? { index, x: 0, y: 0,
    width: effectiveWidth, height: CANVAS_HEIGHT }] *)
Definition rectFor (rects : list LayoutSolver.LayoutRect) (index : nat)
  (effectiveWidth : Q) : LayoutSolver.LayoutRect :=
  match find (fun item => (LayoutSolver.index item =? index)%nat) rects with
  | Some rect => rect
  | None => LayoutSolver.mkLayoutRect index 0 0 effectiveWidth CANVAS_HEIGHT
  end.

Definition normalize (rect : LayoutSolver.LayoutRect) (effectiveWidth : Q)
  : NormalizedRect :=
  mkNormalizedRect
    (LayoutSolver.x rect / effectiveWidth)
    (LayoutSolver.y rect / CANVAS_HEIGHT)
    (LayoutSolver.width rect / effectiveWidth)
    (LayoutSolver.height rect / CANVAS_HEIGHT).

(** The layout effect once the decodes of [images] have resolved to
    [metadata]: the frames it publishes and the photo area width. *)
Definition solveFrames (images : list File) (metadata : list Metadata)
  : list PhotoFrame * Q :=
  let aspectRatios := map aspect metadata in
  let solution :=
    LayoutSolver.computeOptimalLayout aspectRatios MAX_PHOTO_WIDTH CANVAS_HEIGHT in
  let rects := LayoutSolver.rects solution in
  let usedWidth := LayoutSolver.usedWidth solution in
  let safeUsedWidth :=
    if LayoutSolver.Qltb 0 usedWidth then usedWidth else DEFAULT_PHOTO_WIDTH in
  let effectiveWidth :=
    Qmin (Qmax safeUsedWidth (MAX_PHOTO_WIDTH * (1 # 4))) MAX_PHOTO_WIDTH in
  let nextFrames :=
    map (fun entry : (File * Metadata) * nat =>
           let (pair, index) := entry in
           let (file, meta) := pair in
           let rect := rectFor rects index effectiveWidth in
           mkPhotoFrame (buildFrameId file index) (url meta) (aspect meta)
             (pixelWidth meta) (pixelHeight meta) (normalize rect effectiveWidth))
        (LayoutSolver.entries (combine images metadata)) in
  (nextFrames, effectiveWidth).

(** The layout effect, run to completion for the image set [images]. *)
Definition layoutEffect (images : list File) (s : State) : State :=
  match images with
  | [] => mkState [] DEFAULT_PHOTO_WIDTH false
  | _ =>
      match allResolved (map readImageMetadata images) with
      | Some metadata =>
          let (nextFrames, effectiveWidth) := solveFrames images metadata in
          mkState nextFrames effectiveWidth false
      | None => mkState [] (photoAreaWidth s) (hasCustomLayout s)
      end
  end.

Definition MIN_DESCRIPTION_CHARS : Q := 250.
Definition MAX_DESCRIPTION_CHARS : Q := 500.

(** [Math.round]: the nearest integer, a tie going up. *)
Definition round (value : Q) : Z := Qfloor (value + (1 # 2)).

(** The [descriptionMaxLength] memo. *)
Definition descriptionMaxLength (photoAreaWidth : Q) : Z :=
  let clampedPhotoWidth := Qmin photoAreaWidth (CANVAS_WIDTH * (2 / 3)) in
  let textWidth :=
    Qmax (CANVAS_WIDTH - clampedPhotoWidth) (CANVAS_WIDTH * MIN_TEXT_RATIO) in
  let textRatio := textWidth / CANVAS_WIDTH in
  let normalized :=
    (Qmin (Qmax textRatio MIN_TEXT_RATIO) 1 - MIN_TEXT_RATIO)
    / (1 - MIN_TEXT_RATIO) in
  let chars :=
    MIN_DESCRIPTION_CHARS
    + normalized * (MAX_DESCRIPTION_CHARS - MIN_DESCRIPTION_CHARS) in
  round chars.

(** The updater of the effect that follows [descriptionMaxLength]:
    [prev.length <= max ? prev : prev.slice(0, max)], for a limit that is
    not negative. *)
Definition clipDescription (limit : Z) (prev : string) : string :=
  if (Z.of_nat (String.length prev) <=? limit)%Z then prev
  else substring 0 (Z.to_nat limit) prev.

Definition handleResetLayout (s : State) : State :=
  match frames s with
  | [] => s
  | prev =>
      let aspectRatios := map aspectRatio prev in
      let solution :=
        LayoutSolver.computeOptimalLayout aspectRatios MAX_PHOTO_WIDTH CANVAS_HEIGHT in
      let rects := LayoutSolver.rects solution in
      let usedWidth := LayoutSolver.usedWidth solution in
      let effectiveWidth :=
        Qmin (Qmax usedWidth (MAX_PHOTO_WIDTH * (1 # 4))) MAX_PHOTO_WIDTH in
      mkState
        (map (fun entry : PhotoFrame * nat =>
                let (frame, index) := entry in
                let rect := rectFor rects index effectiveWidth in
                withLayout frame (normalize rect effectiveWidth))
             (LayoutSolver.entries prev))
        effectiveWidth false
  end.

End WithConstants.

End Index.


(** ** The preview component (ListingPreview): drag, resize, pinch *)

Module ListingPreview.
Import Types.

Definition clamp (value min max : Q) : Q := Qmin (Qmax value min) max.

Definition MIN_FRAME_WIDTH_PX : Q := 80.
Definition WIDTH_MAX : Q := 1.
Definition SNAP_THRESHOLD : Q := 2 # 100.

Record PinchState := mkPinchState {
  pinchId : string;
  initialDistance : Q;
  initialWidth : Q;
  initialHeight : Q;
  centerX : Q;
  centerY : Q
}.

(** The value of [dragState.current] and of [resizeState.current]. *)
Record PointerState := mkPointerState {
  gestureId : string;
  pointerId : nat;
  startX : Q;
  startY : Q;
  initialRect : NormalizedRect
}.

(** The component's refs and state, with the [frames] prop its callbacks
    [onFrameChange] and [onFocusFrame] update in the page. *)
Record Controller := mkController {
  frames : list PhotoFrame;
  pinchState : option PinchState;
  dragState : option PointerState;
  resizeState : option PointerState;
  activeId : option string;
  isPinching : bool
}.

(** What the handlers read from their surroundings: the measured preview
    size and the [photoAreaWidth] prop. *)
Record Env := mkEnv {
  previewWidth : Q;
  previewHeight : Q;
  photoAreaWidth : Q
}.

Record Metrics := mkMetrics {
  metricsWidth : Q;
  metricsHeight : Q;
  metricsAspect : Q
}.

Inductive Axis := axisX | axisY.

(** [Number(value.toFixed(6))]: the nearest multiple of 10^-6, a tie going
    away from zero. *)
Definition toFixed6 (value : Q) : Q :=
  if LayoutSolver.Qltb value 0
  then - (Qfloor (- value * 1000000 + (1 # 2)) # 1000000)
  else Qfloor (value * 1000000 + (1 # 2)) # 1000000.

Definition updateFrames (s : Controller) (newFrames : list PhotoFrame)
  : Controller :=
  mkController newFrames (pinchState s) (dragState s) (resizeState s)
    (activeId s) (isPinching s).

(** [onFrameChange] is the page's [handleFrameChange]. *)
Definition handleFrameUpdate (frameId : string) (newLayout : NormalizedRect)
  (s : Controller) : Controller :=
  updateFrames s
    (Index.setLayout frameId
       (mkNormalizedRect (toFixed6 (x newLayout)) (toFixed6 (y newLayout))
          (toFixed6 (width newLayout)) (toFixed6 (height newLayout)))
       (frames s)).

(** [onFocusFrame] is the page's [handleFocusFrame]. *)
Definition focusFrame (frameId : string) (s : Controller) : Controller :=
  updateFrames s (Index.bringToFront frameId (frames s)).

Definition normalizedHeightFromWidth (width aspectRatio containerAspect : Q) : Q :=
  if LayoutSolver.Qltb width 0 then 0
  else if LayoutSolver.Qleb aspectRatio 0 || LayoutSolver.Qleb containerAspect 0
  then Qmax 0 (Qmin 1 width)
  else
    let height := width * (containerAspect / aspectRatio) in
    Qmax 0 (Qmin 1 height).

(** The candidates of [snapCoordinate], in the order they are pushed. *)
Definition snapCandidates (frames : list PhotoFrame) (size : Q) (axis : Axis)
  (frameId : string) : list Q :=
  0 :: (1 - size) ::
  flat_map
    (fun frame =>
       if String.eqb (id frame) frameId then []
       else
         let other := layout frame in
         match axis with
         | axisX =>
             [x other; x other + width other; x other - size;
              x other + width other - size]
         | axisY =>
             [y other; y other + height other; y other - size;
              y other + height other - size]
         end)
    frames.

Definition withinThreshold (value candidate : Q) : bool :=
  LayoutSolver.Qleb (Qabs (value - candidate)) SNAP_THRESHOLD.

Definition snapCoordinate (frames : list PhotoFrame) (value size : Q)
  (axis : Axis) (frameId : string) : Q :=
  match find (withinThreshold value) (snapCandidates frames size axis frameId) with
  | Some candidate => candidate
  | None => value
  end.

(** The source first tests [Number.isFinite(size)] and clamps to [0, 1]
    when it fails; a rational size is finite, so this is the other
    branch. *)
Definition clampPosition (value size : Q) : Q :=
  let max := Qmax 0 (1 - size) in
  Qmin max (Qmax 0 value).

Definition findFrame (frames : list PhotoFrame) (frameId : string)
  : option PhotoFrame :=
  find (fun item => String.eqb (id item) frameId) frames.

Section WithConstants.

(** The constants of [lib/constants] the component reads. *)
Variables CANVAS_WIDTH MIN_TEXT_RATIO : Q.

Definition photoRatio (env : Env) : Q :=
  let clampedPhotoWidth := Qmin (photoAreaWidth env) (CANVAS_WIDTH * (2 / 3)) in
  let textRatio := 1 - clampedPhotoWidth / CANVAS_WIDTH in
  let textRatio' :=
    if LayoutSolver.Qltb textRatio MIN_TEXT_RATIO then MIN_TEXT_RATIO
    else textRatio in
  1 - textRatio'.

Definition getContainerMetrics (env : Env) : option Metrics :=
  let width := previewWidth env * photoRatio env in
  let height := previewHeight env in
  if LayoutSolver.Qleb width 0 || LayoutSolver.Qleb height 0 then None
  else Some (mkMetrics width height (width / height)).

Definition handlePointerDown (env : Env) (button : nat) (pointer : nat)
  (clientX clientY : Q) (frame : PhotoFrame) (s : Controller) : Controller :=
  if (button =? 1)%nat || (button =? 2)%nat then s
  else
    match resizeState s, isPinching s with
    | None, false =>
        match getContainerMetrics env with
        | None => s
        | Some _ =>
            let rect := layout frame in
            focusFrame (id frame)
              (mkController (frames s) (pinchState s)
                 (Some (mkPointerState (id frame) pointer clientX clientY rect))
                 (resizeState s) (Some (id frame)) (isPinching s))
        end
    | _, _ => s
    end.

(** The drag branch of [handlePointerMove]. *)
Definition dragMove (env : Env) (drag : PointerState) (clientX clientY : Q)
  (s : Controller) : Controller :=
  match getContainerMetrics env with
  | None => s
  | Some metrics =>
      let deltaX := (clientX - startX drag) / metricsWidth metrics in
      let deltaY := (clientY - startY drag) / metricsHeight metrics in
      match findFrame (frames s) (gestureId drag) with
      | None => s
      | Some frame =>
          let newX := x (initialRect drag) + deltaX in
          let newY := y (initialRect drag) + deltaY in
          let newX1 :=
            snapCoordinate (frames s) newX (width (layout frame)) axisX (id frame) in
          let newY1 :=
            snapCoordinate (frames s) newY (height (layout frame)) axisY (id frame) in
          let newX2 := clampPosition newX1 (width (layout frame)) in
          let newY2 := clampPosition newY1 (height (layout frame)) in
          handleFrameUpdate (id frame)
            (mkNormalizedRect newX2 newY2
               (width (layout frame)) (height (layout frame)))
            s
      end
  end.

(** The resize branch of [handlePointerMove]. *)
Definition resizeMove (env : Env) (resize : PointerState) (clientX : Q)
  (s : Controller) : Controller :=
  match findFrame (frames s) (gestureId resize) with
  | None => s
  | Some frame =>
      match getContainerMetrics env with
      | None => s
      | Some metrics =>
          let deltaX := (clientX - startX resize) / metricsWidth metrics in
          let minWidthNormalized :=
            Qmax (MIN_FRAME_WIDTH_PX / metricsWidth metrics) (4 # 100) in
          let candidateWidth := width (initialRect resize) + deltaX in
          let availableWidth := Qmax 0 (1 - x (initialRect resize)) in
          let availableHeight := Qmax 0 (1 - y (initialRect resize)) in
          let maxWidthFromHeight :=
            if LayoutSolver.Qltb 0 availableHeight
            then availableHeight * (aspectRatio frame / metricsAspect metrics)
            else 0 in
          let maxWidthBound :=
            Qmax 0 (Qmin (Qmin WIDTH_MAX availableWidth) maxWidthFromHeight) in
          let minWidth := Qmin minWidthNormalized maxWidthBound in
          let maxWidth := Qmax minWidth maxWidthBound in
          let nextWidth := clamp candidateWidth minWidth maxWidth in
          let nextHeight :=
            normalizedHeightFromWidth nextWidth (aspectRatio frame)
              (metricsAspect metrics) in
          handleFrameUpdate (id frame)
            (mkNormalizedRect (x (layout frame)) (y (layout frame))
               nextWidth nextHeight)
            s
      end
  end.

Definition handlePointerMove (env : Env) (pointer : nat) (clientX clientY : Q)
  (s : Controller) : Controller :=
  if isPinching s then s
  else
    match dragState s with
    | Some drag =>
        if (pointer =? pointerId drag)%nat then dragMove env drag clientX clientY s
        else
          match resizeState s with
          | Some resize =>
              if (pointer =? pointerId resize)%nat
              then resizeMove env resize clientX s else s
          | None => s
          end
    | None =>
        match resizeState s with
        | Some resize =>
            if (pointer =? pointerId resize)%nat
            then resizeMove env resize clientX s else s
        | None => s
        end
    end.

Definition clearIfOwnedBy (pointer : nat) (state : option PointerState)
  : option PointerState :=
  match state with
  | Some current => if (pointerId current =? pointer)%nat then None else state
  | None => None
  end.

(** [handlePointerUp], also bound to [onPointerCancel]. *)
Definition handlePointerUp (pointer : nat) (s : Controller) : Controller :=
  mkController (frames s) (pinchState s)
    (clearIfOwnedBy pointer (dragState s))
    (clearIfOwnedBy pointer (resizeState s))
    (activeId s) (isPinching s).

Definition handleResizePointerDown (env : Env) (pointer : nat)
  (clientX clientY : Q) (frame : PhotoFrame) (s : Controller) : Controller :=
  if isPinching s then s
  else
    match getContainerMetrics env with
    | None => s
    | Some _ =>
        mkController (frames s) (pinchState s) (dragState s)
          (Some (mkPointerState (id frame) pointer clientX clientY (layout frame)))
          (Some (id frame)) (isPinching s)
    end.

(** [touches] is [event.touches.length] and [distance] the value of
    [Math.hypot] on the first two touch points. *)
Definition handleTouchStart (env : Env) (touches : nat) (distance : Q)
  (frame : PhotoFrame) (s : Controller) : Controller :=
  if (touches =? 2)%nat then
    match getContainerMetrics env with
    | None => s
    | Some metrics =>
        let rect := layout frame in
        let centerX := (x rect + width rect / 2) * metricsWidth metrics in
        let centerY := (y rect + height rect / 2) * metricsHeight metrics in
        mkController (frames s)
          (Some (mkPinchState (id frame) distance
                   (width rect * metricsWidth metrics)
                   (height rect * metricsHeight metrics) centerX centerY))
          (dragState s) (resizeState s) (Some (id frame)) true
    end
  else if (touches =? 1)%nat then focusFrame (id frame) s
  else s.

Definition handleTouchMove (env : Env) (touches : nat) (distance : Q)
  (s : Controller) : Controller :=
  match pinchState s with
  | None => s
  | Some pinch =>
      if negb (touches =? 2)%nat then s
      else
        match getContainerMetrics env with
        | None => s
        | Some metrics =>
            match findFrame (frames s) (pinchId pinch) with
            | None => s
            | Some frame =>
                let scale := distance / initialDistance pinch in
                let minWidthPx :=
                  Qmax MIN_FRAME_WIDTH_PX
                    (width (layout frame) * metricsWidth metrics * (1 # 2)) in
                let maxWidthFromWidth :=
                  Qmin (centerX pinch * 2)
                    ((metricsWidth metrics - centerX pinch) * 2) in
                let maxHeightPx :=
                  Qmin (centerY pinch * 2)
                    ((metricsHeight metrics - centerY pinch) * 2) in
                let maxWidthFromHeight := maxHeightPx * aspectRatio frame in
                let maxWidthPx :=
                  Qmin (Qmin maxWidthFromWidth maxWidthFromHeight)
                    (metricsWidth metrics) in
                let nextWidthPx :=
                  clamp (initialWidth pinch * scale) minWidthPx maxWidthPx in
                let nextHeightPx := nextWidthPx / aspectRatio frame in
                let nextWidth := nextWidthPx / metricsWidth metrics in
                let nextHeight := nextHeightPx / metricsHeight metrics in
                let nextX :=
                  (centerX pinch - nextWidthPx / 2) / metricsWidth metrics in
                let nextY :=
                  (centerY pinch - nextHeightPx / 2) / metricsHeight metrics in
                let nextX1 :=
                  snapCoordinate (frames s) nextX nextWidth axisX (id frame) in
                let nextY1 :=
                  snapCoordinate (frames s) nextY nextHeight axisY (id frame) in
                let nextX2 := clampPosition nextX1 nextWidth in
                let nextY2 := clampPosition nextY1 nextHeight in
                handleFrameUpdate (id frame)
                  (mkNormalizedRect nextX2 nextY2 nextWidth nextHeight) s
            end
        end
  end.

(** [handleTouchEnd], also bound to [onTouchCancel]. *)
Definition handleTouchEnd (s : Controller) : Controller :=
  match pinchState s with
  | Some _ =>
      mkController (frames s) None (dragState s) (resizeState s) (activeId s) false
  | None => s
  end.

(** The events the frame elements are bound to.  A handler bound to a
    frame element receives the frame of the current render with that id. *)
Inductive Event :=
| PointerDown (frameId : string) (button pointer : nat) (clientX clientY : Q)
| PointerMove (pointer : nat) (clientX clientY : Q)
| PointerUp (pointer : nat)
| ResizePointerDown (frameId : string) (pointer : nat) (clientX clientY : Q)
| TouchStart (frameId : string) (touches : nat) (distance : Q)
| TouchMove (touches : nat) (distance : Q)
| TouchEnd.

Definition onFrame (s : Controller) (frameId : string)
  (handler : PhotoFrame -> Controller -> Controller) : Controller :=
  match findFrame (frames s) frameId with
  | Some frame => handler frame s
  | None => s
  end.

Definition dispatch (env : Env) (s : Controller) (event : Event) : Controller :=
  match event with
  | PointerDown frameId button pointer clientX clientY =>
      onFrame s frameId (handlePointerDown env button pointer clientX clientY)
  | PointerMove pointer clientX clientY =>
      handlePointerMove env pointer clientX clientY s
  | PointerUp pointer => handlePointerUp pointer s
  | ResizePointerDown frameId pointer clientX clientY =>
      onFrame s frameId (handleResizePointerDown env pointer clientX clientY)
  | TouchStart frameId touches distance =>
      onFrame s frameId (handleTouchStart env touches distance)
  | TouchMove touches distance => handleTouchMove env touches distance s
  | TouchEnd => handleTouchEnd s
  end.

Definition run (env : Env) (events : list Event) (s : Controller) : Controller :=
  fold_left (dispatch env) events s.

End WithConstants.

(** A mounted component before any gesture. *)
Definition mounted (frames : list PhotoFrame) : Controller :=
  mkController frames None None None None false.

(** *** The [descriptionParagraphs] memo *)

Definition MAX_DESCRIPTION_PARAGRAPHS : nat := 8.

(** [line === ''] *)
Definition isEmptyLine (line : string) : bool :=
  match line with
  | EmptyString => true
  | String _ _ => false
  end.

(** One turn of the [forEach] over the fitted lines, on the paragraphs
    closed so far and the paragraph being collected. *)
Definition collect (state : list (list string) * list string) (line : string)
  : list (list string) * list string :=
  let (paragraphs, current) := state in
  if isEmptyLine line then
    match current with
    | [] => (paragraphs ++ [[]], [])
    | _ :: _ => (paragraphs ++ [current], [])
    end
  else (paragraphs, current ++ [line]).

(** The [while] loop that pops empty paragraphs off the end while more
    than one paragraph is left, on the reversed list. *)
Fixpoint popEmptyRev (reversed : list (list string)) : list (list string) :=
  match reversed with
  | [] :: rest =>
      match rest with
      | [] => reversed
      | _ :: _ => popEmptyRev rest
      end
  | _ => reversed
  end.

Definition popEmpty (paragraphs : list (list string)) : list (list string) :=
  rev (popEmptyRev (rev paragraphs)).

(** [tail[tail.length - 1] !== ''] is false only when the last line of
    [tail] is the empty string. *)
Definition endsWithEmptyLine (tail : list string) : bool :=
  match rev tail with
  | line :: _ => isEmptyLine line
  | [] => false
  end.

(** One turn of [overflow.forEach((segment, index) => ...)] on [tail]. *)
Definition absorb (tail : list string) (entry : list string * nat)
  : list string :=
  let (segment, index) := entry in
  match segment with
  | [] => tail ++ [EmptyString]
  | _ :: _ =>
      let separated :=
        if ((0 <? index)%nat || (0 <? length tail)%nat)
           && negb (endsWithEmptyLine tail)
        then tail ++ [EmptyString]
        else tail in
      separated ++ segment
  end.

Definition descriptionParagraphs (lines : list string) : list (list string) :=
  let (closed, current) := fold_left collect lines ([], []) in
  let paragraphs :=
    match current with
    | [] => closed
    | _ :: _ => closed ++ [current]
    end in
  let paragraphs := popEmpty (popEmpty paragraphs) in
  if (MAX_DESCRIPTION_PARAGRAPHS <? length paragraphs)%nat then
    let limited := firstn MAX_DESCRIPTION_PARAGRAPHS paragraphs in
    let overflow := skipn MAX_DESCRIPTION_PARAGRAPHS paragraphs in
    let tail := last limited [] in
    let tail := fold_left absorb (LayoutSolver.entries overflow) tail in
    match limited with
    | [] => [[]]
    | _ :: _ => removelast limited ++ [tail]
    end
  else
    match paragraphs with
    | [] => [[]]
    | _ :: _ => paragraphs
    end.

End ListingPreview.

(** ** The poster renderer (generateListingImage): photo area and frames *)

Module ImageGenerator.
Import Types.

(** The arguments of [ctx.drawImage(image, drawX, drawY, drawWidth,
    drawHeight)]. *)
Record DrawRect := mkDrawRect {
  drawX : Q;
  drawY : Q;
  drawWidth : Q;
  drawHeight : Q
}.

Section WithConstants.

Variables CANVAS_WIDTH CANVAS_HEIGHT : Q.

Definition clampedPhotoWidth (photoAreaWidth : Q) : Q :=
  Qmin (Qmax photoAreaWidth 1) (CANVAS_WIDTH * (2 / 3)).

Definition textAreaWidth (photoAreaWidth : Q) : Q :=
  CANVAS_WIDTH - clampedPhotoWidth photoAreaWidth.

(** The rect a frame is filled in, in canvas pixels. *)
Definition layoutRect (frame : PhotoFrame) (photoAreaWidth : Q) : DrawRect :=
  mkDrawRect
    (x (layout frame) * clampedPhotoWidth photoAreaWidth)
    (y (layout frame) * CANVAS_HEIGHT)
    (width (layout frame) * clampedPhotoWidth photoAreaWidth)
    (height (layout frame) * CANVAS_HEIGHT).

(** The body of [loadedFrames.forEach] up to [ctx.drawImage], for a loaded
    image of [imageWidth] by [imageHeight] pixels. *)
Definition drawRect (frame : PhotoFrame) (imageWidth imageHeight : Q)
  (photoAreaWidth : Q) : DrawRect :=
  let layoutX := x (layout frame) * clampedPhotoWidth photoAreaWidth in
  let layoutY := y (layout frame) * CANVAS_HEIGHT in
  let layoutWidth := width (layout frame) * clampedPhotoWidth photoAreaWidth in
  let layoutHeight := height (layout frame) * CANVAS_HEIGHT in
  let frameAspect := layoutWidth / layoutHeight in
  let imageAspect := imageWidth / imageHeight in
  if LayoutSolver.Qltb (1 # 1000) (Qabs (frameAspect - imageAspect)) then
    if LayoutSolver.Qltb frameAspect imageAspect then
      let drawWidth := layoutWidth in
      let drawHeight := drawWidth / imageAspect in
      let drawY := layoutY + (layoutHeight - drawHeight) / 2 in
      mkDrawRect layoutX drawY drawWidth drawHeight
    else
      let drawHeight := layoutHeight in
      let drawWidth := drawHeight * imageAspect in
      let drawX := layoutX + (layoutWidth - drawWidth) / 2 in
      mkDrawRect drawX layoutY drawWidth drawHeight
  else mkDrawRect layoutX layoutY layoutWidth layoutHeight.

End WithConstants.

End ImageGenerator.

(** ** The suggestion hook (useGeminiSuggestions): trimming a reply *)

Module GeminiSuggestions.
Import TextFit.

(** [truncated.lastIndexOf(' ')]; -1 when there is no space. *)
Fixpoint lastIndexOfSpace (s : string) : Z :=
  match s with
  | EmptyString => (-1)%Z
  | String c rest =>
      let later := lastIndexOfSpace rest in
      if (0 <=? later)%Z then (later + 1)%Z
      else if Ascii.eqb c " " then 0%Z
      else (-1)%Z
  end.

(** [s.slice(0, stop)]: a negative [stop] counts from the end. *)
Definition sliceTo (stop : Z) (s : string) : string :=
  if (stop <? 0)%Z
  then substring 0 (Z.to_nat (Z.max (Z.of_nat (String.length s) + stop) 0)) s
  else substring 0 (Z.to_nat stop) s.

(** [trimToCharLimit], for a limit that is a natural number. *)
Definition trimToCharLimit (input : string) (maxLength : nat) : string :=
  if negb (truthy input) then EmptyString
  else if (String.length input <=? maxLength)%nat then trim input
  else
    let truncated := sliceTo (Z.of_nat maxLength) input in
    let lastSpace := lastIndexOfSpace truncated in
    if (Z.of_nat maxLength - 20 <? lastSpace)%Z
    then trim (sliceTo lastSpace truncated)
    else trim truncated.

End GeminiSuggestions.

(** ** src/components/ImageUpload.tsx *)

Module ImageUpload.

(** A [File] of the browser: the fields the page reads and its MIME
    [type]. *)
Record BrowserFile := mkBrowserFile {
  file : Index.File;
  type : string
}.

Definition MAX_IMAGES : nat := 4.

(** [file.type.startsWith('image/')] *)
Definition isImage (candidate : BrowserFile) : bool :=
  prefix "image/" (type candidate).

(** What [handleFileChange] and [handleDrop] pass to [onImagesChange]:
    [[...images, ...validFiles].slice(0, 4)]. *)
Definition addFiles (files images : list BrowserFile) : list BrowserFile :=
  let validFiles := filter isImage files in
  firstn MAX_IMAGES (images ++ validFiles).

(** What [removeImage] passes to [onImagesChange]:
    [images.filter((_, i) => i !== index)]. *)
Definition removeImage (index : nat) (images : list BrowserFile)
  : list BrowserFile :=
  map fst
    (filter (fun entry : BrowserFile * nat => negb (snd entry =? index)%nat)
       (LayoutSolver.entries images)).

(** What the user does to the upload area. *)
Inductive Action :=
| FileChange (files : list BrowserFile)
| Drop (files : list BrowserFile)
| Remove (index : nat).

Definition act (images : list BrowserFile) (action : Action)
  : list BrowserFile :=
  match action with
  | FileChange files => addFiles files images
  | Drop files => addFiles files images
  | Remove index => removeImage index images
  end.

(** The [images] prop after a sequence of actions, the page passing back
    what [onImagesChange] was given. *)
Definition run (actions : list Action) (images : list BrowserFile)
  : list BrowserFile :=
  fold_left act actions images.

End ImageUpload.


(* ================================================================== *)
(** * Properties *)
(* ================================================================== *)

(** ** Layout solver *)

Module LayoutSolverFacts.
Import LayoutSolver.

(** *** Lists *)

Lemma flat_map_nonempty {A B : Type} (f : A -> list B) (l : list A) (a : A) :
  In a l -> f a <> [] -> flat_map f l <> [].
Proof.
  intros Hin Hne Heq.
  destruct (f a) as [|b bs] eqn:Hfa; [now apply Hne|].
  assert (Hb : In b (flat_map f l)).
  { apply in_flat_map. exists a. split; [assumption|]. rewrite Hfa. now left. }
  rewrite Heq in Hb. exact Hb.
Qed.

Lemma flat_map_ext_In {A B : Type} (f g : A -> list B) (l : list A) :
  (forall a, In a l -> f a = g a) -> flat_map f l = flat_map g l.
Proof.
  induction l as [|a l IH]; intros Hext; simpl.
  - reflexivity.
  - rewrite (Hext a) by now left.
    rewrite IH; [reflexivity|]. intros b Hb. apply Hext. now right.
Qed.

Lemma fold_left_flat_map {A B C : Type} (step : C -> B -> C) (f : A -> list B)
  (l : list A) (init : C) :
  fold_left (fun acc a => fold_left step (f a) acc) l init
  = fold_left step (flat_map f l) init.
Proof.
  revert init. induction l as [|a l IH]; intros init; simpl.
  - reflexivity.
  - rewrite fold_left_app. apply IH.
Qed.

Lemma entries_In {A : Type} (source : list A) (item : A) (idx : nat) :
  In (item, idx) (entries source) -> nth_error source idx = Some item.
Proof.
  unfold entries.
  assert (G : forall (l : list A) (start : nat),
             In (item, idx) (combine l (seq start (length l))) ->
             (start <= idx)%nat /\ nth_error l (idx - start) = Some item).
  { induction l as [|a l IH]; intros start Hin; simpl in Hin.
    - contradiction.
    - destruct Hin as [Heq | Hin].
      + inversion Heq; subst. rewrite Nat.sub_diag. now split.
      + apply IH in Hin. destruct Hin as [Hle Hnth]. split; [lia|].
        replace (idx - start)%nat with (S (idx - S start)) by lia.
        exact Hnth. }
  intros Hin. apply G in Hin. destruct Hin as [_ Hnth].
  now rewrite Nat.sub_0_r in Hnth.
Qed.

Lemma entries_nth {A : Type} (source : list A) (item : A) (idx : nat) :
  nth_error source idx = Some item -> In (item, idx) (entries source).
Proof.
  unfold entries.
  assert (G : forall (l : list A) (start k : nat),
             nth_error l k = Some item ->
             In (item, (start + k)%nat) (combine l (seq start (length l)))).
  { induction l as [|a l IH]; intros start k Hnth.
    - destruct k; discriminate.
    - destruct k as [|k]; simpl in *.
      + inversion Hnth; subst. left. f_equal. lia.
      + right. replace (start + S k)%nat with (S start + k)%nat by lia.
        now apply IH. }
  intros Hnth. exact (G source 0%nat idx Hnth).
Qed.

Lemma removeAt_split {A : Type} (source : list A) (item : A) (idx : nat) :
  nth_error source idx = Some item ->
  source = firstn idx source ++ item :: skipn (S idx) source.
Proof.
  revert idx. induction source as [|a l IH]; intros idx Hnth.
  - destruct idx; discriminate.
  - destruct idx as [|idx]; simpl in *.
    + now inversion Hnth.
    + f_equal. now apply IH.
Qed.

Lemma removeAt_Permutation {A : Type} (source : list A) (item : A) (idx : nat) :
  nth_error source idx = Some item ->
  Permutation source (item :: removeAt idx source).
Proof.
  intros Hnth. unfold removeAt.
  rewrite (removeAt_split source item idx Hnth) at 1.
  symmetry. apply Permutation_middle.
Qed.

Lemma removeAt_length {A : Type} (source : list A) (item : A) (idx : nat) :
  nth_error source idx = Some item ->
  length source = S (length (removeAt idx source)).
Proof.
  intros Hnth. apply removeAt_Permutation in Hnth.
  apply Permutation_length in Hnth. exact Hnth.
Qed.

(** *** generatePermutations *)

Lemma generatePermutationsF_sound {A : Type} (fuel : nat) :
  forall (source perm : list A),
    In perm (generatePermutationsF fuel source) -> Permutation source perm.
Proof.
  induction fuel as [|fuel IH]; intros source perm Hin; simpl in Hin.
  - destruct Hin as [<- | []]. reflexivity.
  - destruct (length source <=? 1)%nat.
    + destruct Hin as [<- | []]. reflexivity.
    + apply in_flat_map in Hin. destruct Hin as [[item idx] [Hent Hin]].
      apply in_map_iff in Hin. destruct Hin as [rest [<- Hrest]].
      apply entries_In in Hent.
      rewrite (removeAt_Permutation source item idx Hent).
      constructor. now apply IH.
Qed.

Lemma generatePermutationsF_nonempty {A : Type} (fuel : nat) :
  forall source : list A, generatePermutationsF fuel source <> [].
Proof.
  induction fuel as [|fuel IH]; intros source; simpl.
  - discriminate.
  - destruct (length source <=? 1)%nat eqn:Hlen; [discriminate|].
    apply Nat.leb_gt in Hlen.
    destruct source as [|a l]; [simpl in Hlen; lia|].
    apply (flat_map_nonempty _ _ (a, 0%nat)).
    + apply entries_nth. reflexivity.
    + intros Hmap. apply map_eq_nil in Hmap. now apply IH in Hmap.
Qed.

Lemma generatePermutations_sound {A : Type} (source perm : list A) :
  In perm (generatePermutations source) -> Permutation source perm.
Proof. apply generatePermutationsF_sound. Qed.

(** Every index a generated ordering mentions is an index of the input. *)
Lemma generatePermutations_indices (n : nat) (perm : list nat) :
  In perm (generatePermutations (seq 0 n)) ->
  forall i, In i perm -> (i < n)%nat.
Proof.
  intros Hin i Hi. apply generatePermutations_sound in Hin.
  apply (Permutation_in _ (Permutation_sym Hin)) in Hi.
  apply in_seq in Hi. lia.
Qed.

(** *** buildTrees *)

Fixpoint leaves (node : LayoutNode) : list nat :=
  match node with
  | LeafNode i _ => [i]
  | SplitNode _ l r _ => leaves l ++ leaves r
  end.

(** The shape of the nodes the two builders produce: a floored leaf, and a
    split whose [ratio] field is the combination of its children's. *)
Fixpoint built (node : LayoutNode) : Prop :=
  match node with
  | LeafNode _ r => (1 # 10) <= r
  | SplitNode o l r q =>
      built l /\ built r /\
      q = match o with
          | vertical => ratio l + ratio r
          | horizontal => 1 / (1 / ratio l + 1 / ratio r)
          end
  end.

Lemma built_ratio_pos (node : LayoutNode) : built node -> 0 < ratio node.
Proof.
  induction node as [i r | o l IHl r IHr q]; simpl.
  - intros H. lra.
  - intros (Hl & Hr & ->). specialize (IHl Hl). specialize (IHr Hr).
    destruct o.
    + lra.
    + assert (Hil : 0 < / ratio l) by now apply Qinv_lt_0_compat.
      assert (Hir : 0 < / ratio r) by now apply Qinv_lt_0_compat.
      unfold Qdiv. rewrite !Qmult_1_l.
      apply Qinv_lt_0_compat. lra.
Qed.

Lemma buildLeaf_built (i : nat) (r : Q) : built (buildLeaf i r).
Proof. simpl. apply Q.le_max_r. Qed.

Lemma buildSplit_built (o : Orientation) (l r : LayoutNode) :
  built l -> built r -> built (buildSplit o l r).
Proof. intros Hl Hr. simpl. repeat split; assumption. Qed.

Lemma buildTreesF_In (fuel : nat) (indices : list nat) (ratios : list Q)
  (tree : LayoutNode) :
  In tree (buildTreesF (S fuel) indices ratios) ->
  (exists i, indices = [i] /\ tree = buildLeaf i (nth i ratios 0)) \/
  (exists split o l r,
      (1 <= split < length indices)%nat /\
      In l (buildTreesF fuel (firstn split indices) ratios) /\
      In r (buildTreesF fuel (skipn split indices) ratios) /\
      tree = buildSplit o l r).
Proof.
  intros Hin.
  assert (G : In tree
                (flat_map
                   (fun split =>
                      flat_map
                        (fun leftNode =>
                           flat_map
                             (fun rightNode =>
                                [buildSplit vertical leftNode rightNode;
                                 buildSplit horizontal leftNode rightNode])
                             (buildTreesF fuel (skipn split indices) ratios))
                        (buildTreesF fuel (firstn split indices) ratios))
                   (seq 1 (length indices - 1))) ->
              exists split o l r,
                (1 <= split < length indices)%nat /\
                In l (buildTreesF fuel (firstn split indices) ratios) /\
                In r (buildTreesF fuel (skipn split indices) ratios) /\
                tree = buildSplit o l r).
  { intros H. apply in_flat_map in H. destruct H as [split [Hs H]].
    apply in_flat_map in H. destruct H as [l [Hl H]].
    apply in_flat_map in H. destruct H as [r [Hr H]].
    apply in_seq in Hs.
    destruct H as [<- | [<- | []]].
    - exists split, vertical, l, r. repeat split; try assumption; lia.
    - exists split, horizontal, l, r. repeat split; try assumption; lia. }
  simpl in Hin. destruct indices as [|i [|j rest]].
  - right. now apply G.
  - left. destruct Hin as [<- | []]. exists i. now split.
  - right. now apply G.
Qed.

Lemma buildTreesF_leaves (fuel : nat) :
  forall indices ratios tree,
    In tree (buildTreesF fuel indices ratios) -> leaves tree = indices.
Proof.
  induction fuel as [|fuel IH]; intros indices ratios tree Hin.
  - contradiction.
  - apply buildTreesF_In in Hin.
    destruct Hin as [[i [-> ->]] | (split & o & l & r & _ & Hl & Hr & ->)].
    + reflexivity.
    + simpl. rewrite (IH _ _ _ Hl), (IH _ _ _ Hr). apply firstn_skipn.
Qed.

Lemma buildTreesF_built (fuel : nat) :
  forall indices ratios tree,
    In tree (buildTreesF fuel indices ratios) -> built tree.
Proof.
  induction fuel as [|fuel IH]; intros indices ratios tree Hin.
  - contradiction.
  - apply buildTreesF_In in Hin.
    destruct Hin as [[i [-> ->]] | (split & o & l & r & _ & Hl & Hr & ->)].
    + apply buildLeaf_built.
    + apply buildSplit_built; eapply IH; eassumption.
Qed.

Lemma buildTreesF_nonempty (fuel : nat) :
  forall indices ratios,
    (1 <= length indices <= fuel)%nat ->
    buildTreesF fuel indices ratios <> [].
Proof.
  induction fuel as [|fuel IH]; intros indices ratios Hlen.
  - lia.
  - destruct indices as [|i [|j rest]]; simpl in Hlen.
    + lia.
    + discriminate.
    + assert (Hl : buildTreesF fuel (firstn 1 (i :: j :: rest)) ratios <> []).
      { apply IH. simpl. lia. }
      assert (Hr : buildTreesF fuel (skipn 1 (i :: j :: rest)) ratios <> []).
      { apply IH. simpl. lia. }
      destruct (buildTreesF fuel (firstn 1 (i :: j :: rest)) ratios)
        as [|l ls] eqn:El; [congruence|].
      destruct (buildTreesF fuel (skipn 1 (i :: j :: rest)) ratios)
        as [|r rs] eqn:Er; [congruence|].
      change (buildTreesF (S fuel) (i :: j :: rest) ratios)
        with (flat_map
                (fun split =>
                   flat_map
                     (fun leftNode =>
                        flat_map
                          (fun rightNode =>
                             [buildSplit vertical leftNode rightNode;
                              buildSplit horizontal leftNode rightNode])
                          (buildTreesF fuel (skipn split (i :: j :: rest)) ratios))
                     (buildTreesF fuel (firstn split (i :: j :: rest)) ratios))
                (seq 1 (length (i :: j :: rest) - 1))).
      apply (flat_map_nonempty _ _ 1%nat).
      * apply in_seq. simpl. lia.
      * rewrite El, Er. simpl. discriminate.
Qed.

(** *** layoutTree *)

Lemma score_from (layout : list LayoutRect) (start : Q) :
  fold_left (fun sum rect => sum + width rect * height rect) layout start
  == start + score layout.
Proof.
  unfold score. revert start.
  induction layout as [|r l IH]; intros start; simpl.
  - ring.
  - rewrite (IH (start + width r * height r)), (IH (0 + width r * height r)).
    ring.
Qed.

Lemma score_cons (r : LayoutRect) (l : list LayoutRect) :
  score (r :: l) == width r * height r + score l.
Proof.
  unfold score at 1. simpl. rewrite score_from. ring.
Qed.

Lemma score_app (l1 l2 : list LayoutRect) :
  score (l1 ++ l2) == score l1 + score l2.
Proof.
  unfold score at 1. rewrite fold_left_app.
  rewrite score_from. reflexivity.
Qed.

Lemma score_Permutation (l1 l2 : list LayoutRect) :
  Permutation l1 l2 -> score l1 == score l2.
Proof.
  induction 1 as [| r l l' _ IH | r r' l | l l' l'' _ IH1 _ IH2].
  - reflexivity.
  - rewrite !score_cons, IH. reflexivity.
  - rewrite !score_cons. ring.
  - now rewrite IH1.
Qed.

Lemma Qleb_false_pos (q : Q) : 0 < q -> Qleb q 0 = false.
Proof.
  intros Hq. unfold Qleb. destruct (Qle_bool q 0) eqn:E; [|reflexivity].
  apply Qle_bool_iff in E. lra.
Qed.

(** The guard of the vertical branch and the guard of the horizontal branch
    of [layoutTree], collected over every split the layout visits. *)
Fixpoint fallbackTaken (node : LayoutNode) : bool :=
  match node with
  | LeafNode _ _ => false
  | SplitNode vertical l r _ =>
      Qleb (ratio l + ratio r) 0 || fallbackTaken l || fallbackTaken r
  | SplitNode horizontal l r q =>
      Qleb q 0 || fallbackTaken l || fallbackTaken r
  end.

Lemma built_no_fallback (node : LayoutNode) :
  built node -> fallbackTaken node = false.
Proof.
  induction node as [i r | o l IHl r IHr q]; simpl.
  - reflexivity.
  - intros (Hl & Hr & Hq).
    assert (Hq' : 0 < q).
    { apply (built_ratio_pos (SplitNode o l r q)). simpl. auto. }
    pose proof (built_ratio_pos l Hl). pose proof (built_ratio_pos r Hr).
    rewrite (IHl Hl), (IHr Hr).
    destruct o; rewrite Qleb_false_pos; try reflexivity; try assumption; lra.
Qed.

(** Without a fallback the layout has one rect per leaf, in leaf order. *)
Lemma layoutTree_indices (node : LayoutNode) :
  fallbackTaken node = false ->
  forall container, map index (layoutTree node container) = leaves node.
Proof.
  induction node as [i r | o l IHl r IHr q]; simpl; intros Hfb container.
  - reflexivity.
  - destruct o.
    + apply orb_false_iff in Hfb. destruct Hfb as [Hfb Hr].
      apply orb_false_iff in Hfb. destruct Hfb as [Hg Hl].
      rewrite Hg, map_app, (IHl Hl), (IHr Hr). reflexivity.
    + apply orb_false_iff in Hfb. destruct Hfb as [Hfb Hr].
      apply orb_false_iff in Hfb. destruct Hfb as [Hg Hl].
      rewrite Hg, map_app, (IHl Hl), (IHr Hr). reflexivity.
Qed.

Lemma Qdiv_nonneg (a b : Q) : 0 <= a -> 0 < b -> 0 <= a / b.
Proof.
  intros Ha Hb. unfold Qdiv.
  apply Qmult_le_0_compat; [assumption|].
  apply Qlt_le_weak. now apply Qinv_lt_0_compat.
Qed.

Lemma Qmult_div_cancel (a b : Q) : 0 < b -> b * (a / b) == a.
Proof. intros Hb. field. lra. Qed.

(** A layout never covers more than its container. *)
Lemma layoutTree_area (node : LayoutNode) :
  built node ->
  forall container,
    0 <= cwidth container -> 0 <= cheight container ->
    score (layoutTree node container) <= cwidth container * cheight container.
Proof.
  induction node as [i r | o l IHl r IHr q]; intros Hb container Hw Hh.
  - simpl. rewrite score_cons. unfold score. simpl. lra.
  - pose proof (built_ratio_pos _ Hb) as Hq. simpl in Hq.
    destruct Hb as (Hl & Hr & Eq).
    pose proof (built_ratio_pos l Hl) as Hrl.
    pose proof (built_ratio_pos r Hr) as Hrr.
    destruct o; simpl.
    + rewrite Qleb_false_pos by lra.
      set (total := ratio l + ratio r) in *.
      set (maxHeight := Qmin (cheight container) (cwidth container / total)).
      assert (Hm0 : 0 <= maxHeight).
      { unfold maxHeight. apply Q.min_glb; [assumption|].
        apply Qdiv_nonneg; [assumption|unfold total; lra]. }
      assert (Hm1 : maxHeight <= cheight container) by apply Q.le_min_l.
      assert (Hm2 : total * maxHeight <= cwidth container).
      { rewrite <- (Qmult_div_cancel (cwidth container) total) by (unfold total; lra).
        apply Qmult_le_l; [unfold total; lra|]. apply Q.le_min_r. }
      rewrite score_app.
      match goal with
      | |- score (layoutTree l ?c1) + score (layoutTree r ?c2) <= _ =>
          pose proof (IHl Hl c1) as H1; pose proof (IHr Hr c2) as H2
      end.
      simpl in H1, H2.
      assert (G1 : 0 <= maxHeight * ratio l) by (apply Qmult_le_0_compat; lra).
      assert (G2 : 0 <= maxHeight * ratio r) by (apply Qmult_le_0_compat; lra).
      specialize (H1 G1 Hm0). specialize (H2 G2 Hm0).
      assert (G3 : (total * maxHeight) * maxHeight
                   <= cwidth container * cheight container).
      { apply Qle_trans with (cwidth container * maxHeight).
        - apply Qmult_le_compat_r; assumption.
        - rewrite (Qmult_comm (cwidth container) maxHeight),
                  (Qmult_comm (cwidth container) (cheight container)).
          apply Qmult_le_compat_r; assumption. }
      assert (G4 : maxHeight * ratio l * maxHeight + maxHeight * ratio r * maxHeight
                   == total * maxHeight * maxHeight) by (unfold total; ring).
      lra.
    + rewrite Qleb_false_pos by assumption.
      set (u := / ratio l). set (v := / ratio r).
      assert (Hu : 0 < u) by now apply Qinv_lt_0_compat.
      assert (Hv : 0 < v) by now apply Qinv_lt_0_compat.
      assert (Equv : q * (u + v) == 1).
      { rewrite Eq. unfold u, v. field. repeat split; lra. }
      set (availableWidth := Qmin (cwidth container) (cheight container * q)).
      assert (Ha0 : 0 <= availableWidth).
      { unfold availableWidth. apply Q.min_glb; [assumption|].
        apply Qmult_le_0_compat; lra. }
      assert (Ha1 : availableWidth <= cwidth container) by apply Q.le_min_l.
      assert (Ha2 : availableWidth <= cheight container * q) by apply Q.le_min_r.
      rewrite score_app.
      match goal with
      | |- score (layoutTree l ?c1) + score (layoutTree r ?c2) <= _ =>
          pose proof (IHl Hl c1) as H1; pose proof (IHr Hr c2) as H2
      end.
      simpl in H1, H2. fold availableWidth in H1, H2.
      assert (G1 : 0 <= availableWidth / ratio l) by now apply Qdiv_nonneg.
      assert (G2 : 0 <= availableWidth / ratio r) by now apply Qdiv_nonneg.
      specialize (H1 Ha0 G1). specialize (H2 Ha0 G2).
      assert (G3 : availableWidth * (u + v) <= cheight container).
      { apply Qle_trans with (cheight container * q * (u + v)).
        - apply Qmult_le_compat_r; lra.
        - rewrite <- Qmult_assoc, Equv. lra. }
      assert (G4 : availableWidth * (availableWidth / ratio l)
                   + availableWidth * (availableWidth / ratio r)
                   == availableWidth * (availableWidth * (u + v))).
      { unfold Qdiv. fold u. fold v. ring. }
      assert (G5 : availableWidth * (availableWidth * (u + v))
                   <= cwidth container * cheight container).
      { assert (A : availableWidth * (u + v) * availableWidth
                    <= cheight container * availableWidth)
          by (apply Qmult_le_compat_r; assumption).
        assert (B : availableWidth * cheight container
                    <= cwidth container * cheight container)
          by (apply Qmult_le_compat_r; assumption).
        lra. }
      lra.
Qed.

(** *** The search for the best candidate *)

(** Every tree the two nested [forEach] loops visit, in visiting order. *)
Definition candidates (ratios : list Q) : list LayoutNode :=
  flat_map (fun perm => buildTrees perm ratios)
    (generatePermutations (seq 0 (length ratios))).

Definition search (container : ContainerRect) (trees : list LayoutNode)
  : list LayoutRect * option Q :=
  fold_left (consider container) trees ([], None).

(** [best] is the layout of a tree of [seen] that no tree of [seen] beats. *)
Definition chosen (container : ContainerRect) (seen : list LayoutNode)
  (best : list LayoutRect * option Q) : Prop :=
  exists tree,
    In tree seen /\
    best = (layoutTree tree container, Some (score (layoutTree tree container))) /\
    forall other, In other seen ->
      score (layoutTree other container) <= score (layoutTree tree container).

Lemma consider_chosen (container : ContainerRect) (seen : list LayoutNode)
  (best : list LayoutRect * option Q) (tree : LayoutNode) :
  chosen container seen best ->
  chosen container (seen ++ [tree]) (consider container best tree).
Proof.
  intros (t & Hin & -> & Hmax). unfold consider. simpl. unfold Qltb.
  destruct (Qle_bool (score (layoutTree tree container))
              (score (layoutTree t container))) eqn:E; simpl.
  - apply Qle_bool_iff in E. exists t. split; [|split].
    + apply in_or_app. now left.
    + reflexivity.
    + intros other Ho. apply in_app_or in Ho.
      destruct Ho as [Ho | [<- | []]]; [now apply Hmax | exact E].
  - assert (Hlt : score (layoutTree t container)
                  < score (layoutTree tree container)).
    { apply Qnot_le_lt. intros Hle. apply Qle_bool_iff in Hle. congruence. }
    exists tree. split; [|split].
    + apply in_or_app. right. now left.
    + reflexivity.
    + intros other Ho. apply in_app_or in Ho.
      destruct Ho as [Ho | [<- | []]].
      * specialize (Hmax other Ho). lra.
      * lra.
Qed.

Lemma fold_consider_chosen (container : ContainerRect) (rest : list LayoutNode) :
  forall seen best,
    chosen container seen best ->
    chosen container (seen ++ rest) (fold_left (consider container) rest best).
Proof.
  induction rest as [|t rest IH]; intros seen best Hc; simpl.
  - now rewrite app_nil_r.
  - replace (seen ++ t :: rest) with ((seen ++ [t]) ++ rest)
      by (rewrite <- app_assoc; reflexivity).
    apply IH. now apply consider_chosen.
Qed.

Lemma search_chosen (container : ContainerRect) (trees : list LayoutNode) :
  trees <> [] -> chosen container trees (search container trees).
Proof.
  destruct trees as [|t rest]; [congruence|]. intros _.
  unfold search. simpl.
  apply (fold_consider_chosen container rest [t]).
  exists t. split; [now left|]. split; [reflexivity|].
  intros other [<- | []]. lra.
Qed.

Lemma candidates_nonempty (ratios : list Q) :
  (1 <= length ratios)%nat -> candidates ratios <> [].
Proof.
  intros Hlen. unfold candidates.
  pose proof (generatePermutationsF_nonempty
                (length (seq 0 (length ratios))) (seq 0 (length ratios))) as Hne.
  fold (generatePermutations (seq 0 (length ratios))) in Hne.
  destruct (generatePermutations (seq 0 (length ratios))) as [|perm ps] eqn:E;
    [congruence|].
  apply (flat_map_nonempty _ _ perm); [now left|].
  assert (Hperm : Permutation (seq 0 (length ratios)) perm).
  { apply generatePermutations_sound. rewrite E. now left. }
  apply buildTreesF_nonempty.
  apply Permutation_length in Hperm. rewrite length_seq in Hperm. lia.
Qed.

Lemma candidates_spec (ratios : list Q) (tree : LayoutNode) :
  In tree (candidates ratios) ->
  built tree /\ Permutation (seq 0 (length ratios)) (leaves tree).
Proof.
  intros Hin. apply in_flat_map in Hin. destruct Hin as [perm [Hp Ht]].
  split.
  - eapply buildTreesF_built. exact Ht.
  - apply buildTreesF_leaves in Ht. rewrite Ht.
    now apply generatePermutations_sound.
Qed.

(** *** Sorting by index *)

Lemma insertByIndex_Permutation (rect : LayoutRect) (l : list LayoutRect) :
  Permutation (insertByIndex rect l) (rect :: l).
Proof.
  induction l as [|r l IH]; simpl.
  - reflexivity.
  - destruct (index r <=? index rect)%nat.
    + rewrite IH. apply perm_swap.
    + reflexivity.
Qed.

Lemma sortByIndex_Permutation (l : list LayoutRect) :
  Permutation (sortByIndex l) l.
Proof.
  unfold sortByIndex. rewrite (Permutation_rev l) at 2.
  induction (rev l) as [|r rl IH]; simpl.
  - reflexivity.
  - rewrite insertByIndex_Permutation. now constructor.
Qed.

Lemma insertByIndex_sorted (rect : LayoutRect) (l : list LayoutRect) :
  StronglySorted le (map index l) ->
  StronglySorted le (map index (insertByIndex rect l)).
Proof.
  induction l as [|r l IH]; simpl; intros Hs.
  - constructor; constructor.
  - inversion Hs as [|? ? Hs' Hall]; subst.
    destruct (index r <=? index rect)%nat eqn:E; simpl.
    + apply Nat.leb_le in E. constructor; [now apply IH|].
      apply (Permutation_Forall
               (Permutation_sym
                  (Permutation_map index (insertByIndex_Permutation rect l)))).
      simpl. constructor; assumption.
    + apply Nat.leb_gt in E. constructor; [assumption|].
      constructor; [lia|].
      eapply Forall_impl; [|exact Hall]. simpl. intros; lia.
Qed.

Lemma sortByIndex_sorted (l : list LayoutRect) :
  StronglySorted le (map index (sortByIndex l)).
Proof.
  unfold sortByIndex. induction (rev l) as [|r rl IH]; simpl.
  - constructor.
  - now apply insertByIndex_sorted.
Qed.

Lemma sorted_seq_unique (n : nat) :
  forall (l : list nat) (start : nat),
    StronglySorted le l -> Permutation l (seq start n) -> l = seq start n.
Proof.
  induction n as [|n IH]; intros l start Hs Hp; simpl in *.
  - now apply Permutation_sym, Permutation_nil in Hp.
  - destruct l as [|h t].
    + apply Permutation_nil in Hp. discriminate.
    + inversion Hs as [|? ? Hs' Hall]; subst.
      assert (Hh : h = start).
      { assert (H1 : In h (start :: seq (S start) n))
          by (apply (Permutation_in _ Hp); now left).
        assert (H2 : In start (h :: t))
          by (apply (Permutation_in _ (Permutation_sym Hp)); now left).
        assert (Hge : (start <= h)%nat).
        { destruct H1 as [-> | H1]; [lia|]. apply in_seq in H1. lia. }
        destruct H2 as [-> | H2]; [reflexivity|].
        rewrite Forall_forall in Hall. specialize (Hall _ H2). lia. }
      subst h. f_equal. apply IH; [assumption|].
      now apply Permutation_cons_inv in Hp.
Qed.

(** *** computeOptimalLayout *)

(** The last step of [computeOptimalLayout]: the rects shifted left by
    [minX]. *)
Definition shiftBy (minX : option Q) (rect : LayoutRect) : LayoutRect :=
  mkLayoutRect (index rect)
    (x rect - match minX with Some m => m | None => 0 end)
    (y rect) (width rect) (height rect).

(** For two inputs or more the solution is the sorted and shifted best
    layout of the search over [candidates]. *)
Lemma computeOptimalLayout_many (a b : Q) (rest : list Q) (W H : Q) :
  let sorted :=
    sortByIndex
      (fst (search (mkContainerRect 0 0 W H) (candidates (a :: b :: rest)))) in
  rects (computeOptimalLayout (a :: b :: rest) W H)
  = map (shiftBy (fold_left minStep sorted None)) sorted.
Proof.
  unfold computeOptimalLayout, search, candidates. cbv zeta.
  rewrite fold_left_flat_map. reflexivity.
Qed.

Lemma shiftBy_index (minX : option Q) (l : list LayoutRect) :
  map index (map (shiftBy minX) l) = map index l.
Proof. rewrite map_map. reflexivity. Qed.

Lemma shiftBy_score (minX : option Q) (l : list LayoutRect) :
  score (map (shiftBy minX) l) == score l.
Proof.
  induction l as [|r l IH]; simpl.
  - reflexivity.
  - rewrite !score_cons, IH. reflexivity.
Qed.

(** The tree whose layout [computeOptimalLayout] returns. *)
Lemma computeOptimalLayout_winner (a b : Q) (rest : list Q) (W H : Q) :
  exists tree,
    In tree (candidates (a :: b :: rest)) /\
    Permutation (rects (computeOptimalLayout (a :: b :: rest) W H))
      (map (shiftBy
              (fold_left minStep
                 (sortByIndex (layoutTree tree (mkContainerRect 0 0 W H))) None))
         (layoutTree tree (mkContainerRect 0 0 W H))) /\
    map index (rects (computeOptimalLayout (a :: b :: rest) W H))
    = seq 0 (length (a :: b :: rest)) /\
    (forall other, In other (candidates (a :: b :: rest)) ->
       score (layoutTree other (mkContainerRect 0 0 W H))
       <= score (layoutTree tree (mkContainerRect 0 0 W H))).
Proof.
  pose proof (search_chosen (mkContainerRect 0 0 W H) (candidates (a :: b :: rest)))
    as Hc.
  destruct Hc as (tree & Hin & Hbest & Hmax).
  { apply candidates_nonempty. simpl. lia. }
  exists tree. split; [assumption|].
  rewrite computeOptimalLayout_many. cbv zeta. rewrite Hbest. simpl fst.
  split; [|split].
  - apply Permutation_map. apply sortByIndex_Permutation.
  - rewrite shiftBy_index.
    apply sorted_seq_unique; [apply sortByIndex_sorted|].
    rewrite (Permutation_map index (sortByIndex_Permutation _)).
    destruct (candidates_spec _ _ Hin) as [Hb Hp].
    rewrite layoutTree_indices by now apply built_no_fallback.
    now symmetry.
  - exact Hmax.
Qed.

Lemma computeOptimalLayout_indices (ratios : list Q) (W H : Q) :
  map index (rects (computeOptimalLayout ratios W H)) = seq 0 (length ratios).
Proof.
  destruct ratios as [|a [|b rest]].
  - reflexivity.
  - reflexivity.
  - destruct (computeOptimalLayout_winner a b rest W H) as (t & _ & _ & Hi & _).
    exact Hi.
Qed.

Lemma computeOptimalLayout_score (a b : Q) (rest : list Q) (W H : Q) :
  exists tree,
    In tree (candidates (a :: b :: rest)) /\
    score (rects (computeOptimalLayout (a :: b :: rest) W H))
    == score (layoutTree tree (mkContainerRect 0 0 W H)) /\
    (forall other, In other (candidates (a :: b :: rest)) ->
       score (layoutTree other (mkContainerRect 0 0 W H))
       <= score (layoutTree tree (mkContainerRect 0 0 W H))).
Proof.
  destruct (computeOptimalLayout_winner a b rest W H) as (t & Hin & Hp & _ & Hmax).
  exists t. split; [assumption|]. split; [|assumption].
  rewrite (score_Permutation _ _ Hp). apply shiftBy_score.
Qed.

(** In exact arithmetic.  For every non-empty list of aspect ratios (in
    particular for 1 to 4 of them) and every container of positive width [W]
    and height [H], [computeOptimalLayout] returns as many rects as there
    are inputs, the rect at position [i] carrying index [i] (so every input
    index occurs exactly once), and the areas [width * height] of the rects
    sum to at most [W * H]. *)
Lemma solution_covers (ratios : list Q) (W H : Q) :
  (1 <= length ratios)%nat -> 0 < W -> 0 < H ->
  length (rects (computeOptimalLayout ratios W H)) = length ratios /\
  map index (rects (computeOptimalLayout ratios W H)) = seq 0 (length ratios) /\
  score (rects (computeOptimalLayout ratios W H)) <= W * H.
Proof.
  intros Hlen HW HH.
  pose proof (computeOptimalLayout_indices ratios W H) as Hidx.
  split; [|split; [exact Hidx|]].
  - rewrite <- (length_map index), Hidx. apply length_seq.
  - destruct ratios as [|a [|b rest]].
    + simpl in Hlen. lia.
    + simpl. rewrite score_cons. unfold score. simpl.
      assert (Hle : Qmin W (Qmax (H * (if Qeq_bool a 0 then 1 else a)) (W * (1 # 4)))
                    <= W) by apply Q.le_min_l.
      apply (Qmult_le_compat_r _ _ H) in Hle; [lra|lra].
    + destruct (computeOptimalLayout_score a b rest W H) as (t & Hin & -> & _).
      destruct (candidates_spec _ _ Hin) as [Hb _].
      apply (layoutTree_area t Hb (mkContainerRect 0 0 W H)); simpl; lra.
Qed.

(** *** The recursion equations of the source *)

Lemma generatePermutationsF_fuel {A : Type} (fuel1 : nat) :
  forall (fuel2 : nat) (source : list A),
    (length source <= fuel1)%nat -> (length source <= fuel2)%nat ->
    generatePermutationsF fuel1 source = generatePermutationsF fuel2 source.
Proof.
  induction fuel1 as [|fuel1 IH]; intros fuel2 source H1 H2.
  - destruct source; [|simpl in H1; lia]. destruct fuel2; reflexivity.
  - destruct fuel2 as [|fuel2].
    + destruct source; [reflexivity|simpl in H2; lia].
    + simpl. destruct (length source <=? 1)%nat; [reflexivity|].
      apply flat_map_ext_In. intros [item idx] Hin.
      apply entries_In, removeAt_length in Hin.
      f_equal. apply IH; lia.
Qed.

(** [generatePermutations] satisfies the recursion it is written with. *)
Lemma generatePermutations_eq {A : Type} (source : list A) :
  generatePermutations source
  = if (length source <=? 1)%nat then [source]
    else
      flat_map
        (fun entry : A * nat =>
           let (item, idx) := entry in
           map (cons item) (generatePermutations (removeAt idx source)))
        (entries source).
Proof.
  unfold generatePermutations at 1.
  destruct (length source) as [|n] eqn:Hlen.
  - reflexivity.
  - cbn [generatePermutationsF]. rewrite Hlen.
    destruct (S n <=? 1)%nat; [reflexivity|].
    apply flat_map_ext_In. intros [item idx] Hin.
    apply entries_In, removeAt_length in Hin.
    f_equal. unfold generatePermutations.
    apply generatePermutationsF_fuel; lia.
Qed.

Lemma buildTreesF_fuel (fuel1 : nat) :
  forall (fuel2 : nat) (indices : list nat) (ratios : list Q),
    (length indices <= fuel1)%nat -> (length indices <= fuel2)%nat ->
    buildTreesF fuel1 indices ratios = buildTreesF fuel2 indices ratios.
Proof.
  induction fuel1 as [|fuel1 IH]; intros fuel2 indices ratios H1 H2.
  - destruct indices; [|simpl in H1; lia]. destruct fuel2; reflexivity.
  - destruct fuel2 as [|fuel2].
    + destruct indices; [reflexivity|simpl in H2; lia].
    + destruct indices as [|i [|j rest]]; try reflexivity.
      cbn [buildTreesF]. apply flat_map_ext_In. intros split Hs.
      apply in_seq in Hs. cbn [length] in *.
      assert (Hf : (length (firstn split (i :: j :: rest)) <= S (length rest))%nat).
      { rewrite length_firstn. cbn [length]. lia. }
      assert (Hk : (length (skipn split (i :: j :: rest)) <= S (length rest))%nat).
      { rewrite length_skipn. cbn [length]. lia. }
      rewrite (IH fuel2 (firstn split (i :: j :: rest)) ratios) by lia.
      rewrite (IH fuel2 (skipn split (i :: j :: rest)) ratios) by lia.
      reflexivity.
Qed.

Lemma buildTreesF_S (fuel : nat) (indices : list nat) (ratios : list Q) :
  buildTreesF (S fuel) indices ratios
  = match indices with
    | [index] => [buildLeaf index (nth index ratios 0)]
    | _ =>
        flat_map
          (fun split =>
             flat_map
               (fun leftNode =>
                  flat_map
                    (fun rightNode =>
                       [buildSplit vertical leftNode rightNode;
                        buildSplit horizontal leftNode rightNode])
                    (buildTreesF fuel (skipn split indices) ratios))
               (buildTreesF fuel (firstn split indices) ratios))
          (seq 1 (length indices - 1))
    end.
Proof. reflexivity. Qed.

(** [buildTrees] satisfies the recursion it is written with. *)
Lemma buildTrees_eq (indices : list nat) (ratios : list Q) :
  buildTrees indices ratios
  = match indices with
    | [index] => [buildLeaf index (nth index ratios 0)]
    | _ =>
        flat_map
          (fun split =>
             flat_map
               (fun leftNode =>
                  flat_map
                    (fun rightNode =>
                       [buildSplit vertical leftNode rightNode;
                        buildSplit horizontal leftNode rightNode])
                    (buildTrees (skipn split indices) ratios))
               (buildTrees (firstn split indices) ratios))
          (seq 1 (length indices - 1))
    end.
Proof.
  unfold buildTrees at 1.
  destruct indices as [|i [|j rest]]; try reflexivity.
  change (length (i :: j :: rest)) with (S (S (length rest))) at 1.
  rewrite buildTreesF_S.
  apply flat_map_ext_In. intros split Hs.
  apply in_seq in Hs. cbn [length] in Hs.
  unfold buildTrees.
  rewrite (buildTreesF_fuel (S (length rest)) (length (firstn split (i :: j :: rest)))
             (firstn split (i :: j :: rest)) ratios);
    [|rewrite length_firstn; cbn [length]; lia|lia].
  rewrite (buildTreesF_fuel (S (length rest)) (length (skipn split (i :: j :: rest)))
             (skipn split (i :: j :: rest)) ratios);
    [|rewrite length_skipn; cbn [length]; lia|lia].
  reflexivity.
Qed.

(** *** One aspect ratio *)

(** C8, as the code has it.  For a single aspect ratio [a] and a container
    of width [W >= 0] and height [H], [computeOptimalLayout] returns exactly
    one rect, of index 0, at the origin, of height [H] and of width
    [clamp(H * a', 0.25 * W, W)], where [a'] is [a] when [a] is not zero and
    1 when it is ([aspectRatios[0] || 1]); that width lies in
    [[0.25 * W, W]] and [usedWidth] is that width. *)
Theorem computeOptimalLayout_single (a W H : Q) :
  0 <= W ->
  exists rect,
    computeOptimalLayout [a] W H = mkLayoutSolution [rect] (width rect) /\
    index rect = 0%nat /\ x rect == 0 /\ y rect == 0 /\ height rect = H /\
    width rect
    == ListingPreview.clamp (H * (if Qeq_bool a 0 then 1 else a)) ((1 # 4) * W) W /\
    (1 # 4) * W <= width rect /\ width rect <= W.
Proof.
  intros HW.
  exists (mkLayoutRect 0 0 0
            (Qmin W (Qmax (H * (if Qeq_bool a 0 then 1 else a)) (W * (1 # 4)))) H).
  split; [reflexivity|]. simpl.
  repeat split; try reflexivity.
  - unfold ListingPreview.clamp. rewrite Q.min_comm.
    rewrite (Qmult_comm W (1 # 4)). reflexivity.
  - apply Q.min_glb; [lra|].
    apply Qle_trans with (W * (1 # 4)); [lra|apply Q.le_max_r].
  - apply Q.le_min_l.
Qed.

Lemma computeOptimalLayout_single_witness :
  exists rect,
    computeOptimalLayout [178 # 100] 1000 600
    = mkLayoutSolution [rect] (width rect) /\
    index rect = 0%nat /\ x rect == 0 /\ y rect == 0 /\ height rect = 600 /\
    width rect
    == ListingPreview.clamp
         (600 * (if Qeq_bool (178 # 100) 0 then 1 else 178 # 100))
         ((1 # 4) * 1000) 1000 /\
    (1 # 4) * 1000 <= width rect /\ width rect <= 1000.
Proof.
  apply (computeOptimalLayout_single (178 # 100) 1000 600).
  unfold Qle. simpl. lia.
Defined.

(** C8 as stated fails at the aspect ratio 0 in a 1000 x 600 container: the
    rect is 600 wide, where [clamp(600 * 0, 250, 1000)] is 250. *)
Lemma computeOptimalLayout_single_zero :
  exists rect,
    rects (computeOptimalLayout [0] 1000 600) = [rect] /\
    width rect == 600 /\
    ListingPreview.clamp (600 * 0) ((1 # 4) * 1000) 1000 == 250 /\
    ~ width rect == ListingPreview.clamp (600 * 0) ((1 # 4) * 1000) 1000.
Proof.
  eexists. split; [reflexivity|]. simpl.
  repeat split; try reflexivity. intros Heq. vm_compute in Heq. discriminate.
Qed.

(** *** Degenerate ratios *)

(** Every node of a tree, the tree itself included. *)
Fixpoint nodes (node : LayoutNode) : list LayoutNode :=
  match node with
  | LeafNode _ _ => [node]
  | SplitNode _ l r _ => node :: nodes l ++ nodes r
  end.

Lemma built_nodes (tree node : LayoutNode) :
  built tree -> In node (nodes tree) -> built node.
Proof.
  induction tree as [i r | o l IHl r IHr q]; simpl; intros Hb Hin.
  - destruct Hin as [<- | []]. exact Hb.
  - destruct Hin as [<- | Hin]; [exact Hb|].
    destruct Hb as (Hl & Hr & _).
    apply in_app_or in Hin. destruct Hin; auto.
Qed.

Lemma buildTreesF_floored (fuel : nat) :
  forall indices ratios tree i r,
    In tree (buildTreesF fuel indices ratios) ->
    In (LeafNode i r) (nodes tree) ->
    r = Qmax (nth i ratios 0) (1 # 10).
Proof.
  induction fuel as [|fuel IH]; intros indices ratios tree i r Hin Hn.
  - contradiction.
  - apply buildTreesF_In in Hin.
    destruct Hin as [[j [-> ->]] | (split & o & lt & rt & _ & Hl & Hr & ->)].
    + simpl in Hn. destruct Hn as [Hn | []]. now injection Hn as <- <-.
    + simpl in Hn. destruct Hn as [Hn | Hn]; [discriminate|].
      apply in_app_or in Hn. destruct Hn as [Hn | Hn].
      * exact (IH _ _ lt i r Hl Hn).
      * exact (IH _ _ rt i r Hr Hn).
Qed.

(** C9.  [computeOptimalLayout] returns a solution with one rect per input
    for every list of ratios, zero and negative ratios included, and every
    container.  In every tree [buildTrees] builds, for any indices and any
    ratios, each leaf ratio is the input ratio floored at 0.1, each node's
    ratio is strictly positive, and no guard of a fallback branch of
    [layoutTree] holds, so that its layout has one rect per leaf. *)
Theorem computeOptimalLayout_total (ratios : list Q) (W H : Q) :
  length (rects (computeOptimalLayout ratios W H)) = length ratios /\
  map index (rects (computeOptimalLayout ratios W H)) = seq 0 (length ratios) /\
  forall indices tree,
    In tree (buildTrees indices ratios) ->
    (forall i r, In (LeafNode i r) (nodes tree) ->
       r = Qmax (nth i ratios 0) (1 # 10) /\ (1 # 10) <= r) /\
    (forall node, In node (nodes tree) -> 0 < ratio node) /\
    fallbackTaken tree = false /\
    forall container,
      map index (layoutTree tree container) = indices.
Proof.
  pose proof (computeOptimalLayout_indices ratios W H) as Hidx.
  split; [|split; [exact Hidx|]].
  - rewrite <- (length_map index), Hidx. apply length_seq.
  - intros indices tree Hin.
    pose proof (buildTreesF_built _ _ _ _ Hin) as Hb.
    pose proof (buildTreesF_leaves _ _ _ _ Hin) as Hl.
    split; [|split; [|split]].
    + intros i r Hn. split.
      * eapply buildTreesF_floored; eassumption.
      * exact (built_nodes _ _ Hb Hn).
    + intros node Hn. apply built_ratio_pos. exact (built_nodes _ _ Hb Hn).
    + now apply built_no_fallback.
    + intros container. rewrite layoutTree_indices; [exact Hl|].
      now apply built_no_fallback.
Qed.

(** *** Permuting the input *)

Lemma generatePermutationsF_complete {A : Type} (fuel : nat) :
  forall (source perm : list A),
    (length source <= fuel)%nat -> Permutation source perm ->
    In perm (generatePermutationsF fuel source).
Proof.
  induction fuel as [|fuel IH]; intros source perm Hlen Hp.
  - destruct source; [|simpl in Hlen; lia].
    apply Permutation_nil in Hp. subst. now left.
  - cbn [generatePermutationsF].
    destruct (length source <=? 1)%nat eqn:E.
    + apply Nat.leb_le in E. destruct source as [|a [|b rest]].
      * apply Permutation_nil in Hp. subst. now left.
      * apply Permutation_length_1_inv in Hp. subst. now left.
      * simpl in E. lia.
    + destruct perm as [|h t].
      * apply Permutation_sym, Permutation_nil in Hp. subst. discriminate.
      * assert (Hh : In h source)
          by (apply (Permutation_in _ (Permutation_sym Hp)); now left).
        apply In_nth_error in Hh. destruct Hh as [idx Hidx].
        apply in_flat_map. exists (h, idx). split; [now apply entries_nth|].
        apply in_map. apply IH.
        -- apply removeAt_length in Hidx. lia.
        -- apply Permutation_cons_inv with (a := h).
           rewrite <- (removeAt_Permutation source h idx Hidx). exact Hp.
Qed.

(** Every ordering of the source is generated. *)
Lemma generatePermutations_complete {A : Type} (source perm : list A) :
  Permutation source perm -> In perm (generatePermutations source).
Proof. apply generatePermutationsF_complete. lia. Qed.

(** The same tree over other leaf indices. *)
Fixpoint relabel (f : nat -> nat) (node : LayoutNode) : LayoutNode :=
  match node with
  | LeafNode i r => LeafNode (f i) r
  | SplitNode o l r q => SplitNode o (relabel f l) (relabel f r) q
  end.

Definition shape (rect : LayoutRect) : Q * Q := (width rect, height rect).

Lemma relabel_ratio (f : nat -> nat) (node : LayoutNode) :
  ratio (relabel f node) = ratio node.
Proof. destruct node; reflexivity. Qed.

Lemma relabel_buildSplit (f : nat -> nat) (o : Orientation) (l r : LayoutNode) :
  relabel f (buildSplit o l r) = buildSplit o (relabel f l) (relabel f r).
Proof. unfold buildSplit. simpl. now rewrite !relabel_ratio. Qed.

Lemma layoutTree_relabel (f : nat -> nat) (node : LayoutNode) :
  forall container,
    map shape (layoutTree (relabel f node) container)
    = map shape (layoutTree node container).
Proof.
  induction node as [i r | o l IHl r IHr q]; intros container; simpl.
  - reflexivity.
  - rewrite !relabel_ratio.
    destruct o.
    + destruct (Qleb (ratio l + ratio r) 0); [reflexivity|].
      rewrite !map_app, IHl, IHr. reflexivity.
    + destruct (Qleb q 0); [reflexivity|].
      rewrite !map_app, IHl, IHr. reflexivity.
Qed.

Lemma score_shapes (l1 l2 : list LayoutRect) :
  map shape l1 = map shape l2 -> score l1 = score l2.
Proof.
  unfold score. generalize 0.
  revert l2. induction l1 as [|r1 l1 IH]; intros [|r2 l2] start Heq;
    simpl in *; try discriminate.
  - reflexivity.
  - injection Heq as Hw Hh Ht. rewrite Hw, Hh. now apply IH.
Qed.

Lemma buildTreesF_split_intro (fuel : nat) (indices : list nat) (ratios : list Q)
  (split : nat) (o : Orientation) (l r : LayoutNode) :
  (1 <= split < length indices)%nat ->
  In l (buildTreesF fuel (firstn split indices) ratios) ->
  In r (buildTreesF fuel (skipn split indices) ratios) ->
  In (buildSplit o l r) (buildTreesF (S fuel) indices ratios).
Proof.
  intros Hs Hl Hr. rewrite buildTreesF_S.
  assert (G : In (buildSplit o l r)
                (flat_map
                   (fun split =>
                      flat_map
                        (fun leftNode =>
                           flat_map
                             (fun rightNode =>
                                [buildSplit vertical leftNode rightNode;
                                 buildSplit horizontal leftNode rightNode])
                             (buildTreesF fuel (skipn split indices) ratios))
                        (buildTreesF fuel (firstn split indices) ratios))
                   (seq 1 (length indices - 1)))).
  { apply in_flat_map. exists split. split; [apply in_seq; lia|].
    apply in_flat_map. exists l. split; [assumption|].
    apply in_flat_map. exists r. split; [assumption|].
    destruct o; simpl; auto. }
  destruct indices as [|i [|j rest]]; try exact G.
  simpl in Hs. lia.
Qed.

Lemma buildTreesF_relabel (f : nat -> nat) (ratios ratios' : list Q) (fuel : nat) :
  forall indices tree,
    (forall i, In i indices -> nth i ratios' 0 = nth (f i) ratios 0) ->
    In tree (buildTreesF fuel indices ratios') ->
    In (relabel f tree) (buildTreesF fuel (map f indices) ratios).
Proof.
  induction fuel as [|fuel IH]; intros indices tree Hnth Hin.
  - contradiction.
  - apply buildTreesF_In in Hin.
    destruct Hin as [[i [-> ->]] | (split & o & l & r & Hs & Hl & Hr & ->)].
    + simpl. left. unfold buildLeaf. rewrite (Hnth i) by now left. reflexivity.
    + rewrite relabel_buildSplit.
      apply buildTreesF_split_intro with (split := split).
      * now rewrite length_map.
      * rewrite firstn_map. apply IH; [|assumption].
        intros i Hi. apply Hnth.
        rewrite <- (firstn_skipn split indices). apply in_or_app. now left.
      * rewrite skipn_map. apply IH; [|assumption].
        intros i Hi. apply Hnth.
        rewrite <- (firstn_skipn split indices). apply in_or_app. now right.
Qed.

(** Every candidate for a permuted input is, up to the names of its
    leaves, a candidate for the input itself. *)
Lemma candidates_Permutation (ratios ratios' : list Q) (tree' : LayoutNode) :
  Permutation ratios ratios' ->
  In tree' (candidates ratios') ->
  exists tree,
    In tree (candidates ratios) /\
    forall container,
      score (layoutTree tree container) = score (layoutTree tree' container).
Proof.
  intros Hp Hin.
  apply Permutation_nth_error in Hp. destruct Hp as (Hlen & f & Hinj & Hf).
  apply in_flat_map in Hin. destruct Hin as (perm' & Hperm' & Ht').
  rewrite <- Hlen in Hperm'.
  set (n := length ratios) in *.
  assert (Hbound : forall i, (i < n)%nat ->
                     (f i < n)%nat /\ nth i ratios' 0 = nth (f i) ratios 0).
  { intros i Hi.
    assert (Hsome : nth_error ratios' i <> None)
      by (apply nth_error_Some; lia).
    destruct (nth_error ratios' i) as [q|] eqn:E; [|congruence].
    rewrite Hf in E. split.
    - apply nth_error_Some. congruence.
    - rewrite (nth_error_nth ratios (f i) 0 E).
      apply nth_error_nth. now rewrite Hf. }
  assert (Hseq : Permutation (seq 0 n) (map f (seq 0 n))).
  { symmetry. apply NoDup_Permutation_bis.
    - apply Finite.Injective_map_NoDup; [assumption|apply seq_NoDup].
    - rewrite length_map. lia.
    - intros j Hj. apply in_map_iff in Hj. destruct Hj as (i & <- & Hi).
      apply in_seq in Hi. apply in_seq.
      destruct (Hbound i) as [Hlt _]; lia. }
  pose proof (generatePermutations_sound _ _ Hperm') as Hsound.
  exists (relabel f tree'). split.
  - apply in_flat_map. exists (map f perm'). split.
    + apply generatePermutations_complete.
      apply Permutation_trans with (map f (seq 0 n)); [exact Hseq|].
      now apply Permutation_map.
    + unfold buildTrees. rewrite length_map.
      apply (buildTreesF_relabel f ratios ratios'); [|exact Ht'].
      intros i Hi. apply Hbound.
      apply (Permutation_in _ (Permutation_sym Hsound)) in Hi.
      apply in_seq in Hi. lia.
  - intros container. apply score_shapes. apply layoutTree_relabel.
Qed.

(** The shapes of two layouts as multisets: every width-height pair occurs
    as often in one as in the other. *)
Definition countShape (w h : Q) (layout : list LayoutRect) : nat :=
  length (filter (fun rect => Qeq_bool (width rect) w && Qeq_bool (height rect) h)
            layout).

Definition sameShapes (layout1 layout2 : list LayoutRect) : Prop :=
  forall w h, countShape w h layout1 = countShape w h layout2.

(** C5 as stated fails: in a 1 x 1 container the ratios 1, 1/4, 4 and their
    reordering 1, 4, 1/4 yield layouts of different shapes; a rect of
    20/21 x 5/21 occurs in the first and not in the second. *)
Lemma computeOptimalLayout_order_dependent :
  Permutation [1; 1 # 4; 4] [1; 4; 1 # 4] /\
  ~ sameShapes (rects (computeOptimalLayout [1; 1 # 4; 4] 1 1))
               (rects (computeOptimalLayout [1; 4; 1 # 4] 1 1)).
Proof.
  split.
  - constructor. apply perm_swap.
  - intros Hsame. specialize (Hsame (20 # 21) (5 # 21)).
    vm_compute in Hsame. discriminate.
Qed.

(** In exact arithmetic.  Solving a permutation of the list of aspect ratios
    yields as many rects, over the same indices, covering the same total
    area (the sum of [width * height]); the shapes of the rects may differ
    when candidates tie at the best area. *)
Lemma solution_Permutation (ratios ratios' : list Q) (W H : Q) :
  Permutation ratios ratios' ->
  map index (rects (computeOptimalLayout ratios W H))
  = map index (rects (computeOptimalLayout ratios' W H)) /\
  score (rects (computeOptimalLayout ratios W H))
  == score (rects (computeOptimalLayout ratios' W H)).
Proof.
  intros Hp. split.
  - rewrite !computeOptimalLayout_indices.
    now rewrite (Permutation_length Hp).
  - destruct ratios as [|a [|b rest]].
    + apply Permutation_nil in Hp. subst. reflexivity.
    + apply Permutation_length_1_inv in Hp. subst. reflexivity.
    + destruct ratios' as [|a' [|b' rest']];
        try (apply Permutation_length in Hp; simpl in Hp; lia).
      destruct (computeOptimalLayout_score a b rest W H)
        as (t & Hin & -> & Hmax).
      destruct (computeOptimalLayout_score a' b' rest' W H)
        as (t' & Hin' & -> & Hmax').
      destruct (candidates_Permutation _ _ t' Hp Hin') as (u & Hu & Eu).
      destruct (candidates_Permutation _ _ t (Permutation_sym Hp) Hin)
        as (u' & Hu' & Eu').
      specialize (Hmax u Hu). specialize (Hmax' u' Hu').
      rewrite Eu in Hmax. rewrite Eu' in Hmax'.
      apply Qle_antisym; assumption.
Qed.

End LayoutSolverFacts.

(** ** Text fitter *)

Module TextFitFacts.
Import TextFit.

Local Open Scope Z_scope.

(** *** slice *)

Lemma slice0_length {A : Type} (stop : Z) (l : list A) :
  0 <= stop -> Z.of_nat (length (slice0 stop l)) <= stop.
Proof.
  intros Hs. unfold slice0.
  destruct (stop <? 0) eqn:E; [apply Z.ltb_lt in E; lia|].
  rewrite length_firstn. lia.
Qed.

Lemma slice0_nonempty {A : Type} (stop : Z) (l : list A) :
  1 <= stop -> l <> [] -> slice0 stop l <> [].
Proof.
  intros Hs Hl. unfold slice0.
  destruct (stop <? 0) eqn:E; [apply Z.ltb_lt in E; lia|].
  destruct l as [|a l]; [congruence|].
  destruct (Z.to_nat stop) as [|n] eqn:En; [lia|]. simpl. discriminate.
Qed.

Lemma hasRoom_true (lines : list string) (maxLines : Z) :
  hasRoom lines maxLines = true <-> Z.of_nat (length lines) < maxLines.
Proof. unfold hasRoom. apply Z.ltb_lt. Qed.

Lemma hasRoom_nil (maxLines : Z) : 1 <= maxLines -> hasRoom [] maxLines = true.
Proof. intros H. apply hasRoom_true. simpl. lia. Qed.

(** *** trim and split *)

Lemma trimStart_head (s : string) (c : ascii) (rest : string) :
  trimStart s = String c rest -> isSpace c = false.
Proof.
  induction s as [|a s IH]; simpl; intros H.
  - discriminate.
  - destruct (isSpace a) eqn:E; [now apply IH|].
    injection H as -> _. exact E.
Qed.

Lemma trimEnd_head (s : string) (c : ascii) (rest : string) :
  trimEnd s = String c rest -> exists rest', s = String c rest'.
Proof.
  destruct s as [|a s]; simpl; intros H.
  - discriminate.
  - destruct (trimEnd s).
    + destruct (isSpace a); [discriminate|]. injection H as -> _. now exists s.
    + injection H as -> _. now exists s.
Qed.

(** A trimmed string is empty or starts with a character that is not white
    space. *)
Lemma trim_head (s : string) (c : ascii) (rest : string) :
  trim s = String c rest -> isSpace c = false.
Proof.
  unfold trim. intros H. apply trimEnd_head in H. destruct H as [rest' H].
  now apply trimStart_head in H.
Qed.

Lemma pushChar_head (c : ascii) (pieces : list string) :
  exists piece rest, pushChar c pieces = String c piece :: rest.
Proof. destruct pieces as [|p ps]; simpl; eauto. Qed.

(** The first word of a paragraph that starts with a character that is not
    white space is not empty. *)
Lemma splitSpaces_head (c : ascii) (rest : string) :
  isSpace c = false ->
  exists word words,
    splitSpaces (String c rest) = word :: words /\ truthy word = true.
Proof.
  intros Hc. unfold splitSpaces. simpl. rewrite Hc.
  destruct (pushChar_head c (splitSpacesFrom false rest)) as (piece & ps & ->).
  now exists (String c piece), ps.
Qed.

Section WithMeasure.

Variable measureText : Font -> string -> Q.

(** *** wrapText keeps within [maxLines] *)

Lemma wrapWord_length (font : Font) (maxWidth : Q) (maxLines : Z)
  (state : list string * string) (word : string) :
  Z.of_nat (length (fst state)) <= maxLines ->
  Z.of_nat (length (fst (wrapWord measureText font maxWidth maxLines state word)))
  <= maxLines.
Proof.
  destruct state as [lines cur]. unfold wrapWord. simpl. intros Hl.
  destruct (LayoutSolver.Qltb maxWidth _ && truthy cur)%bool; simpl; [|assumption].
  destruct (hasRoom lines maxLines) eqn:E; [|assumption].
  apply hasRoom_true in E. rewrite length_app. simpl. lia.
Qed.

Lemma wrapWords_length (font : Font) (maxWidth : Q) (maxLines : Z)
  (words : list string) :
  forall state,
    Z.of_nat (length (fst state)) <= maxLines ->
    Z.of_nat
      (length (fst (fold_left (wrapWord measureText font maxWidth maxLines)
                      words state)))
    <= maxLines.
Proof.
  induction words as [|w ws IH]; intros state Hl; simpl.
  - assumption.
  - apply IH. now apply wrapWord_length.
Qed.

Lemma push_length (lines : list string) (line : string) (maxLines : Z)
  (condition : bool) :
  Z.of_nat (length lines) <= maxLines ->
  Z.of_nat
    (length (if (condition && hasRoom lines maxLines)%bool
             then lines ++ [line] else lines))
  <= maxLines.
Proof.
  intros Hl. destruct condition; simpl; [|assumption].
  destruct (hasRoom lines maxLines) eqn:E; [|assumption].
  apply hasRoom_true in E. rewrite length_app. simpl. lia.
Qed.

Lemma wrapParagraphs_length (font : Font) (maxWidth : Q) (maxLines : Z)
  (paragraphs : list string) :
  0 <= maxLines ->
  forall lines,
    Z.of_nat (length lines) <= maxLines ->
    Z.of_nat
      (length (wrapParagraphs measureText font maxWidth maxLines paragraphs lines))
    <= maxLines.
Proof.
  intros Hm. induction paragraphs as [|raw rest IH]; intros lines Hl; simpl.
  - assumption.
  - destruct (negb (truthy (trim raw))).
    + pose proof (push_length lines EmptyString maxLines true Hl) as H1.
      simpl in H1.
      destruct (negb (hasRoom _ maxLines)); [now apply slice0_length|now apply IH].
    + pose proof (wrapWords_length font maxWidth maxLines
                    (splitSpaces (trim raw)) (lines, EmptyString) Hl) as H1.
      destruct (fold_left _ (splitSpaces (trim raw)) (lines, EmptyString))
        as [lines1 cur]. simpl in H1.
      pose proof (push_length lines1 cur maxLines (truthy cur) H1) as H2.
      set (lines2 := if (truthy cur && hasRoom lines1 maxLines)%bool
                     then lines1 ++ [cur] else lines1) in *.
      pose proof (push_length lines2 EmptyString maxLines
                    (match rest with [] => false | _ => true end) H2) as H3.
      destruct (negb (hasRoom _ maxLines)); [now apply slice0_length|now apply IH].
Qed.

Lemma wrapText_length (font : Font) (text : string) (maxWidth : Q) (maxLines : Z) :
  0 <= maxLines ->
  Z.of_nat (length (wrapText measureText font text maxWidth maxLines)) <= maxLines.
Proof.
  intros Hm. unfold wrapText. apply wrapParagraphs_length; simpl; lia.
Qed.

(** *** wrapText returns at least one line *)

(** Once a line is collected or a line is being filled, this stays so. *)
Definition started (state : list string * string) : Prop :=
  fst state <> [] \/ truthy (snd state) = true.

Lemma app_nonempty {A : Type} (l : list A) (a : A) : l ++ [a] <> [].
Proof. destruct l; discriminate. Qed.

Lemma truthy_append (s t : string) :
  truthy s = true -> truthy (s ++ t)%string = true.
Proof. destruct s; [discriminate|reflexivity]. Qed.

Lemma wrapWord_started (font : Font) (maxWidth : Q) (maxLines : Z)
  (state : list string * string) (word : string) :
  1 <= maxLines -> started state ->
  started (wrapWord measureText font maxWidth maxLines state word).
Proof.
  destruct state as [lines cur]. unfold started, wrapWord. simpl.
  intros Hm Hs.
  destruct (truthy cur) eqn:Ec.
  - destruct (LayoutSolver.Qltb maxWidth _); simpl.
    + left. destruct lines as [|l ls].
      * rewrite hasRoom_nil by assumption. discriminate.
      * destruct (hasRoom (l :: ls) maxLines); [apply app_nonempty|discriminate].
    + right. now apply truthy_append.
  - destruct Hs as [Hs | Hs]; [|discriminate].
    rewrite andb_false_r. simpl. now left.
Qed.

Lemma wrapWords_started (font : Font) (maxWidth : Q) (maxLines : Z)
  (words : list string) :
  1 <= maxLines ->
  forall state, started state ->
    started (fold_left (wrapWord measureText font maxWidth maxLines) words state).
Proof.
  intros Hm. induction words as [|w ws IH]; intros state Hs; simpl.
  - assumption.
  - apply IH. now apply wrapWord_started.
Qed.

Lemma wrapWord_first (font : Font) (maxWidth : Q) (maxLines : Z)
  (lines : list string) (word : string) :
  truthy word = true ->
  started (wrapWord measureText font maxWidth maxLines (lines, EmptyString) word).
Proof.
  intros Hw. unfold started, wrapWord. simpl.
  rewrite andb_false_r. simpl. now right.
Qed.

Lemma wrapParagraphs_nonempty (font : Font) (maxWidth : Q) (maxLines : Z)
  (paragraphs : list string) :
  1 <= maxLines ->
  forall lines,
    lines <> [] \/ paragraphs <> [] ->
    wrapParagraphs measureText font maxWidth maxLines paragraphs lines <> [].
Proof.
  intros Hm. induction paragraphs as [|raw rest IH]; intros lines Hl; simpl.
  - destruct Hl as [Hl | Hl]; [assumption|congruence].
  - clear Hl. destruct (trim raw) as [|c tail] eqn:Et; simpl.
    + assert (H1 : (if hasRoom lines maxLines then lines ++ [EmptyString] else lines)
                   <> []).
      { destruct lines as [|l ls].
        - rewrite hasRoom_nil by assumption. discriminate.
        - destruct (hasRoom (l :: ls) maxLines); [apply app_nonempty|discriminate]. }
      destruct (negb (hasRoom _ maxLines)).
      * now apply slice0_nonempty.
      * apply IH. now left.
    + pose proof (trim_head _ _ _ Et) as Hc.
      destruct (splitSpaces_head c tail Hc) as (w & ws & Ew & Hw).
      rewrite Ew. simpl.
      pose proof (wrapWords_started font maxWidth maxLines ws Hm _
                    (wrapWord_first font maxWidth maxLines lines w Hw)) as Hs.
      destruct (fold_left _ ws _) as [lines1 cur].
      unfold started in Hs. simpl in Hs.
      set (lines2 := if (truthy cur && hasRoom lines1 maxLines)%bool
                     then lines1 ++ [cur] else lines1).
      assert (H2 : lines2 <> []).
      { unfold lines2. destruct lines1 as [|l ls].
        - destruct Hs as [Hs | Hs]; [congruence|].
          rewrite Hs, hasRoom_nil by assumption. discriminate.
        - destruct (truthy cur && hasRoom (l :: ls) maxLines)%bool;
            [apply app_nonempty|discriminate]. }
      set (lines3 := if ((match rest with [] => false | _ => true end)
                         && hasRoom lines2 maxLines)%bool
                     then lines2 ++ [EmptyString] else lines2).
      assert (H3 : lines3 <> []).
      { unfold lines3.
        destruct ((match rest with [] => false | _ => true end)
                  && hasRoom lines2 maxLines)%bool;
          [apply app_nonempty|assumption]. }
      destruct (negb (hasRoom lines3 maxLines)).
      * now apply slice0_nonempty.
      * apply IH. now left.
Qed.

Lemma splitLines_nonempty (text : string) : splitLines text <> [].
Proof.
  destruct text as [|c rest]; simpl; [discriminate|].
  destruct (isLineFeed c); [discriminate|].
  assert (G : forall pieces, pushChar c pieces <> [])
    by (intros [|p ps]; discriminate).
  destruct rest as [|c' rest']; [apply G|].
  destruct (isCarriageReturn c && isLineFeed c')%bool; [discriminate|apply G].
Qed.

Lemma wrapText_nonempty (font : Font) (text : string) (maxWidth : Q) (maxLines : Z) :
  1 <= maxLines -> wrapText measureText font text maxWidth maxLines <> [].
Proof.
  intros Hm. unfold wrapText. apply wrapParagraphs_nonempty; [assumption|].
  right. apply splitLines_nonempty.
Qed.

(** *** The search over font sizes *)

Local Open Scope Q_scope.

(** The text [fitTextBlock] wraps. *)
Definition wordsOf (rawText : string) : string :=
  if truthy (trim rawText) then trim rawText else " "%string.

(** The [k]-th size the loop tries: [maxFontSize] after [k] decrements. *)
Definition candidateSize (options : TextFitOptions) (k : nat) : Q :=
  Nat.iter k (fun size => size - 1) (maxFontSize options).

Definition wrapAt (words : string) (options : TextFitOptions) (size : Q)
  : list string :=
  wrapText measureText (mkFont (fontWeight options) size) words
    (maxWidth options) (maxLines options).

(** [blockHeight <= options.maxHeight] at [size]. *)
Definition fitsAt (words : string) (options : TextFitOptions) (size : Q) : bool :=
  LayoutSolver.Qleb
    (blockHeightOf (wrapAt words options size) (size * lineHeightMultiplier options))
    (maxHeight options).

Lemma fitLoop_Some (fuel : nat) (words : string) (options : TextFitOptions) :
  forall size fit,
    fitLoop measureText fuel words options size = Some fit ->
    exists size',
      fit = mkTypographyFit size' (size' * lineHeightMultiplier options)
              (wrapAt words options size') /\
      minFontSize options <= size' /\ size' <= size /\
      fitsAt words options size' = true.
Proof.
  induction fuel as [|fuel IH]; intros size fit Hfit; simpl in Hfit.
  - discriminate.
  - destruct (LayoutSolver.Qleb (minFontSize options) size) eqn:Eg; [|discriminate].
    apply Qle_bool_iff in Eg.
    destruct (LayoutSolver.Qleb (blockHeightOf _ _) (maxHeight options)) eqn:Ef.
    + injection Hfit as <-. exists size. repeat split; try assumption. lra.
    + apply IH in Hfit. destruct Hfit as (size' & -> & H1 & H2 & H3).
      exists size'. repeat split; try assumption. lra.
Qed.

Lemma fitLoop_None (fuel : nat) (words : string) (options : TextFitOptions) :
  forall k,
    (forall j, minFontSize options <= candidateSize options j ->
               fitsAt words options (candidateSize options j) = false) ->
    fitLoop measureText fuel words options (candidateSize options k) = None.
Proof.
  induction fuel as [|fuel IH]; intros k Hno; simpl.
  - reflexivity.
  - destruct (LayoutSolver.Qleb (minFontSize options) (candidateSize options k))
      eqn:Eg; [|reflexivity].
    apply Qle_bool_iff in Eg. specialize (Hno k Eg) as Hk.
    unfold fitsAt, wrapAt in Hk. rewrite Hk.
    apply (IH (S k) Hno).
Qed.

(** The loop leaves by its own test: more fuel than [iterations] changes
    nothing. *)
Lemma fitLoop_fuel (fuel : nat) (words : string) (options : TextFitOptions) :
  forall size extra,
    size - inject_Z (Z.of_nat fuel) < minFontSize options ->
    fitLoop measureText (fuel + extra) words options size
    = fitLoop measureText fuel words options size.
Proof.
  induction fuel as [|fuel IH]; intros size extra Hlt.
  - simpl in *. destruct extra as [|extra]; [reflexivity|]. simpl.
    destruct (LayoutSolver.Qleb (minFontSize options) size) eqn:Eg; [|reflexivity].
    apply Qle_bool_iff in Eg.
    assert (Hz : inject_Z 0 == 0) by reflexivity. lra.
  - cbn [Nat.add fitLoop].
    destruct (LayoutSolver.Qleb (minFontSize options) size); [|reflexivity].
    destruct (LayoutSolver.Qleb _ (maxHeight options)); [reflexivity|].
    apply IH. rewrite Nat2Z.inj_succ in Hlt. unfold Z.succ in Hlt.
    rewrite inject_Z_plus in Hlt.
    assert (Hz : inject_Z 1 == 1) by reflexivity. lra.
Qed.

Lemma iterations_enough (options : TextFitOptions) :
  maxFontSize options - inject_Z (Z.of_nat (iterations options))
  < minFontSize options.
Proof.
  unfold iterations.
  set (d := maxFontSize options - minFontSize options).
  pose proof (Qlt_floor d) as Hfl.
  assert (Hge : inject_Z (Qfloor d + 1)
                <= inject_Z (Z.of_nat (Z.to_nat (Qfloor d + 1)))).
  { rewrite <- Zle_Qle. lia. }
  unfold d in *. lra.
Qed.

Lemma fitTextBlock_fuel (rawText : string) (options : TextFitOptions) (extra : nat) :
  fitLoop measureText (iterations options + extra) (wordsOf rawText) options
    (maxFontSize options)
  = fitLoop measureText (iterations options) (wordsOf rawText) options
      (maxFontSize options).
Proof. apply fitLoop_fuel. apply iterations_enough. Qed.

(** The two ways [fitTextBlock] returns. *)
Lemma fitTextBlock_cases (rawText : string) (options : TextFitOptions) :
  (exists size,
      fitTextBlock measureText rawText options
      = mkTypographyFit size (size * lineHeightMultiplier options)
          (wrapAt (wordsOf rawText) options size) /\
      minFontSize options <= size /\ size <= maxFontSize options /\
      fitsAt (wordsOf rawText) options size = true) \/
  (fitLoop measureText (iterations options) (wordsOf rawText) options
     (maxFontSize options) = None /\
   fitTextBlock measureText rawText options
   = mkTypographyFit (minFontSize options)
       (minFontSize options * lineHeightMultiplier options)
       (match wrapAt (wordsOf rawText) options (minFontSize options) with
        | [] => [EmptyString]
        | _ => wrapAt (wordsOf rawText) options (minFontSize options)
        end)).
Proof.
  unfold fitTextBlock. fold (wordsOf rawText).
  destruct (fitLoop measureText (iterations options) (wordsOf rawText) options
              (maxFontSize options)) as [fit|] eqn:E.
  - left. apply fitLoop_Some in E. destruct E as (size & -> & H1 & H2 & H3).
    exists size. repeat split; assumption.
  - right. split; reflexivity.
Qed.

(** C3, as the code has it.  For every text and every options record with
    [maxLines >= 1], [minFontSize <= maxFontSize] and both sizes within the
    safe integer range (where the loop steps down by one and so ends),
    [fitTextBlock] returns at most [maxLines] lines and a font size in
    [[minFontSize, maxFontSize]]. *)
Theorem fitTextBlock_bounds (rawText : string) (options : TextFitOptions) :
  (1 <= maxLines options)%Z ->
  minFontSize options <= maxFontSize options ->
  (- MAX_SAFE_INTEGER <= minFontSize options)%Q ->
  (maxFontSize options <= MAX_SAFE_INTEGER)%Q ->
  (Z.of_nat (length (lines (fitTextBlock measureText rawText options)))
   <= maxLines options)%Z /\
  minFontSize options <= fontSize (fitTextBlock measureText rawText options) /\
  fontSize (fitTextBlock measureText rawText options) <= maxFontSize options.
Proof.
  intros Hm Hr _ _.
  destruct (fitTextBlock_cases rawText options)
    as [(size & -> & H1 & H2 & _) | (_ & ->)]; simpl.
  - split; [|split; assumption].
    apply wrapText_length. lia.
  - split; [|split; [lra|assumption]].
    pose proof (wrapText_length
                  (mkFont (fontWeight options) (minFontSize options))
                  (wordsOf rawText) (maxWidth options) (maxLines options)) as Hl.
    fold (wrapAt (wordsOf rawText) options (minFontSize options)) in Hl.
    destruct (wrapAt (wordsOf rawText) options (minFontSize options));
      [simpl; lia|apply Hl; lia].
Qed.

(** C7, as the code has it.  For a [minFontSize] that is not negative and
    a [maxFontSize] within the safe integer range (where the loop steps
    down by exactly one and so ends): when none of the sizes
    the search tries ([maxFontSize], [maxFontSize - 1], ... while at least
    [minFontSize]) makes the wrapped block fit within [maxHeight],
    [fitTextBlock] returns [minFontSize] and the lines wrapped at
    [minFontSize], a single empty line standing in for an empty wrap; with
    [maxLines >= 1] the wrap is never empty and the lines are the wrapped
    ones. *)
Theorem fitTextBlock_fallback (rawText : string) (options : TextFitOptions) :
  (0 <= minFontSize options)%Q ->
  (maxFontSize options <= MAX_SAFE_INTEGER)%Q ->
  (forall k, minFontSize options <= candidateSize options k ->
             fitsAt (wordsOf rawText) options (candidateSize options k) = false) ->
  fontSize (fitTextBlock measureText rawText options) = minFontSize options /\
  lineHeight (fitTextBlock measureText rawText options)
  = minFontSize options * lineHeightMultiplier options /\
  lines (fitTextBlock measureText rawText options)
  = match wrapAt (wordsOf rawText) options (minFontSize options) with
    | [] => [EmptyString]
    | _ => wrapAt (wordsOf rawText) options (minFontSize options)
    end /\
  ((1 <= maxLines options)%Z ->
   lines (fitTextBlock measureText rawText options)
   = wrapAt (wordsOf rawText) options (minFontSize options)).
Proof.
  intros _ _ Hno.
  pose proof (fitLoop_None (iterations options) (wordsOf rawText) options 0%nat Hno)
    as Hnone.
  change (candidateSize options 0) with (maxFontSize options) in Hnone.
  unfold fitTextBlock. fold (wordsOf rawText). rewrite Hnone. simpl.
  fold (wrapAt (wordsOf rawText) options (minFontSize options)).
  repeat split; try reflexivity.
  intros Hm.
  pose proof (wrapText_nonempty
                (mkFont (fontWeight options) (minFontSize options))
                (wordsOf rawText) (maxWidth options) (maxLines options) Hm) as Hne.
  fold (wrapAt (wordsOf rawText) options (minFontSize options)) in Hne.
  destruct (wrapAt (wordsOf rawText) options (minFontSize options));
    [congruence|reflexivity].
Qed.

(** C10, as the code has it.  For every text, the empty and the
    white-space-only ones included, and every options record with
    [maxLines >= 1] and sizes within the safe integer range (where the loop
    steps down by one and so ends), [fitTextBlock] returns at least one
    line, and exactly one empty line for a text that is empty once
    trimmed. *)
Theorem fitTextBlock_nonempty (rawText : string) (options : TextFitOptions) :
  (1 <= maxLines options)%Z ->
  (- MAX_SAFE_INTEGER <= minFontSize options)%Q ->
  (maxFontSize options <= MAX_SAFE_INTEGER)%Q ->
  (1 <= length (lines (fitTextBlock measureText rawText options)))%nat /\
  (truthy (trim rawText) = false ->
   lines (fitTextBlock measureText rawText options) = [EmptyString]).
Proof.
  intros Hm _ _. split.
  - assert (G : forall l : list string, l <> [] -> (1 <= length l)%nat).
    { intros [|a l] Hl; [congruence|simpl; lia]. }
    apply G.
    destruct (fitTextBlock_cases rawText options)
      as [(size & -> & _) | (_ & ->)]; simpl.
    + now apply wrapText_nonempty.
    + destruct (wrapAt (wordsOf rawText) options (minFontSize options)) eqn:E;
        discriminate.
  - intros Hblank.
    assert (Hw : forall size, wrapAt (wordsOf rawText) options size = [EmptyString]).
    { intros size. unfold wordsOf. rewrite Hblank.
      unfold wrapAt, wrapText. simpl.
      rewrite hasRoom_nil by assumption. simpl.
      destruct (hasRoom [EmptyString] (maxLines options)); simpl; [reflexivity|].
      unfold slice0. destruct (maxLines options <? 0)%Z eqn:E;
        [apply Z.ltb_lt in E; lia|].
      destruct (Z.to_nat (maxLines options)) eqn:En; [lia|].
      simpl. now rewrite firstn_nil. }
    destruct (fitTextBlock_cases rawText options)
      as [(size & -> & _) | (_ & ->)]; simpl.
    + apply Hw.
    + now rewrite Hw.
Qed.

End WithMeasure.

(** *** Concrete measurements *)

Local Open Scope Q_scope.

(** Half an em per character. *)
Definition halfEm (font : Font) (s : string) : Q :=
  size font * inject_Z (Z.of_nat (String.length s)) * (1 # 2).

(** Ten pixels per character in every font. *)
Definition tenPixels (font : Font) (s : string) : Q :=
  10 * inject_Z (Z.of_nat (String.length s)).

Lemma fitTextBlock_bounds_witness :
  (Z.of_nat
     (length
        (lines
           (fitTextBlock halfEm "Sunny flat near the marina"
              (mkTextFitOptions 300 200 3 56 28 "700" (112 # 100)))))
   <= 3)%Z /\
  28 <= fontSize
          (fitTextBlock halfEm "Sunny flat near the marina"
             (mkTextFitOptions 300 200 3 56 28 "700" (112 # 100))) /\
  fontSize
    (fitTextBlock halfEm "Sunny flat near the marina"
       (mkTextFitOptions 300 200 3 56 28 "700" (112 # 100)))
  <= 56.
Proof.
  apply (fitTextBlock_bounds halfEm "Sunny flat near the marina"
           (mkTextFitOptions 300 200 3 56 28 "700" (112 # 100))).
  - simpl. lia.
  - unfold Qle. simpl. lia.
  - unfold MAX_SAFE_INTEGER, Qle; simpl; lia.
  - unfold MAX_SAFE_INTEGER, Qle; simpl; lia.
Defined.

(** C3 as stated fails for the options record with [maxLines = 0],
    [maxFontSize = 20] and [minFontSize = 28]: the result has one line and
    the font size 28. *)
Lemma fitTextBlock_bounds_degenerate :
  lines (fitTextBlock tenPixels "A"
           (mkTextFitOptions 300 200 0 20 28 "700" (112 # 100)))
  = [EmptyString] /\
  fontSize (fitTextBlock tenPixels "A"
              (mkTextFitOptions 300 200 0 20 28 "700" (112 # 100)))
  = 28 /\
  ~ (Z.of_nat
       (length
          (lines (fitTextBlock tenPixels "A"
                    (mkTextFitOptions 300 200 0 20 28 "700" (112 # 100)))))
     <= 0)%Z /\
  ~ fontSize (fitTextBlock tenPixels "A"
                (mkTextFitOptions 300 200 0 20 28 "700" (112 # 100)))
    <= 20.
Proof.
  repeat split.
  - vm_compute. intros H. apply H. reflexivity.
  - vm_compute. intros H. apply H. reflexivity.
Qed.

Lemma fitTextBlock_fallback_witness :
  fontSize (fitTextBlock tenPixels "A"
              (mkTextFitOptions 300 10 3 30 28 "700" (112 # 100)))
  = 28 /\
  lineHeight (fitTextBlock tenPixels "A"
                (mkTextFitOptions 300 10 3 30 28 "700" (112 # 100)))
  = 28 * (112 # 100) /\
  lines (fitTextBlock tenPixels "A"
           (mkTextFitOptions 300 10 3 30 28 "700" (112 # 100)))
  = match wrapAt tenPixels (wordsOf "A")
            (mkTextFitOptions 300 10 3 30 28 "700" (112 # 100)) 28 with
    | [] => [EmptyString]
    | _ => wrapAt tenPixels (wordsOf "A")
             (mkTextFitOptions 300 10 3 30 28 "700" (112 # 100)) 28
    end /\
  ((1 <= 3)%Z ->
   lines (fitTextBlock tenPixels "A"
            (mkTextFitOptions 300 10 3 30 28 "700" (112 # 100)))
   = wrapAt tenPixels (wordsOf "A")
       (mkTextFitOptions 300 10 3 30 28 "700" (112 # 100)) 28).
Proof.
  apply (fitTextBlock_fallback tenPixels "A"
           (mkTextFitOptions 300 10 3 30 28 "700" (112 # 100)));
    [unfold MAX_SAFE_INTEGER, Qle; simpl; lia | unfold MAX_SAFE_INTEGER, Qle; simpl; lia |].
  intros k Hk. unfold fitsAt.
  change (wrapAt tenPixels (wordsOf "A")
            (mkTextFitOptions 300 10 3 30 28 "700" (112 # 100))
            (candidateSize (mkTextFitOptions 300 10 3 30 28 "700" (112 # 100)) k))
    with ["A"%string].
  simpl in Hk |- *.
  set (size := candidateSize (mkTextFitOptions 300 10 3 30 28 "700" (112 # 100)) k)
    in *.
  unfold LayoutSolver.Qleb.
  destruct (Qle_bool (blockHeightOf ["A"%string] (size * (112 # 100))) 10) eqn:E;
    [|reflexivity].
  apply Qle_bool_iff in E. unfold blockHeightOf in E. simpl in E.
  assert (Hone : inject_Z 1 == 1) by reflexivity.
  rewrite Hone in E. lra.
Defined.

(** C7 as stated fails for the options record with [maxLines = 0] and
    [maxHeight = -1]: no size fits, the wrap at [minFontSize] is empty, and
    the result has one empty line. *)
Lemma fitTextBlock_fallback_empty_wrap :
  (forall k,
      28 <= candidateSize (mkTextFitOptions 300 (-1) 0 56 28 "700" (112 # 100)) k ->
      fitsAt tenPixels (wordsOf "A")
        (mkTextFitOptions 300 (-1) 0 56 28 "700" (112 # 100))
        (candidateSize (mkTextFitOptions 300 (-1) 0 56 28 "700" (112 # 100)) k)
      = false) /\
  fontSize (fitTextBlock tenPixels "A"
              (mkTextFitOptions 300 (-1) 0 56 28 "700" (112 # 100)))
  = 28 /\
  wrapAt tenPixels (wordsOf "A")
    (mkTextFitOptions 300 (-1) 0 56 28 "700" (112 # 100)) 28
  = [] /\
  lines (fitTextBlock tenPixels "A"
           (mkTextFitOptions 300 (-1) 0 56 28 "700" (112 # 100)))
  <> wrapAt tenPixels (wordsOf "A")
       (mkTextFitOptions 300 (-1) 0 56 28 "700" (112 # 100)) 28.
Proof.
  split; [|split; [|split]].
  - intros k _. vm_compute. reflexivity.
  - vm_compute. reflexivity.
  - vm_compute. reflexivity.
  - vm_compute. discriminate.
Qed.

Lemma fitTextBlock_nonempty_witness :
  (1 <= length
          (lines (fitTextBlock halfEm "   "
                    (mkTextFitOptions 300 200 3 56 28 "700" (112 # 100)))))%nat /\
  (truthy (trim "   ") = false ->
   lines (fitTextBlock halfEm "   "
            (mkTextFitOptions 300 200 3 56 28 "700" (112 # 100)))
   = [EmptyString]).
Proof.
  apply (fitTextBlock_nonempty halfEm "   "
           (mkTextFitOptions 300 200 3 56 28 "700" (112 # 100))).
  - simpl. lia.
  - unfold MAX_SAFE_INTEGER, Qle; simpl; lia.
  - unfold MAX_SAFE_INTEGER, Qle; simpl; lia.
Defined.

(** C10 as stated fails in the program's arithmetic.  With
    [maxFontSize = 2^54], [minFontSize = 28], a multiplier of 1.25 and
    [maxHeight = 200], a text wrapped on one line never fits; [2^54 - 1] is
    [2^54] again in binary64, so after any number of turns the loop is
    still about to test [2^54]: [fitTextBlock] returns nothing. *)
Lemma fitTextBlock_never_returns :
  PrimFloat.sub 0x1p54%float 1%float = 0x1p54%float /\
  forall turns,
    TextFit64.countDown
      (TextFit64.blockFits 1%float 0x1.4p0%float 200%float) 28%float turns
      0x1p54%float
    = TextFit64.Running 0x1p54%float.
Proof.
  split; [reflexivity|].
  induction turns as [|turns IH]; [reflexivity|].
  cbn [TextFit64.countDown].
  change (PrimFloat.leb 28%float 0x1p54%float) with true.
  change (TextFit64.blockFits 1%float 0x1.4p0%float 200%float 0x1p54%float)
    with false.
  change (PrimFloat.sub 0x1p54%float 1%float) with 0x1p54%float.
  exact IH.
Qed.

End TextFitFacts.

(** ** Solving and resetting the frames *)

Module IndexFacts.
Import Types Index.

Lemma entries_map {A B : Type} (h : nat -> B) (l : list A) :
  map (fun entry : A * nat => let (_, index) := entry in h index)
    (LayoutSolver.entries l)
  = map h (seq 0 (length l)).
Proof.
  unfold LayoutSolver.entries. generalize 0%nat.
  induction l as [|a l IH]; intros start; simpl.
  - reflexivity.
  - now rewrite IH.
Qed.

Lemma allResolved_length {A : Type} (results : list (option A)) (values : list A) :
  allResolved results = Some values -> length values = length results.
Proof.
  revert values. induction results as [|r rs IH]; intros values H; simpl in H.
  - injection H as <-. reflexivity.
  - destruct r as [a|]; [|discriminate].
    destruct (allResolved rs) as [vs|]; [|discriminate].
    injection H as <-. simpl. f_equal. now apply IH.
Qed.

(** The solver never reports a width that is not positive for a container
    of positive width. *)
Lemma usedWidth_pos (ratios : list Q) (W H : Q) :
  0 < W ->
  0 < LayoutSolver.usedWidth (LayoutSolver.computeOptimalLayout ratios W H).
Proof.
  intros HW. destruct ratios as [|a [|b rest]].
  - exact HW.
  - simpl. apply Q.min_glb_lt; [assumption|].
    apply Qlt_le_trans with (W * (1 # 4)); [lra|apply Q.le_max_r].
  - unfold LayoutSolver.computeOptimalLayout. cbv zeta.
    cbn [LayoutSolver.usedWidth].
    apply Q.min_glb_lt; [|assumption].
    destruct (fold_left LayoutSolver.minStep _ None); [|reflexivity].
    apply Qlt_le_trans with 1; [reflexivity|apply Q.le_max_r].
Qed.

Section WithConstants.

Variables CANVAS_WIDTH CANVAS_HEIGHT MIN_TEXT_RATIO : Q.
Variable readImageMetadata : File -> option Metadata.

Hypothesis CANVAS_WIDTH_pos : 0 < CANVAS_WIDTH.
Hypothesis MIN_TEXT_RATIO_lt_1 : MIN_TEXT_RATIO < 1.

Lemma MAX_PHOTO_WIDTH_pos : 0 < MAX_PHOTO_WIDTH CANVAS_WIDTH MIN_TEXT_RATIO.
Proof.
  unfold MAX_PHOTO_WIDTH, MIN_TEXT_WIDTH.
  assert (H : 0 < CANVAS_WIDTH * (1 - MIN_TEXT_RATIO)).
  { apply Qmult_lt_0_compat; lra. }
  lra.
Qed.

(** With a positive reported width the guard of the layout effect keeps
    it. *)
Lemma safeUsedWidth_eq (usedWidth : Q) :
  0 < usedWidth ->
  (if LayoutSolver.Qltb 0 usedWidth then usedWidth
   else DEFAULT_PHOTO_WIDTH CANVAS_WIDTH)
  = usedWidth.
Proof.
  intros Hpos. unfold LayoutSolver.Qltb.
  destruct (Qle_bool usedWidth 0) eqn:E; [|reflexivity].
  apply Qle_bool_iff in E. lra.
Qed.

(** C6.  For every non-empty frame set, whatever the layouts of its
    frames, [handleResetLayout] gives each frame the normalized rect, and
    the page the photo area width, that the layout effect publishes for
    images whose decoded aspect ratios are the frames' aspect ratios; both
    leave [hasCustomLayout] false. *)
Theorem handleResetLayout_fresh (s s0 : State) (images : list File)
  (metadata : list Metadata) :
  frames s <> [] ->
  allResolved (map readImageMetadata images) = Some metadata ->
  map aspect metadata = map aspectRatio (frames s) ->
  let reset := handleResetLayout CANVAS_WIDTH CANVAS_HEIGHT MIN_TEXT_RATIO s in
  let fresh :=
    layoutEffect CANVAS_WIDTH CANVAS_HEIGHT MIN_TEXT_RATIO readImageMetadata
      images s0 in
  map layout (frames reset) = map layout (frames fresh) /\
  photoAreaWidth reset = photoAreaWidth fresh /\
  hasCustomLayout reset = false /\ hasCustomLayout fresh = false.
Proof.
  intros Hne Hall Hasp reset fresh.
  pose proof (allResolved_length _ _ Hall) as Hlen. rewrite length_map in Hlen.
  assert (Hn : length metadata = length (frames s)).
  { rewrite <- (length_map aspect), Hasp. apply length_map. }
  assert (Himg : images <> []).
  { intros ->. simpl in Hlen. rewrite Hn in Hlen.
    destruct (frames s); [congruence|discriminate]. }
  unfold reset, fresh, handleResetLayout, layoutEffect.
  destruct images as [|img imgs]; [congruence|].
  rewrite Hall.
  destruct (frames s) as [|frame rest] eqn:Ef; [congruence|].
  unfold solveFrames. rewrite Hasp. cbv zeta.
  rewrite safeUsedWidth_eq by (apply usedWidth_pos, MAX_PHOTO_WIDTH_pos).
  cbn [frames photoAreaWidth hasCustomLayout].
  repeat split.
  rewrite !map_map.
  set (solution :=
         LayoutSolver.computeOptimalLayout (map aspectRatio (frame :: rest))
           (MAX_PHOTO_WIDTH CANVAS_WIDTH MIN_TEXT_RATIO) CANVAS_HEIGHT).
  set (effectiveWidth :=
         Qmin (Qmax (LayoutSolver.usedWidth solution)
                 (MAX_PHOTO_WIDTH CANVAS_WIDTH MIN_TEXT_RATIO * (1 # 4)))
           (MAX_PHOTO_WIDTH CANVAS_WIDTH MIN_TEXT_RATIO)).
  set (h := fun index =>
              normalize CANVAS_HEIGHT
                (rectFor CANVAS_HEIGHT (LayoutSolver.rects solution) index
                   effectiveWidth)
                effectiveWidth).
  transitivity (map h (seq 0 (length (frame :: rest)))).
  - rewrite <- entries_map. apply map_ext. intros [f i]. reflexivity.
  - rewrite <- Hn.
    replace (length metadata) with (length (combine (img :: imgs) metadata))
      by (rewrite length_combine; lia).
    rewrite <- entries_map. apply map_ext. intros [[f m] i]. reflexivity.
Qed.

End WithConstants.

Definition sampleDecode (file : File) : option Metadata :=
  Some (mkMetadata ("blob:" ++ name file) 1200 800 (3 # 2)).

Definition sampleFiles : list File :=
  [mkFile "a.jpg" 1000 1; mkFile "b.jpg" 2000 2].

(** Two frames after manual edits. *)
Definition editedFrames : list PhotoFrame :=
  [mkPhotoFrame "a.jpg-1000-1-0" "blob:a.jpg" (3 # 2) 1200 800
     (mkNormalizedRect (1 # 10) (2 # 10) (3 # 10) (3 # 10));
   mkPhotoFrame "b.jpg-2000-2-1" "blob:b.jpg" (3 # 2) 1200 800
     (mkNormalizedRect (1 # 2) (1 # 2) (1 # 2) (1 # 4))].

Lemma handleResetLayout_fresh_witness :
  let reset :=
    handleResetLayout 1600 1000 (1 # 3) (mkState editedFrames 700 true) in
  let fresh :=
    layoutEffect 1600 1000 (1 # 3) sampleDecode sampleFiles (mkState [] 800 false) in
  map layout (frames reset) = map layout (frames fresh) /\
  photoAreaWidth reset = photoAreaWidth fresh /\
  hasCustomLayout reset = false /\ hasCustomLayout fresh = false.
Proof.
  apply (handleResetLayout_fresh 1600 1000 (1 # 3) sampleDecode
           ltac:(reflexivity) ltac:(reflexivity)
           (mkState editedFrames 700 true) (mkState [] 800 false) sampleFiles
           [mkMetadata "blob:a.jpg" 1200 800 (3 # 2);
            mkMetadata "blob:b.jpg" 1200 800 (3 # 2)]).
  - discriminate.
  - reflexivity.
  - reflexivity.
Defined.

End IndexFacts.

(** ** Manipulation controller *)

Module ListingPreviewFacts.
Import Types ListingPreview.

Local Open Scope string_scope.

(** *** Rounding and clamping *)

Lemma toFixed6_Qeq (a b : Q) : a == b -> toFixed6 a == toFixed6 b.
Proof.
  intros Hab. unfold toFixed6, LayoutSolver.Qltb.
  assert (Hb : Qle_bool 0 a = Qle_bool 0 b).
  { destruct (Qle_bool 0 a) eqn:Ea, (Qle_bool 0 b) eqn:Eb; try reflexivity.
    - apply Qle_bool_iff in Ea. rewrite Hab in Ea. apply Qle_bool_iff in Ea.
      congruence.
    - apply Qle_bool_iff in Eb. rewrite <- Hab in Eb. apply Qle_bool_iff in Eb.
      congruence. }
  rewrite Hb. destruct (Qle_bool 0 b); cbn [negb].
  - assert (Hf : Qfloor (a * 1000000 + (1 # 2)) = Qfloor (b * 1000000 + (1 # 2)))
      by (apply Qfloor_comp; now rewrite Hab).
    now rewrite Hf.
  - assert (Hf : Qfloor (- a * 1000000 + (1 # 2)) = Qfloor (- b * 1000000 + (1 # 2)))
      by (apply Qfloor_comp; now rewrite Hab).
    now rewrite Hf.
Qed.

(** Rounding moves a value by at most half of 10^-6. *)
Lemma toFixed6_close (v : Q) :
  v - (1 # 2000000) <= toFixed6 v /\ toFixed6 v <= v + (1 # 2000000).
Proof.
  unfold toFixed6, LayoutSolver.Qltb.
  destruct (Qle_bool 0 v); cbn [negb].
  - pose proof (Qfloor_le (v * 1000000 + (1 # 2))) as Hlo.
    pose proof (Qlt_floor (v * 1000000 + (1 # 2))) as Hhi.
    rewrite inject_Z_plus in Hhi.
    rewrite (Qmake_Qdiv (Qfloor (v * 1000000 + (1 # 2))) 1000000).
    set (n := inject_Z (Qfloor (v * 1000000 + (1 # 2)))) in *.
    assert (H1 : inject_Z 1 == 1) by reflexivity.
    assert (Hm : inject_Z (Z.pos 1000000) == 1000000) by reflexivity.
    rewrite Hm. split.
    + apply Qle_shift_div_l; [reflexivity|]. lra.
    + apply Qle_shift_div_r; [reflexivity|]. lra.
  - pose proof (Qfloor_le (- v * 1000000 + (1 # 2))) as Hlo.
    pose proof (Qlt_floor (- v * 1000000 + (1 # 2))) as Hhi.
    rewrite inject_Z_plus in Hhi.
    rewrite (Qmake_Qdiv (Qfloor (- v * 1000000 + (1 # 2))) 1000000).
    set (n := inject_Z (Qfloor (- v * 1000000 + (1 # 2)))) in *.
    assert (H1 : inject_Z 1 == 1) by reflexivity.
    assert (Hm : inject_Z (Z.pos 1000000) == 1000000) by reflexivity.
    rewrite Hm.
    assert (G : - v - (1 # 2000000) <= n / 1000000
                /\ n / 1000000 <= - v + (1 # 2000000)).
    { split.
      - apply Qle_shift_div_l; [reflexivity|]. lra.
      - apply Qle_shift_div_r; [reflexivity|]. lra. }
    destruct G as [G1 G2]. split; lra.
Qed.

Lemma toFixed6_nonneg (v : Q) : 0 <= v -> 0 <= toFixed6 v.
Proof.
  intros Hv. unfold toFixed6, LayoutSolver.Qltb.
  assert (E : Qle_bool 0 v = true) by now apply Qle_bool_iff.
  rewrite E. cbn [negb].
  assert (Hf : (0 <= Qfloor (v * 1000000 + (1 # 2)))%Z).
  { change 0%Z with (Qfloor 0). apply Qfloor_resp_le. lra. }
  unfold Qle. cbn [Qnum Qden]. lia.
Qed.

(** A clamped position keeps a frame no larger than the container inside
    it. *)
Lemma clampPosition_within (value size : Q) :
  size <= 1 ->
  0 <= clampPosition value size /\ clampPosition value size + size <= 1.
Proof.
  intros Hs. unfold clampPosition.
  assert (Hmax : Qmax 0 (1 - size) == 1 - size) by (apply Q.max_r; lra).
  split.
  - apply Q.min_glb; [lra|apply Q.le_max_l].
  - pose proof (Q.le_min_l (Qmax 0 (1 - size)) (Qmax 0 value)) as H.
    lra.
Qed.

Lemma clampPosition_fixed (value size : Q) :
  0 <= value -> value <= 1 - size -> clampPosition value size == value.
Proof.
  intros H0 H1. unfold clampPosition.
  rewrite (Q.max_r 0 value) by assumption.
  rewrite (Q.max_r 0 (1 - size)) by lra.
  apply Q.min_r. assumption.
Qed.

(** *** Finding and updating a frame *)

Lemma findFrame_id (frames : list PhotoFrame) (frameId : string) (frame : PhotoFrame) :
  findFrame frames frameId = Some frame -> id frame = frameId.
Proof.
  unfold findFrame. intros H. apply find_some in H. destruct H as [_ H].
  now apply String.eqb_eq.
Qed.

Lemma findFrame_setLayout (frames : list PhotoFrame) (frameId : string)
  (frame : PhotoFrame) (newLayout : NormalizedRect) :
  findFrame frames frameId = Some frame ->
  findFrame (Index.setLayout frameId newLayout frames) frameId
  = Some (withLayout frame newLayout).
Proof.
  unfold findFrame, Index.setLayout.
  induction frames as [|f fs IH]; simpl; intros H.
  - discriminate.
  - destruct (String.eqb (id f) frameId) eqn:E; simpl.
    + rewrite E. now injection H as ->.
    + rewrite E. now apply IH.
Qed.

(** *** Drag *)

Section WithConstants.

Variables CANVAS_WIDTH MIN_TEXT_RATIO : Q.

(** The layout a drag move commits. *)
Lemma dragMove_layout (env : Env) (drag : PointerState) (clientX clientY : Q)
  (s : Controller) (metrics : Metrics) (frame : PhotoFrame) :
  getContainerMetrics CANVAS_WIDTH MIN_TEXT_RATIO env = Some metrics ->
  findFrame (frames s) (gestureId drag) = Some frame ->
  let newX := x (initialRect drag) + (clientX - startX drag) / metricsWidth metrics in
  let newY := y (initialRect drag) + (clientY - startY drag) / metricsHeight metrics in
  findFrame
    (frames (dragMove CANVAS_WIDTH MIN_TEXT_RATIO env drag clientX clientY s))
    (gestureId drag)
  = Some
      (withLayout frame
         (mkNormalizedRect
            (toFixed6
               (clampPosition
                  (snapCoordinate (frames s) newX (width (layout frame)) axisX
                     (id frame))
                  (width (layout frame))))
            (toFixed6
               (clampPosition
                  (snapCoordinate (frames s) newY (height (layout frame)) axisY
                     (id frame))
                  (height (layout frame))))
            (toFixed6 (width (layout frame)))
            (toFixed6 (height (layout frame))))).
Proof.
  intros Hm Hf newX newY. unfold dragMove. rewrite Hm, Hf.
  unfold handleFrameUpdate, updateFrames. cbn [frames x y width height].
  rewrite (findFrame_id _ _ _ Hf).
  now apply findFrame_setLayout.
Qed.

(** X18.  A drag move leaves a frame no larger than the container inside it,
    up to the rounding of the commit. *)
Lemma dragMove_within (env : Env) (drag : PointerState) (clientX clientY : Q)
  (s : Controller) (metrics : Metrics) (frame : PhotoFrame) :
  getContainerMetrics CANVAS_WIDTH MIN_TEXT_RATIO env = Some metrics ->
  findFrame (frames s) (gestureId drag) = Some frame ->
  width (layout frame) <= 1 -> height (layout frame) <= 1 ->
  exists moved,
    findFrame
      (frames (dragMove CANVAS_WIDTH MIN_TEXT_RATIO env drag clientX clientY s))
      (gestureId drag) = Some moved /\
    0 <= x (layout moved) /\ 0 <= y (layout moved) /\
    x (layout moved) + width (layout moved) <= 1 + (1 # 1000000) /\
    y (layout moved) + height (layout moved) <= 1 + (1 # 1000000).
Proof.
  intros Hm Hf Hw Hh. eexists.
  split; [exact (dragMove_layout env drag clientX clientY s metrics frame Hm Hf)|].
  cbn [layout withLayout x y width height].
  match goal with
  | |- 0 <= toFixed6 (clampPosition ?vx ?w) /\ 0 <= toFixed6 (clampPosition ?vy ?h) /\ _ =>
      destruct (clampPosition_within vx w Hw) as [X0 X1];
      destruct (clampPosition_within vy h Hh) as [Y0 Y1];
      destruct (toFixed6_close (clampPosition vx w)) as [_ RX];
      destruct (toFixed6_close (clampPosition vy h)) as [_ RY];
      destruct (toFixed6_close w) as [_ RW];
      destruct (toFixed6_close h) as [_ RH]
  end.
  repeat split; try (now apply toFixed6_nonneg); lra.
Qed.

(** The candidates of [snapCoordinate] written out: 0, [1 - size], then,
    for each other frame in the order of the frames, its edge, its far
    edge, and both minus [size]. *)
Definition candidatesOf (others : list PhotoFrame) (size : Q) (axis : Axis)
  : list Q :=
  0 :: (1 - size) ::
  flat_map
    (fun other =>
       match axis with
       | axisX =>
           [x (layout other);
            x (layout other) + width (layout other);
            x (layout other) - size;
            x (layout other) + width (layout other) - size]
       | axisY =>
           [y (layout other);
            y (layout other) + height (layout other);
            y (layout other) - size;
            y (layout other) + height (layout other) - size]
       end)
    others.

Lemma snapCandidates_order (frames : list PhotoFrame) (size : Q) (axis : Axis)
  (frameId : string) :
  snapCandidates frames size axis frameId
  = candidatesOf
      (filter (fun other => negb (String.eqb (id other) frameId)) frames)
      size axis.
Proof.
  unfold snapCandidates, candidatesOf. do 2 f_equal.
  induction frames as [|frame rest IH]; simpl.
  - reflexivity.
  - destruct (String.eqb (id frame) frameId); simpl.
    + exact IH.
    + rewrite IH. destruct axis; reflexivity.
Qed.

(** C4, as the code has it.  On a drag move the coordinate committed on an
    axis is the dragged coordinate replaced by the first snap candidate
    within the threshold of it, if there is one (the candidates being, in
    this order, 0, [1 - size], and for each other frame in the order of the
    frames its edge, its far edge, and both minus [size]), then clamped
    into [[0, 1 - size]] and rounded to six decimals.  It therefore equals
    that candidate exactly whenever the candidate lies in [[0, 1 - size]]
    and is a multiple of 10^-6. *)
Theorem dragMove_snaps (env : Env) (drag : PointerState) (clientX clientY : Q)
  (s : Controller) (metrics : Metrics) (frame : PhotoFrame) :
  getContainerMetrics CANVAS_WIDTH MIN_TEXT_RATIO env = Some metrics ->
  findFrame (frames s) (gestureId drag) = Some frame ->
  let newX := x (initialRect drag) + (clientX - startX drag) / metricsWidth metrics in
  let newY := y (initialRect drag) + (clientY - startY drag) / metricsHeight metrics in
  let others :=
    filter (fun other => negb (String.eqb (id other) (id frame))) (frames s) in
  let candidatesX := candidatesOf others (width (layout frame)) axisX in
  let candidatesY := candidatesOf others (height (layout frame)) axisY in
  let snappedX :=
    match find (withinThreshold newX) candidatesX with
    | Some candidate => candidate
    | None => newX
    end in
  let snappedY :=
    match find (withinThreshold newY) candidatesY with
    | Some candidate => candidate
    | None => newY
    end in
  exists moved,
    findFrame
      (frames (dragMove CANVAS_WIDTH MIN_TEXT_RATIO env drag clientX clientY s))
      (gestureId drag) = Some moved /\
    x (layout moved)
    = toFixed6 (clampPosition snappedX (width (layout frame))) /\
    y (layout moved)
    = toFixed6 (clampPosition snappedY (height (layout frame))) /\
    (forall candidate,
        find (withinThreshold newX) candidatesX = Some candidate ->
        0 <= candidate -> candidate <= 1 - width (layout frame) ->
        toFixed6 candidate == candidate ->
        x (layout moved) == candidate) /\
    (forall candidate,
        find (withinThreshold newY) candidatesY = Some candidate ->
        0 <= candidate -> candidate <= 1 - height (layout frame) ->
        toFixed6 candidate == candidate ->
        y (layout moved) == candidate).
Proof.
  intros Hm Hf newX newY others candidatesX candidatesY snappedX snappedY.
  eexists.
  split; [exact (dragMove_layout env drag clientX clientY s metrics frame Hm Hf)|].
  cbn [layout withLayout x y]. fold newX newY.
  unfold snapCoordinate. rewrite !snapCandidates_order.
  fold others. fold candidatesX candidatesY. fold snappedX snappedY.
  split; [reflexivity|]. split; [reflexivity|].
  split; intros candidate Hfind H0 H1 Hfix.
  - unfold snappedX. rewrite Hfind.
    rewrite (toFixed6_Qeq _ _ (clampPosition_fixed candidate _ H0 H1)).
    exact Hfix.
  - unfold snappedY. rewrite Hfind.
    rewrite (toFixed6_Qeq _ _ (clampPosition_fixed candidate _ H0 H1)).
    exact Hfix.
Qed.

(** *** Pinch and resize *)







End WithConstants.

(** *** Concrete gestures *)

(** A 2000 x 1000 preview whose photo area is its left half. *)
Definition sampleEnv : Env := mkEnv 2000 1000 800.

Definition sampleMetrics : Metrics :=
  mkMetrics (1600000 # 1600) 1000 (1600000 # 1600000).

Definition frameA : PhotoFrame :=
  mkPhotoFrame "a" "blob:a" 1 800 800
    (mkNormalizedRect (2 # 10) 0 (3 # 10) (3 # 10)).

Definition frameB : PhotoFrame :=
  mkPhotoFrame "b" "blob:b" 1 800 800
    (mkNormalizedRect (3 # 100) (1 # 2) (3 # 10) (3 # 10)).

(** Frame [a] being dragged by pointer 1 from the client position (0, 0). *)
Definition dragOfA : PointerState := mkPointerState "a" 1 0 0 (layout frameA).

Definition draggingA : Controller :=
  mkController [frameB; frameA] None (Some dragOfA) None (Some "a") false.

Lemma dragMove_snaps_witness :
  let newX := x (initialRect dragOfA)
              + (-185 - startX dragOfA) / metricsWidth sampleMetrics in
  let newY := y (initialRect dragOfA)
              + (0 - startY dragOfA) / metricsHeight sampleMetrics in
  let others :=
    filter (fun other => negb (String.eqb (id other) (id frameA)))
      (frames draggingA) in
  let candidatesX := candidatesOf others (width (layout frameA)) axisX in
  let candidatesY := candidatesOf others (height (layout frameA)) axisY in
  let snappedX :=
    match find (withinThreshold newX) candidatesX with
    | Some candidate => candidate
    | None => newX
    end in
  let snappedY :=
    match find (withinThreshold newY) candidatesY with
    | Some candidate => candidate
    | None => newY
    end in
  exists moved,
    findFrame (frames (dragMove 1600 (1 # 3) sampleEnv dragOfA (-185) 0 draggingA))
      (gestureId dragOfA) = Some moved /\
    x (layout moved)
    = toFixed6 (clampPosition snappedX (width (layout frameA))) /\
    y (layout moved)
    = toFixed6 (clampPosition snappedY (height (layout frameA))) /\
    (forall candidate,
        find (withinThreshold newX) candidatesX = Some candidate ->
        0 <= candidate -> candidate <= 1 - width (layout frameA) ->
        toFixed6 candidate == candidate ->
        x (layout moved) == candidate) /\
    (forall candidate,
        find (withinThreshold newY) candidatesY = Some candidate ->
        0 <= candidate -> candidate <= 1 - height (layout frameA) ->
        toFixed6 candidate == candidate ->
        y (layout moved) == candidate).
Proof.
  apply (dragMove_snaps 1600 (1 # 3) sampleEnv dragOfA (-185) 0 draggingA
           sampleMetrics frameA).
  - reflexivity.
  - reflexivity.
Defined.

(** C4 as stated fails: dragging frame [a] to x = 0.015 brings it within
    the threshold 0.02 of the left edge 0.03 of frame [b], a snap
    candidate; the committed x is 0, the earlier candidate, not 0.03. *)
Lemma dragMove_snaps_first_candidate :
  let newX := x (initialRect dragOfA)
              + (-185 - startX dragOfA) / metricsWidth sampleMetrics in
  newX == 15 # 1000 /\
  In (x (layout frameB))
    (snapCandidates (frames draggingA) (width (layout frameA)) axisX (id frameA)) /\
  withinThreshold newX (x (layout frameB)) = true /\
  exists moved,
    findFrame (frames (dragMove 1600 (1 # 3) sampleEnv dragOfA (-185) 0 draggingA))
      "a" = Some moved /\
    x (layout moved) == 0 /\
    ~ x (layout moved) == x (layout frameB).
Proof.
  cbv zeta. split; [reflexivity|]. split; [simpl; tauto|].
  split; [reflexivity|].
  eexists. split; [vm_compute; reflexivity|].
  split; [reflexivity|].
  intros H. vm_compute in H. discriminate.
Qed.

(** A frame whose left edge is at 1/3, as the solver may place it. *)
Definition frameThird : PhotoFrame :=
  mkPhotoFrame "t" "blob:t" 1 800 800
    (mkNormalizedRect (1 # 3) (1 # 2) (3 # 10) (3 # 10)).

(** The rounding of the commit also leaves a residual: frame [a] dragged
    to x = 0.34 snaps to the edge 1/3 of the other frame and is committed
    at 0.333333. *)
Lemma dragMove_snaps_rounded :
  snapCoordinate [frameThird; frameA] (34 # 100) (width (layout frameA)) axisX "a"
  == 1 # 3 /\
  exists moved,
    findFrame
      (frames
         (dragMove 1600 (1 # 3) sampleEnv dragOfA 140 0
            (mkController [frameThird; frameA] None (Some dragOfA) None
               (Some "a") false)))
      "a" = Some moved /\
    x (layout moved) == 333333 # 1000000 /\
    ~ x (layout moved) == x (layout frameThird).
Proof.
  split; [reflexivity|].
  eexists. split; [vm_compute; reflexivity|].
  split; [reflexivity|].
  intros H. vm_compute in H. discriminate.
Qed.

(** *** A resize resumed after a pinch *)

Definition frameC : PhotoFrame :=
  mkPhotoFrame "c" "blob:c" 1 800 800
    (mkNormalizedRect (1 # 4) (1 # 4) (1 # 2) (1 # 2)).

(** One finger (pointer 1) presses the resize handle of frame [c]; a second
    finger (pointer 2) touches the frame and the two pinch it to half its
    size about its centre; the second finger lifts; the first finger moves
    600 pixels to the right. *)
Definition resizeAcrossPinch : list Event :=
  [ResizePointerDown "c" 1 0 0; TouchStart "c" 1 0;
   PointerDown "c" 0 2 500 500; TouchStart "c" 2 200;
   TouchMove 2 100;
   TouchEnd; PointerUp 2;
   PointerMove 1 600 0].

(** The same resize with no pinch in between. *)
Definition resizeAlone : list Event :=
  [ResizePointerDown "c" 1 0 0; TouchStart "c" 1 0; PointerMove 1 600 0].

(** C2 fails on the code.  The frame starts inside the container
    ([x + width = 3/4]); after the events of [resizeAcrossPinch] its layout
    has [x = 3/8] and [width = 3/4], so [x + width = 9/8], and likewise
    [y + height = 9/8]: the resize bounds the width by the room to the right
    of the position recorded when the resize began, and commits it at the
    position the pinch has since moved the frame to.  The same resize
    without the pinch ends at [x + width = 1]. *)
Theorem resize_after_pinch_overflows :
  (0 <= x (layout frameC) /\ 0 <= y (layout frameC) /\
   width (layout frameC) <= 1 /\ height (layout frameC) <= 1 /\
   x (layout frameC) + width (layout frameC) <= 1 /\
   y (layout frameC) + height (layout frameC) <= 1) /\
  (exists resized,
      frames (run 1600 (1 # 3) sampleEnv resizeAcrossPinch (mounted [frameC]))
      = [resized] /\
      x (layout resized) == 3 # 8 /\ width (layout resized) == 3 # 4 /\
      y (layout resized) == 3 # 8 /\ height (layout resized) == 3 # 4 /\
      x (layout resized) + width (layout resized) == 9 # 8 /\
      y (layout resized) + height (layout resized) == 9 # 8) /\
  (exists resized,
      frames (run 1600 (1 # 3) sampleEnv resizeAlone (mounted [frameC]))
      = [resized] /\
      x (layout resized) + width (layout resized) == 1 /\
      y (layout resized) + height (layout resized) == 1).
Proof.
  split; [|split].
  - vm_compute. repeat split; discriminate.
  - eexists. split; [vm_compute; reflexivity|]. repeat split.
  - eexists. split; [vm_compute; reflexivity|]. repeat split.
Qed.

End ListingPreviewFacts.

(** ** Layout solver: enumeration and geometry *)

Module LayoutSolverGeometry.
Import LayoutSolver LayoutSolverFacts.

(** *** Enumeration *)

(** X1.  [generatePermutations] returns the orderings of its source and
    nothing else. *)
Theorem generatePermutations_exact {A : Type} (source perm : list A) :
  In perm (generatePermutations source) <-> Permutation source perm.
Proof.
  split.
  - apply generatePermutations_sound.
  - apply generatePermutations_complete.
Qed.

Lemma length_flat_map_const {A B : Type} (f : A -> list B) (l : list A) (k : nat) :
  (forall a, In a l -> length (f a) = k) ->
  length (flat_map f l) = (length l * k)%nat.
Proof.
  induction l as [|a l IH]; intros Hk; simpl.
  - reflexivity.
  - rewrite length_app, (Hk a) by now left.
    rewrite IH; [reflexivity|]. intros b Hb. apply Hk. now right.
Qed.

Lemma entries_length {A : Type} (source : list A) :
  length (entries source) = length source.
Proof.
  unfold entries. rewrite length_combine, length_seq. apply Nat.min_id.
Qed.

Lemma generatePermutationsF_length {A : Type} (fuel : nat) :
  forall source : list A,
    (length source <= fuel)%nat ->
    length (generatePermutationsF fuel source) = fact (length source).
Proof.
  induction fuel as [|fuel IH]; intros source Hlen.
  - destruct source; [reflexivity|simpl in Hlen; lia].
  - cbn [generatePermutationsF].
    destruct (length source <=? 1)%nat eqn:E.
    + apply Nat.leb_le in E.
      destruct source as [|a [|b rest]]; try reflexivity. simpl in E. lia.
    + apply Nat.leb_gt in E.
      rewrite (length_flat_map_const _ _ (fact (length source - 1))).
      * rewrite entries_length.
        destruct (length source) as [|n]; [lia|].
        simpl. rewrite Nat.sub_0_r. reflexivity.
      * intros [item idx] Hin. rewrite length_map.
        apply entries_In, removeAt_length in Hin.
        rewrite IH by lia. f_equal. lia.
Qed.

(** [generatePermutations] returns [n!] orderings of a source of [n]
    items. *)
Theorem generatePermutations_count {A : Type} (source : list A) :
  length (generatePermutations source) = fact (length source).
Proof. apply generatePermutationsF_length. lia. Qed.

(** X2.  [buildTrees] returns no tree for no index, at least one tree
    otherwise, and the leaves of every tree it returns are the indices, in
    their order. *)
Theorem buildTrees_leaves (indices : list nat) (ratios : list Q) :
  (buildTrees indices ratios = [] <-> indices = []) /\
  forall tree, In tree (buildTrees indices ratios) -> leaves tree = indices.
Proof.
  split; [split|].
  - intros Hnil. destruct indices as [|i rest]; [reflexivity|].
    exfalso. revert Hnil. apply buildTreesF_nonempty. simpl. lia.
  - intros ->. reflexivity.
  - intros tree. apply buildTreesF_leaves.
Qed.

(** *** Rects inside their container *)

Definition inside (container : ContainerRect) (rect : LayoutRect) : Prop :=
  cx container <= x rect /\ cy container <= y rect /\
  x rect + width rect <= cx container + cwidth container /\
  y rect + height rect <= cy container + cheight container /\
  0 <= width rect /\ 0 <= height rect.

(** Two rects that share no interior point: one lies to the left of, to
    the right of, above or below the other. *)
Definition disjoint (a b : LayoutRect) : Prop :=
  x a + width a <= x b \/ x b + width b <= x a \/
  y a + height a <= y b \/ y b + height b <= y a.

Definition contains (outer inner : ContainerRect) : Prop :=
  cx outer <= cx inner /\ cy outer <= cy inner /\
  cx inner + cwidth inner <= cx outer + cwidth outer /\
  cy inner + cheight inner <= cy outer + cheight outer.

Lemma inside_contains (outer inner : ContainerRect) (l : list LayoutRect) :
  contains outer inner -> Forall (inside inner) l -> Forall (inside outer) l.
Proof.
  intros (H1 & H2 & H3 & H4). apply Forall_impl.
  intros r (R1 & R2 & R3 & R4 & R5 & R6). unfold inside. repeat split; lra.
Qed.

(** The two child containers of a split of a built tree, with what the
    proofs below need of them. *)
Lemma split_children (o : Orientation) (l r : LayoutNode) (q : Q)
  (container : ContainerRect) :
  built (SplitNode o l r q) ->
  0 <= cwidth container -> 0 <= cheight container ->
  exists first second,
    layoutTree (SplitNode o l r q) container
    = layoutTree l first ++ layoutTree r second /\
    contains container first /\ contains container second /\
    0 <= cwidth first /\ 0 <= cheight first /\
    0 <= cwidth second /\ 0 <= cheight second /\
    cwidth first == ratio l * cheight first /\
    cwidth second == ratio r * cheight second /\
    (cx first + cwidth first <= cx second \/
     cy first + cheight first <= cy second).
Proof.
  intros Hb Hw Hh.
  pose proof (built_ratio_pos _ Hb) as Hq. simpl in Hq.
  destruct Hb as (Hl & Hr & Eq).
  pose proof (built_ratio_pos l Hl) as Hrl.
  pose proof (built_ratio_pos r Hr) as Hrr.
  destruct o; simpl.
  - rewrite Qleb_false_pos by lra.
    set (total := ratio l + ratio r) in *.
    set (maxHeight := Qmin (cheight container) (cwidth container / total)).
    assert (Hm0 : 0 <= maxHeight).
    { unfold maxHeight. apply Q.min_glb; [assumption|].
      apply Qdiv_nonneg; [assumption|unfold total; lra]. }
    assert (Hm1 : maxHeight <= cheight container) by apply Q.le_min_l.
    assert (Hm2 : total * maxHeight <= cwidth container).
    { rewrite <- (Qmult_div_cancel (cwidth container) total) by (unfold total; lra).
      apply Qmult_le_l; [unfold total; lra|]. apply Q.le_min_r. }
    assert (G1 : 0 <= maxHeight * ratio l) by (apply Qmult_le_0_compat; lra).
    assert (G2 : 0 <= maxHeight * ratio r) by (apply Qmult_le_0_compat; lra).
    assert (G3 : total * maxHeight == maxHeight * ratio l + maxHeight * ratio r)
      by (unfold total; ring).
    eexists. eexists. split; [reflexivity|].
    unfold contains. cbn [cx cy cwidth cheight].
    assert (E1 : (cwidth container - total * maxHeight) / 2
                 == (cwidth container - total * maxHeight) * (1 # 2))
      by (unfold Qdiv; reflexivity).
    assert (E2 : (cheight container - maxHeight) / 2
                 == (cheight container - maxHeight) * (1 # 2))
      by (unfold Qdiv; reflexivity).
    repeat split; try assumption; try lra; left; lra.
  - rewrite Qleb_false_pos by assumption.
    set (u := / ratio l). set (v := / ratio r).
    assert (Hu : 0 < u) by now apply Qinv_lt_0_compat.
    assert (Hv : 0 < v) by now apply Qinv_lt_0_compat.
    assert (Equv : q * (u + v) == 1).
    { rewrite Eq. unfold u, v. field. repeat split; lra. }
    set (availableWidth := Qmin (cwidth container) (cheight container * q)).
    assert (Ha0 : 0 <= availableWidth).
    { unfold availableWidth. apply Q.min_glb; [assumption|].
      apply Qmult_le_0_compat; lra. }
    assert (Ha1 : availableWidth <= cwidth container) by apply Q.le_min_l.
    assert (Ha2 : availableWidth <= cheight container * q) by apply Q.le_min_r.
    assert (G1 : 0 <= availableWidth / ratio l) by now apply Qdiv_nonneg.
    assert (G2 : 0 <= availableWidth / ratio r) by now apply Qdiv_nonneg.
    assert (G3 : availableWidth * (u + v) <= cheight container).
    { apply Qle_trans with (cheight container * q * (u + v)).
      - apply Qmult_le_compat_r; lra.
      - rewrite <- Qmult_assoc, Equv. lra. }
    assert (G4 : availableWidth / q == availableWidth * (u + v)).
    { rewrite Eq. unfold u, v. field. repeat split; lra. }
    assert (G5 : availableWidth / ratio l == availableWidth * u)
      by (unfold Qdiv; reflexivity).
    assert (G6 : availableWidth / ratio r == availableWidth * v)
      by (unfold Qdiv; reflexivity).
    assert (G7 : availableWidth * (u + v) == availableWidth * u + availableWidth * v)
      by ring.
    eexists. eexists. split; [reflexivity|].
    unfold contains. cbn [cx cy cwidth cheight].
    assert (E1 : (cwidth container - availableWidth) / 2
                 == (cwidth container - availableWidth) * (1 # 2))
      by (unfold Qdiv; reflexivity).
    assert (E2 : (cheight container - availableWidth / q) / 2
                 == (cheight container - availableWidth / q) * (1 # 2))
      by (unfold Qdiv; reflexivity).
    repeat split; try assumption; try lra; try (field; lra); right; lra.
Qed.

(** In exact arithmetic.  For a container whose width and height are not
    negative, every rect of the layout of a built tree lies inside the
    container, with a width and a height that are not negative. *)
Lemma layoutTree_within (node : LayoutNode) :
  built node ->
  forall container,
    0 <= cwidth container -> 0 <= cheight container ->
    Forall (inside container) (layoutTree node container).
Proof.
  induction node as [i r | o l IHl r IHr q]; intros Hb container Hw Hh.
  - simpl. constructor; [|constructor].
    unfold inside. simpl. repeat split; lra.
  - destruct (split_children o l r q container Hb Hw Hh)
      as (c1 & c2 & -> & Hc1 & Hc2 & W1 & H1 & W2 & H2 & _).
    destruct Hb as (Hl & Hr & _).
    apply Forall_app. split.
    + apply (inside_contains container c1); [assumption|]. now apply IHl.
    + apply (inside_contains container c2); [assumption|]. now apply IHr.
Qed.

Lemma ForallOrdPairs_app {A : Type} (R : A -> A -> Prop) (l1 l2 : list A) :
  ForallOrdPairs R l1 -> ForallOrdPairs R l2 ->
  (forall a b, In a l1 -> In b l2 -> R a b) ->
  ForallOrdPairs R (l1 ++ l2).
Proof.
  intros H1 H2 Hx. induction H1 as [|a l Ha Hl IH]; simpl.
  - assumption.
  - constructor.
    + apply Forall_app. split; [assumption|].
      apply Forall_forall. intros b Hb. apply Hx; [now left|assumption].
    + apply IH. intros a' b Ha' Hb. apply Hx; [now right|assumption].
Qed.

(** In exact arithmetic.  For a container whose width and height are not
    negative, no two rects of the layout of a built tree overlap. *)
Lemma layoutTree_apart (node : LayoutNode) :
  built node ->
  forall container,
    0 <= cwidth container -> 0 <= cheight container ->
    ForallOrdPairs disjoint (layoutTree node container).
Proof.
  induction node as [i r | o l IHl r IHr q]; intros Hb container Hw Hh.
  - simpl. constructor; constructor.
  - destruct (split_children o l r q container Hb Hw Hh)
      as (c1 & c2 & -> & Hc1 & Hc2 & W1 & H1 & W2 & H2 & _ & _ & Hsep).
    destruct Hb as (Hl & Hr & _).
    apply ForallOrdPairs_app; [now apply IHl|now apply IHr|].
    intros a b Ha Hb.
    pose proof (layoutTree_within l Hl c1 W1 H1) as I1.
    pose proof (layoutTree_within r Hr c2 W2 H2) as I2.
    rewrite Forall_forall in I1, I2.
    destruct (I1 a Ha) as (A1 & A2 & A3 & A4 & _).
    destruct (I2 b Hb) as (B1 & B2 & B3 & B4 & _).
    unfold disjoint. destruct Hsep as [Hsep | Hsep]; [left|right; right; left]; lra.
Qed.

(** *** Aspect ratios of the rects *)

Lemma layoutTree_exact (node : LayoutNode) :
  built node ->
  forall container,
    0 <= cwidth container -> 0 <= cheight container ->
    cwidth container == ratio node * cheight container ->
    forall rect, In rect (layoutTree node container) ->
      exists r, In (LeafNode (index rect) r) (nodes node) /\
                width rect == r * height rect.
Proof.
  induction node as [i r | o l IHl r IHr q]; intros Hb container Hw Hh Hex rect Hin.
  - simpl in Hin. destruct Hin as [<- | []]. exists r. simpl. split; [now left|].
    exact Hex.
  - destruct (split_children o l r q container Hb Hw Hh)
      as (c1 & c2 & E & _ & _ & W1 & H1 & W2 & H2 & X1 & X2 & _).
    rewrite E in Hin. destruct Hb as (Hl & Hr & _).
    apply in_app_or in Hin. destruct Hin as [Hin | Hin].
    + destruct (IHl Hl c1 W1 H1 X1 rect Hin) as (r' & Hn & Hr').
      exists r'. split; [|assumption]. simpl. right. apply in_or_app. now left.
    + destruct (IHr Hr c2 W2 H2 X2 rect Hin) as (r' & Hn & Hr').
      exists r'. split; [|assumption]. simpl. right. apply in_or_app. now right.
Qed.

Lemma layoutTree_split_exact (o : Orientation) (l r : LayoutNode) (q : Q)
  (container : ContainerRect) :
  built (SplitNode o l r q) ->
  0 <= cwidth container -> 0 <= cheight container ->
  forall rect, In rect (layoutTree (SplitNode o l r q) container) ->
    exists r', In (LeafNode (index rect) r') (nodes (SplitNode o l r q)) /\
               width rect == r' * height rect.
Proof.
  intros Hb Hw Hh rect Hin.
  destruct (split_children o l r q container Hb Hw Hh)
    as (c1 & c2 & E & _ & _ & W1 & H1 & W2 & H2 & X1 & X2 & _).
  rewrite E in Hin. destruct Hb as (Hl & Hr & _).
  apply in_app_or in Hin. destruct Hin as [Hin | Hin].
  - destruct (layoutTree_exact l Hl c1 W1 H1 X1 rect Hin) as (r' & Hn & Hr').
    exists r'. split; [|assumption]. simpl. right. apply in_or_app. now left.
  - destruct (layoutTree_exact r Hr c2 W2 H2 X2 rect Hin) as (r' & Hn & Hr').
    exists r'. split; [|assumption]. simpl. right. apply in_or_app. now right.
Qed.

(** *** The solution for two inputs or more *)

(** What the solution is made of: the layout of a candidate tree, each
    rect shifted left by the same amount. *)
Lemma solution_rects (a b : Q) (rest : list Q) (W H : Q) :
  exists tree shift,
    In tree (candidates (a :: b :: rest)) /\
    (forall rect,
        In rect (rects (computeOptimalLayout (a :: b :: rest) W H)) ->
        exists source,
          In source (layoutTree tree (mkContainerRect 0 0 W H)) /\
          rect = shiftBy shift source).
Proof.
  destruct (computeOptimalLayout_winner a b rest W H) as (t & Hin & Hp & _).
  eexists t, _. split; [assumption|].
  intros rect Hr. apply (Permutation_in _ Hp) in Hr.
  apply in_map_iff in Hr. destruct Hr as (source & <- & Hs). now exists source.
Qed.

Lemma candidate_is_split (ratios : list Q) (tree : LayoutNode) :
  (2 <= length ratios)%nat -> In tree (candidates ratios) ->
  exists o l r q, tree = SplitNode o l r q.
Proof.
  intros Hlen Hin. destruct (candidates_spec _ _ Hin) as [_ Hp].
  apply Permutation_length in Hp. rewrite length_seq in Hp.
  destruct tree as [i r | o l r q]; [simpl in Hp; lia|eauto].
Qed.

(** In exact arithmetic.  For two aspect ratios or more, every rect of the
    solution has the aspect ratio of its input floored at 0.1: its width is
    that ratio times its height. *)
Lemma solution_aspect (ratios : list Q) (W H : Q) :
  (2 <= length ratios)%nat -> 0 <= W -> 0 <= H ->
  forall rect, In rect (rects (computeOptimalLayout ratios W H)) ->
    width rect == Qmax (nth (index rect) ratios 0) (1 # 10) * height rect.
Proof.
  intros Hlen HW HH rect Hin.
  destruct ratios as [|a [|b rest]]; try (simpl in Hlen; lia).
  destruct (solution_rects a b rest W H) as (t & shift & Ht & Hsrc).
  destruct (Hsrc rect Hin) as (source & Hs & ->).
  destruct (candidate_is_split _ t Hlen Ht) as (o & l & r & q & ->).
  destruct (candidates_spec _ _ Ht) as [Hb _].
  destruct (layoutTree_split_exact o l r q (mkContainerRect 0 0 W H) Hb HW HH
              source Hs) as (r' & Hn & Hr').
  apply in_flat_map in Ht. destruct Ht as (perm & _ & Ht).
  rewrite (buildTreesF_floored _ _ _ _ _ _ Ht Hn) in Hr'.
  exact Hr'.
Qed.

(** In exact arithmetic.  For two aspect ratios or more, no tree over any
    ordering of the inputs has a layout that covers more area than the
    solution. *)
Lemma solution_optimal (ratios : list Q) (W H : Q)
  (perm : list nat) (tree : LayoutNode) :
  (2 <= length ratios)%nat ->
  In perm (generatePermutations (seq 0 (length ratios))) ->
  In tree (buildTrees perm ratios) ->
  score (layoutTree tree (mkContainerRect 0 0 W H))
  <= score (rects (computeOptimalLayout ratios W H)).
Proof.
  intros Hlen Hperm Htree.
  destruct ratios as [|a [|b rest]]; try (simpl in Hlen; lia).
  destruct (computeOptimalLayout_score a b rest W H) as (t & _ & -> & Hmax).
  apply Hmax. apply in_flat_map. now exists perm.
Qed.

(** In exact arithmetic.  For a container whose width and height are not
    negative, no two rects of a solution overlap. *)
Lemma solution_disjoint (ratios : list Q) (W H : Q) :
  0 <= W -> 0 <= H ->
  forall a b,
    In a (rects (computeOptimalLayout ratios W H)) ->
    In b (rects (computeOptimalLayout ratios W H)) ->
    index a <> index b -> disjoint a b.
Proof.
  intros HW HH a b Ha Hb Hab.
  destruct ratios as [|r1 [|r2 rest]].
  - contradiction.
  - simpl in Ha, Hb. destruct Ha as [<- | []]. destruct Hb as [<- | []].
    now elim Hab.
  - destruct (solution_rects r1 r2 rest W H) as (t & shift & Ht & Hsrc).
    destruct (Hsrc a Ha) as (sa & Hsa & ->).
    destruct (Hsrc b Hb) as (sb & Hsb & ->).
    destruct (candidates_spec _ _ Ht) as [Hbuilt _].
    pose proof (layoutTree_apart t Hbuilt (mkContainerRect 0 0 W H) HW HH) as Hd.
    destruct (ForallOrdPairs_In Hd sa sb Hsa Hsb) as [Heq | [Hd' | Hd']].
    + subst. now elim Hab.
    + unfold disjoint in *. simpl. destruct Hd' as [D | [D | [D | D]]];
        [left|right; left|right; right; left|right; right; right]; lra.
    + unfold disjoint in *. simpl. destruct Hd' as [D | [D | [D | D]]];
        [right; left|left|right; right; right|right; right; left]; lra.
Qed.

(** *** The used width *)

Definition rightEdge (max : Q) (rect : LayoutRect) : Q :=
  Qmax max (x rect + width rect).

Lemma usedWidth_many (a b : Q) (rest : list Q) (W H : Q) :
  let sorted :=
    sortByIndex
      (fst (search (mkContainerRect 0 0 W H) (candidates (a :: b :: rest)))) in
  usedWidth (computeOptimalLayout (a :: b :: rest) W H)
  = Qmin
      (match fold_left minStep sorted None with
       | Some m => Qmax (fold_left rightEdge sorted 0 - m) 1
       | None => 1
       end) W.
Proof.
  unfold computeOptimalLayout, search, candidates. cbv zeta.
  rewrite fold_left_flat_map. reflexivity.
Qed.

Lemma minStep_from (l : list LayoutRect) :
  forall start,
    exists m,
      fold_left minStep l (Some start) = Some m /\ m <= start /\
      (forall rect, In rect l -> m <= x rect) /\
      (m == start \/ exists rect, In rect l /\ m == x rect).
Proof.
  induction l as [|r l IH]; intros start; simpl.
  - exists start. split; [reflexivity|]. split; [lra|].
    split; [intros ? []|left; lra].
  - destruct (IH (Qmin start (x r))) as (m & E & Hle & Hall & Hex).
    exists m. split; [exact E|].
    pose proof (Q.le_min_l start (x r)). pose proof (Q.le_min_r start (x r)).
    split; [lra|]. split.
    + intros rect [<- | Hin]; [lra|now apply Hall].
    + destruct Hex as [Hex | (rect & Hin & Hex)].
      * destruct (Q.min_spec start (x r)) as [[_ Hm] | [_ Hm]].
        -- left. lra.
        -- right. exists r. split; [now left|lra].
      * right. exists rect. split; [now right|assumption].
Qed.

Lemma minStep_None (l : list LayoutRect) :
  l <> [] ->
  exists m,
    fold_left minStep l None = Some m /\
    (forall rect, In rect l -> m <= x rect) /\
    (exists rect, In rect l /\ m == x rect).
Proof.
  destruct l as [|r l]; [congruence|]. intros _. simpl.
  destruct (minStep_from l (x r)) as (m & E & Hle & Hall & Hex).
  exists m. split; [exact E|]. split.
  - intros rect [<- | Hin]; [assumption|now apply Hall].
  - destruct Hex as [Hex | (rect & Hin & Hex)].
    + exists r. split; [now left|assumption].
    + exists rect. split; [now right|assumption].
Qed.

Lemma rightEdge_from (l : list LayoutRect) :
  forall start,
    start <= fold_left rightEdge l start /\
    forall rect, In rect l -> x rect + width rect <= fold_left rightEdge l start.
Proof.
  induction l as [|r l IH]; intros start; simpl.
  - split; [lra|intros ? []].
  - destruct (IH (rightEdge start r)) as [Hle Hall].
    pose proof (Q.le_max_l start (x r + width r)).
    pose proof (Q.le_max_r start (x r + width r)).
    unfold rightEdge in *. split; [lra|].
    intros rect [<- | Hin]; [lra|now apply Hall].
Qed.

(** In exact arithmetic.  For a container of positive width and a height
    that is not negative, the used width of a solution is positive and at
    most the container width, and every rect of a solution lies between 0
    and the used width horizontally and between 0 and the container height
    vertically. *)
Lemma solution_inside (ratios : list Q) (W H : Q) :
  0 < W -> 0 <= H ->
  0 < usedWidth (computeOptimalLayout ratios W H) /\
  usedWidth (computeOptimalLayout ratios W H) <= W /\
  forall rect, In rect (rects (computeOptimalLayout ratios W H)) ->
    0 <= x rect /\ 0 <= y rect /\ 0 <= width rect /\ 0 <= height rect /\
    x rect + width rect <= usedWidth (computeOptimalLayout ratios W H) /\
    y rect + height rect <= H.
Proof.
  intros HW HH.
  split; [now apply IndexFacts.usedWidth_pos|].
  destruct ratios as [|a [|b rest]].
  - simpl. split; [lra|intros ? []].
  - simpl. split; [apply Q.le_min_l|].
    intros rect [<- | []]. simpl.
    assert (Hpos : 0 <= Qmin W (Qmax (H * (if Qeq_bool a 0 then 1 else a))
                                  (W * (1 # 4)))).
    { apply Q.min_glb; [lra|].
      apply Qle_trans with (W * (1 # 4)); [lra|apply Q.le_max_r]. }
    repeat split; lra.
  - rewrite usedWidth_many. cbv zeta. split; [apply Q.le_min_r|].
    intros rect Hin.
    pose proof (search_chosen (mkContainerRect 0 0 W H) (candidates (a :: b :: rest)))
      as Hc.
    destruct Hc as (t & Ht & Hbest & _).
    { apply candidates_nonempty. simpl. lia. }
    rewrite computeOptimalLayout_many in Hin. cbv zeta in Hin.
    rewrite Hbest in *. simpl fst in *.
    set (laid := layoutTree t (mkContainerRect 0 0 W H)) in *.
    destruct (candidates_spec _ _ Ht) as [Hb Hperm].
    assert (Hinside : forall r, In r (sortByIndex laid) ->
                        inside (mkContainerRect 0 0 W H) r).
    { intros r Hr. apply (Permutation_in _ (sortByIndex_Permutation laid)) in Hr.
      pose proof (layoutTree_within t Hb (mkContainerRect 0 0 W H)) as Hall.
      rewrite Forall_forall in Hall. apply Hall; simpl; try lra. exact Hr. }
    assert (Hne : sortByIndex laid <> []).
    { intros Hnil. rewrite Hnil in Hin. exact Hin. }
    destruct (minStep_None _ Hne) as (m & Em & Hmin & (r0 & Hr0 & Hm0)).
    rewrite Em in *.
    destruct (rightEdge_from (sortByIndex laid) 0) as [_ Hright].
    apply in_map_iff in Hin. destruct Hin as (src & <- & Hsrc).
    destruct (Hinside src Hsrc) as (I1 & I2 & I3 & I4 & I5 & I6).
    destruct (Hinside r0 Hr0) as (J1 & _).
    specialize (Hmin src Hsrc). specialize (Hright src Hsrc).
    simpl in I1, I2, I3, I4, J1. simpl.
    repeat split; try lra.
    apply Q.min_glb; [|lra].
    apply Qle_trans with (fold_left rightEdge (sortByIndex laid) 0 - m);
      [lra|apply Q.le_max_l].
Qed.

End LayoutSolverGeometry.

(** ** Layout solver: what survives the rounding of binary64

    The lemmas above are about the rects computed in exact arithmetic.
    The program computes them in binary64, where each operation is rounded
    and a bound can be missed by a relative 2^-53 or so: the statements
    below keep a margin, and the [..._binary64] lemmas evaluate the
    binary64 solver on inputs where the exact bounds fail. *)

Module LayoutSolverRounding.
Import LayoutSolver LayoutSolverFacts LayoutSolverGeometry.

(** The relative margin of the statements about computed sizes: 10^-9, far
    above the rounding of a few dozen binary64 operations and far below a
    pixel of any poster. *)
Definition MARGIN : Q := 1 # 1000000000.

(** The inputs the statements with a margin are about: at most four aspect
    ratios (the upload area takes no more), none above 10^6, in a container
    whose sides are between 1 and 10^6. *)
Definition ordinary (ratios : list Q) (W H : Q) : Prop :=
  (length ratios <= 4)%nat /\
  Forall (fun ratio => ratio <= 1000000) ratios /\
  (1 <= W /\ W <= 1000000) /\ (1 <= H /\ H <= 1000000).

(** Closed instances of [ordinary], by evaluation. *)
Ltac prove_ordinary :=
  unfold ordinary;
  split; [simpl; lia|];
  split;
  [simpl;
   repeat (apply Forall_cons; [apply Qle_bool_iff; reflexivity|]);
   apply Forall_nil|];
  split; split; apply Qle_bool_iff; reflexivity.

Lemma score_nonneg (layout : list LayoutRect) :
  Forall (fun rect => 0 <= width rect /\ 0 <= height rect) layout ->
  0 <= score layout.
Proof.
  induction layout as [|rect rest IH]; intros Hall.
  - unfold score. simpl. lra.
  - rewrite score_cons. inversion Hall as [|? ? [Hw Hh] Hrest]; subst.
    specialize (IH Hrest).
    assert (0 <= width rect * height rect) by now apply Qmult_le_0_compat.
    lra.
Qed.

Lemma solution_score_nonneg (ratios : list Q) (W H : Q) :
  0 < W -> 0 <= H -> 0 <= score (rects (computeOptimalLayout ratios W H)).
Proof.
  intros HW HH. apply score_nonneg. apply Forall_forall. intros rect Hin.
  destruct (solution_inside ratios W H HW HH) as (_ & _ & Hall).
  destruct (Hall rect Hin) as (_ & _ & Hw & Hh & _). now split.
Qed.

(** C1, as the code has it.  For one to four aspect ratios, none above
    10^6, and a container with sides between 1 and 10^6,
    [computeOptimalLayout] returns as many rects as there are inputs, the
    rect at position [i] carrying index [i] (so every input index occurs
    exactly once), and the areas [width * height] of the rects sum to at
    most [W * H] up to rounding: to at most [W * H * (1 + 10^-9)]. *)
Theorem computeOptimalLayout_covers (ratios : list Q) (W H : Q) :
  (1 <= length ratios)%nat -> ordinary ratios W H ->
  length (rects (computeOptimalLayout ratios W H)) = length ratios /\
  map index (rects (computeOptimalLayout ratios W H)) = seq 0 (length ratios) /\
  score (rects (computeOptimalLayout ratios W H)) <= W * H * (1 + MARGIN).
Proof.
  intros Hlen (_ & _ & (HW & _) & (HH & _)).
  destruct (solution_covers ratios W H Hlen) as (Hn & Hi & Hs); try lra.
  split; [exact Hn|]. split; [exact Hi|].
  assert (Hpos : 0 <= W * H) by (apply Qmult_le_0_compat; lra).
  unfold MARGIN. lra.
Qed.

Lemma computeOptimalLayout_covers_witness :
  length (rects (computeOptimalLayout [1; 3 # 2; 1] 1600 1000)) = 3%nat /\
  map index (rects (computeOptimalLayout [1; 3 # 2; 1] 1600 1000))
  = [0; 1; 2]%nat /\
  score (rects (computeOptimalLayout [1; 3 # 2; 1] 1600 1000))
  <= 1600 * 1000 * (1 + MARGIN).
Proof.
  apply (computeOptimalLayout_covers [1; 3 # 2; 1] 1600 1000).
  - simpl. lia.
  - prove_ordinary.
Defined.

(** 10^-9 in binary64. *)
Definition MARGIN64 : float := 0x1.12e0be826d695p-30.

(** C1 as stated fails in the program's arithmetic.  For the ratios 1, 1.5,
    1 in a 1600 x 1000 container the binary64 solver returns three rects,
    one per index, whose areas sum to 1600000.0000000002, above
    [W * H = 1600000]; the sum is within the margin. *)
Lemma computeOptimalLayout_covers_binary64 :
  map LayoutSolver64.index
    (LayoutSolver64.rects
       (LayoutSolver64.computeOptimalLayout [1; 1.5; 1]%float 1600 1000))
  = [0; 1; 2]%nat /\
  PrimFloat.ltb (1600 * 1000)%float
    (LayoutSolver64.score
       (LayoutSolver64.rects
          (LayoutSolver64.computeOptimalLayout [1; 1.5; 1]%float 1600 1000)))
  = true /\
  PrimFloat.leb
    (LayoutSolver64.score
       (LayoutSolver64.rects
          (LayoutSolver64.computeOptimalLayout [1; 1.5; 1]%float 1600 1000)))
    (1600 * 1000 * (1 + MARGIN64))%float
  = true.
Proof. vm_compute. repeat split. Qed.

(** *** The shapes of the rects under a reordering of the inputs *)

(** Two rects of the same width and height. *)
Definition shapeEq (a b : LayoutRect) : Prop :=
  width a == width b /\ height a == height b.

#[local] Instance shapeEq_Equivalence : Equivalence shapeEq.
Proof.
  split.
  - intros a. split; reflexivity.
  - intros a b [Hw Hh]. split; symmetry; assumption.
  - intros a b c [Hw Hh] [Hw' Hh']. split; etransitivity; eassumption.
Qed.

(** The search is decisive when every candidate whose area comes within
    the margin of the best area has the shapes of a best candidate: the
    rounding of the areas cannot then change the shapes that win. *)
Definition decisive (ratios : list Q) (W H : Q) : Prop :=
  forall best tree,
    In best (candidates ratios) -> In tree (candidates ratios) ->
    (forall other, In other (candidates ratios) ->
       score (layoutTree other (mkContainerRect 0 0 W H))
       <= score (layoutTree best (mkContainerRect 0 0 W H))) ->
    score (layoutTree best (mkContainerRect 0 0 W H)) * (1 - MARGIN)
    <= score (layoutTree tree (mkContainerRect 0 0 W H)) ->
    PermutationA shapeEq
      (layoutTree tree (mkContainerRect 0 0 W H))
      (layoutTree best (mkContainerRect 0 0 W H)).

(** Two rects whose widths and heights agree up to the margin. *)
Definition closeShape (W H : Q) (a b : LayoutRect) : Prop :=
  Qabs (width a - width b) <= MARGIN * W /\
  Qabs (height a - height b) <= MARGIN * H.

(** Two layouts with the same multiset of shapes up to the margin: some
    reordering of the second matches the first rect by rect. *)
Definition closeShapes (W H : Q) (layout1 layout2 : list LayoutRect) : Prop :=
  exists reordered,
    Permutation layout2 reordered /\
    Forall2 (closeShape W H) layout1 reordered.

Lemma shapes_PermutationA (l1 l2 : list LayoutRect) :
  map shape l1 = map shape l2 -> PermutationA shapeEq l1 l2.
Proof.
  revert l2. induction l1 as [|a l1 IH]; intros [|b l2] Heq;
    simpl in Heq; try discriminate.
  - constructor.
  - injection Heq as Hw Hh Ht. apply permA_skip.
    + split; [now rewrite Hw|now rewrite Hh].
    + now apply IH.
Qed.

Lemma shiftBy_PermutationA (minX : option Q) (l : list LayoutRect) :
  PermutationA shapeEq (map (shiftBy minX) l) l.
Proof. apply shapes_PermutationA. rewrite map_map. reflexivity. Qed.

(** Every candidate for a permuted input has the shapes of a candidate
    for the input itself. *)
Lemma candidates_Permutation_shapes (ratios ratios' : list Q)
  (tree' : LayoutNode) :
  Permutation ratios ratios' ->
  In tree' (candidates ratios') ->
  exists tree,
    In tree (candidates ratios) /\
    forall container,
      map shape (layoutTree tree container)
      = map shape (layoutTree tree' container).
Proof.
  intros Hp Hin.
  apply Permutation_nth_error in Hp. destruct Hp as (Hlen & f & Hinj & Hf).
  apply in_flat_map in Hin. destruct Hin as (perm' & Hperm' & Ht').
  rewrite <- Hlen in Hperm'.
  set (n := length ratios) in *.
  assert (Hbound : forall i, (i < n)%nat ->
                     (f i < n)%nat /\ nth i ratios' 0 = nth (f i) ratios 0).
  { intros i Hi.
    assert (Hsome : nth_error ratios' i <> None)
      by (apply nth_error_Some; lia).
    destruct (nth_error ratios' i) as [q|] eqn:E; [|congruence].
    rewrite Hf in E. split.
    - apply nth_error_Some. congruence.
    - rewrite (nth_error_nth ratios (f i) 0 E).
      apply nth_error_nth. now rewrite Hf. }
  assert (Hseq : Permutation (seq 0 n) (map f (seq 0 n))).
  { symmetry. apply NoDup_Permutation_bis.
    - apply Finite.Injective_map_NoDup; [assumption|apply seq_NoDup].
    - rewrite length_map. lia.
    - intros j Hj. apply in_map_iff in Hj. destruct Hj as (i & <- & Hi).
      apply in_seq in Hi. apply in_seq.
      destruct (Hbound i) as [Hlt _]; lia. }
  pose proof (generatePermutations_sound _ _ Hperm') as Hsound.
  exists (relabel f tree'). split.
  - apply in_flat_map. exists (map f perm'). split.
    + apply generatePermutations_complete.
      apply Permutation_trans with (map f (seq 0 n)); [exact Hseq|].
      now apply Permutation_map.
    + unfold buildTrees. rewrite length_map.
      apply (buildTreesF_relabel f ratios ratios'); [|exact Ht'].
      intros i Hi. apply Hbound.
      apply (Permutation_in _ (Permutation_sym Hsound)) in Hi.
      apply in_seq in Hi. lia.
  - intros container. apply layoutTree_relabel.
Qed.

Lemma closeShapes_of_PermutationA (W H : Q) (l1 l2 : list LayoutRect) :
  0 <= W -> 0 <= H ->
  PermutationA shapeEq l1 l2 -> closeShapes W H l1 l2.
Proof.
  intros HW HH Hp. symmetry in Hp.
  destruct (PermutationA_decompose _ Hp) as (l & Hperm & Heq).
  exists l. split; [exact Hperm|].
  clear Hp Hperm. induction Heq as [|a b l l' [Hw Hh] Hrest IH].
  - constructor.
  - constructor; [|exact IH].
    assert (Mw : 0 <= MARGIN * W) by (apply Qmult_le_0_compat; [discriminate|lra]).
    assert (Mh : 0 <= MARGIN * H) by (apply Qmult_le_0_compat; [discriminate|lra]).
    split.
    + assert (E : width b - width a == 0) by lra. rewrite E. exact Mw.
    + assert (E : height b - height a == 0) by lra. rewrite E. exact Mh.
Qed.

(** In exact arithmetic a decisive search gives the same shapes for a list
    of aspect ratios and for a reordering of it. *)
Lemma solution_shapes (ratios ratios' : list Q) (W H : Q) :
  Permutation ratios ratios' -> 0 < W -> 0 <= H ->
  decisive ratios W H ->
  PermutationA shapeEq
    (rects (computeOptimalLayout ratios W H))
    (rects (computeOptimalLayout ratios' W H)).
Proof.
  intros Hp HW HH Hdec.
  destruct ratios as [|a [|b rest]].
  - apply Permutation_nil in Hp. subst. reflexivity.
  - apply Permutation_length_1_inv in Hp. subst. reflexivity.
  - destruct ratios' as [|a' [|b' rest']];
      try (apply Permutation_length in Hp; simpl in Hp; lia).
    set (container := mkContainerRect 0 0 W H).
    destruct (computeOptimalLayout_winner a b rest W H)
      as (t & Hin & Hsol & _ & Hmax).
    destruct (computeOptimalLayout_winner a' b' rest' W H)
      as (t' & Hin' & Hsol' & _ & Hmax').
    fold container in Hsol, Hsol', Hmax, Hmax'.
    destruct (candidates_Permutation_shapes _ _ t' Hp Hin') as (u & Hu & Eu).
    destruct (candidates_Permutation _ _ t (Permutation_sym Hp) Hin)
      as (u' & Hu' & Eu').
    assert (Escore : score (layoutTree u container)
                     = score (layoutTree t' container))
      by (apply score_shapes, Eu).
    assert (Hbest : score (layoutTree t container)
                    <= score (layoutTree u container)).
    { rewrite Escore. rewrite <- (Eu' container). now apply Hmax'. }
    assert (Hnonneg : 0 <= score (layoutTree t container)).
    { apply score_nonneg.
      destruct (candidates_spec _ _ Hin) as [Hb _].
      pose proof (layoutTree_within t Hb container) as Hall.
      eapply Forall_impl; [|apply Hall; simpl; lra].
      intros rect (_ & _ & _ & _ & Hw & Hh). now split. }
    assert (Hnear : score (layoutTree t container) * (1 - MARGIN)
                    <= score (layoutTree u container)).
    { unfold MARGIN. nra. }
    pose proof (Hdec t u Hin Hu Hmax Hnear) as Hshapes.
    fold container in Hshapes.
    transitivity (layoutTree t container).
    { etransitivity; [apply (Permutation_PermutationA _ Hsol)|].
      apply shiftBy_PermutationA. }
    transitivity (layoutTree u container); [now symmetry|].
    transitivity (layoutTree t' container).
    { apply shapes_PermutationA, Eu. }
    symmetry.
    etransitivity; [apply (Permutation_PermutationA _ Hsol')|].
    apply shiftBy_PermutationA.
Qed.

(** C5, as the code has it.  For at most four aspect ratios, none above
    10^6, in a container with sides between 1 and 10^6: solving a
    reordering of the list yields as many rects over the same indices,
    with the same total area up to the margin; and when the search is
    decisive (no candidate of other shapes comes within the margin of the
    best area) the two solutions have the same multiset of shapes up to
    the margin.  Without that condition the shapes can differ. *)
Theorem computeOptimalLayout_Permutation (ratios ratios' : list Q) (W H : Q) :
  Permutation ratios ratios' -> ordinary ratios W H ->
  map index (rects (computeOptimalLayout ratios W H))
  = map index (rects (computeOptimalLayout ratios' W H)) /\
  Qabs (score (rects (computeOptimalLayout ratios W H))
        - score (rects (computeOptimalLayout ratios' W H)))
  <= MARGIN * (W * H) /\
  (decisive ratios W H ->
   closeShapes W H (rects (computeOptimalLayout ratios W H))
     (rects (computeOptimalLayout ratios' W H))).
Proof.
  intros Hp (_ & _ & (HW & _) & (HH & _)).
  destruct (solution_Permutation ratios ratios' W H Hp) as [Hi Hs].
  split; [exact Hi|]. split.
  - assert (E : score (rects (computeOptimalLayout ratios W H))
                - score (rects (computeOptimalLayout ratios' W H)) == 0) by lra.
    rewrite E. apply Qmult_le_0_compat; [discriminate|].
    apply Qmult_le_0_compat; lra.
  - intros Hdec. apply closeShapes_of_PermutationA; try lra.
    apply solution_shapes; try assumption; lra.
Qed.

Lemma permA_pair_same (a b a' b' : LayoutRect) :
  shapeEq a a' -> shapeEq b b' -> PermutationA shapeEq [a; b] [a'; b'].
Proof.
  intros Ha Hb. apply permA_skip; [exact Ha|].
  apply permA_skip; [exact Hb|constructor].
Qed.

Lemma permA_pair_swap (a b a' b' : LayoutRect) :
  shapeEq a b' -> shapeEq b a' -> PermutationA shapeEq [a; b] [a'; b'].
Proof.
  intros Ha Hb. apply permA_trans with [b; a].
  - apply permA_swap.
  - now apply permA_pair_same.
Qed.

(** The search for the ratios 1 and 1.78 in a 1000 x 600 container is
    decisive: the two side-by-side candidates, mirror images of each
    other, cover 1000 x 359.7; the two stacked ones far less. *)
Lemma decisive_pair : decisive [1; 178 # 100] 1000 600.
Proof.
  intros best tree Hbest Htree Hmax Hnear.
  assert (Hside : In (buildSplit vertical (buildLeaf 0 1) (buildLeaf 1 (178 # 100)))
                    (candidates [1; 178 # 100]))
    by (vm_compute; tauto).
  specialize (Hmax _ Hside).
  apply Qle_bool_iff in Hmax, Hnear.
  vm_compute in Hbest, Htree.
  destruct Hbest as [<- | [<- | [<- | [<- | []]]]];
    destruct Htree as [<- | [<- | [<- | [<- | []]]]];
    try (vm_compute in Hmax; discriminate Hmax);
    try (vm_compute in Hnear; discriminate Hnear);
    first [ apply permA_pair_same; split; reflexivity
          | apply permA_pair_swap; split; reflexivity ].
Qed.

Lemma computeOptimalLayout_Permutation_witness :
  map index (rects (computeOptimalLayout [1; 178 # 100] 1000 600))
  = map index (rects (computeOptimalLayout [178 # 100; 1] 1000 600)) /\
  Qabs (score (rects (computeOptimalLayout [1; 178 # 100] 1000 600))
        - score (rects (computeOptimalLayout [178 # 100; 1] 1000 600)))
  <= MARGIN * (1000 * 600) /\
  closeShapes 1000 600 (rects (computeOptimalLayout [1; 178 # 100] 1000 600))
    (rects (computeOptimalLayout [178 # 100; 1] 1000 600)).
Proof.
  destruct (computeOptimalLayout_Permutation [1; 178 # 100] [178 # 100; 1]
              1000 600) as (Hi & Hs & Hc).
  - apply perm_swap.
  - prove_ordinary.
  - split; [exact Hi|]. split; [exact Hs|]. apply Hc, decisive_pair.
Defined.

(** *** The geometry of a solution, with the margin *)

(** X5.  For two to four aspect ratios, none above 10^6, in a container
    with sides between 1 and 10^6, every rect of the solution has the
    aspect ratio of its input floored at 0.1, up to the margin: its width
    differs from that ratio times its height by at most 10^-9 of the
    width. *)
Theorem computeOptimalLayout_aspect (ratios : list Q) (W H : Q) :
  (2 <= length ratios)%nat -> ordinary ratios W H ->
  forall rect, In rect (rects (computeOptimalLayout ratios W H)) ->
    Qabs (width rect - Qmax (nth (index rect) ratios 0) (1 # 10) * height rect)
    <= MARGIN * width rect.
Proof.
  intros Hlen (_ & _ & (HW & _) & (HH & _)) rect Hin.
  assert (Hexact : width rect
                   == Qmax (nth (index rect) ratios 0) (1 # 10) * height rect)
    by (apply (solution_aspect ratios W H); try assumption; lra).
  destruct (solution_inside ratios W H) as (_ & _ & Hall); try lra.
  destruct (Hall rect Hin) as (_ & _ & Hw & _).
  assert (E : width rect
              - Qmax (nth (index rect) ratios 0) (1 # 10) * height rect == 0)
    by lra.
  rewrite E. apply Qmult_le_0_compat; [discriminate|assumption].
Qed.

Lemma computeOptimalLayout_aspect_witness :
  Forall
    (fun rect =>
       Qabs (width rect
             - Qmax (nth (index rect) [1; 178 # 100; 0] 0) (1 # 10) * height rect)
       <= MARGIN * width rect)
    (rects (computeOptimalLayout [1; 178 # 100; 0] 1000 600)).
Proof.
  apply Forall_forall.
  apply (computeOptimalLayout_aspect [1; 178 # 100; 0] 1000 600).
  - simpl. lia.
  - prove_ordinary.
Defined.

(** X6.  For two to four aspect ratios, none above 10^6, in a container
    with sides between 1 and 10^6, no tree over any ordering of the inputs
    has a layout that covers more area than the solution, up to the
    margin. *)
Theorem computeOptimalLayout_optimal (ratios : list Q) (W H : Q)
  (perm : list nat) (tree : LayoutNode) :
  (2 <= length ratios)%nat -> ordinary ratios W H ->
  In perm (generatePermutations (seq 0 (length ratios))) ->
  In tree (buildTrees perm ratios) ->
  score (layoutTree tree (mkContainerRect 0 0 W H))
  <= score (rects (computeOptimalLayout ratios W H)) * (1 + MARGIN).
Proof.
  intros Hlen (_ & _ & (HW & _) & (HH & _)) Hperm Htree.
  pose proof (solution_optimal ratios W H perm tree Hlen Hperm Htree) as Hbest.
  assert (Hpos : 0 <= score (rects (computeOptimalLayout ratios W H)))
    by (apply solution_score_nonneg; lra).
  unfold MARGIN. nra.
Qed.

Lemma computeOptimalLayout_optimal_witness :
  score (layoutTree
           (buildSplit vertical (buildLeaf 1 (178 # 100)) (buildLeaf 0 1))
           (mkContainerRect 0 0 1000 600))
  <= score (rects (computeOptimalLayout [1; 178 # 100] 1000 600)) * (1 + MARGIN).
Proof.
  apply (computeOptimalLayout_optimal [1; 178 # 100] 1000 600 [1; 0]%nat).
  - simpl. lia.
  - prove_ordinary.
  - vm_compute. right. left. reflexivity.
  - vm_compute. left. reflexivity.
Defined.

(** Two rects that overlap by no more than the margin: one lies to the
    left of, to the right of, above or below the other, up to 10^-9 of the
    container's side. *)
Definition apart (W H : Q) (a b : LayoutRect) : Prop :=
  x a + width a <= x b + MARGIN * W \/ x b + width b <= x a + MARGIN * W \/
  y a + height a <= y b + MARGIN * H \/ y b + height b <= y a + MARGIN * H.

(** X7.  For at most four aspect ratios, none above 10^6, in a container
    with sides between 1 and 10^6, no two rects of a solution overlap by
    more than the margin. *)
Theorem computeOptimalLayout_disjoint (ratios : list Q) (W H : Q) :
  ordinary ratios W H ->
  forall a b,
    In a (rects (computeOptimalLayout ratios W H)) ->
    In b (rects (computeOptimalLayout ratios W H)) ->
    index a <> index b -> apart W H a b.
Proof.
  intros (_ & _ & (HW & _) & (HH & _)) a b Ha Hb Hne.
  assert (Mw : 0 <= MARGIN * W) by (apply Qmult_le_0_compat; [discriminate|lra]).
  assert (Mh : 0 <= MARGIN * H) by (apply Qmult_le_0_compat; [discriminate|lra]).
  destruct (solution_disjoint ratios W H) with (a := a) (b := b)
    as [D | [D | [D | D]]]; try assumption; try lra; unfold apart.
  - left. lra.
  - right. left. lra.
  - right. right. left. lra.
  - right. right. right. lra.
Qed.

Lemma computeOptimalLayout_disjoint_witness :
  Forall
    (fun a =>
       Forall (fun b => index a <> index b -> apart 1000 600 a b)
         (rects (computeOptimalLayout [1; 178 # 100; 3 # 4] 1000 600)))
    (rects (computeOptimalLayout [1; 178 # 100; 3 # 4] 1000 600)).
Proof.
  apply Forall_forall. intros a Ha. apply Forall_forall. intros b Hb.
  apply (computeOptimalLayout_disjoint [1; 178 # 100; 3 # 4] 1000 600).
  - prove_ordinary.
  - exact Ha.
  - exact Hb.
Defined.

(** X8.  For at most four aspect ratios, none above 10^6, in a container
    with sides between 1 and 10^6, the used width of a solution is positive
    and at most the container width, and every rect of the solution has a
    left edge, a width and a height that are not negative and lies between
    0 and the used width horizontally and between 0 and the container
    height vertically, up to the margin. *)
Theorem computeOptimalLayout_inside (ratios : list Q) (W H : Q) :
  ordinary ratios W H ->
  0 < usedWidth (computeOptimalLayout ratios W H) /\
  usedWidth (computeOptimalLayout ratios W H) <= W /\
  forall rect, In rect (rects (computeOptimalLayout ratios W H)) ->
    0 <= x rect /\ - (MARGIN * H) <= y rect /\
    0 <= width rect /\ 0 <= height rect /\
    x rect + width rect
    <= usedWidth (computeOptimalLayout ratios W H) + MARGIN * W /\
    y rect + height rect <= H + MARGIN * H.
Proof.
  intros (_ & _ & (HW & _) & (HH & _)).
  destruct (solution_inside ratios W H) as (Hpos & Hle & Hall); try lra.
  split; [exact Hpos|]. split; [exact Hle|].
  intros rect Hin.
  destruct (Hall rect Hin) as (Hx & Hy & Hw & Hh & Hxw & Hyh).
  assert (Mw : 0 <= MARGIN * W) by (apply Qmult_le_0_compat; [discriminate|lra]).
  assert (Mh : 0 <= MARGIN * H) by (apply Qmult_le_0_compat; [discriminate|lra]).
  repeat split; try assumption; lra.
Qed.

Lemma computeOptimalLayout_inside_witness :
  0 < usedWidth (computeOptimalLayout [1; 178 # 100; 3 # 4] 1000 600) /\
  usedWidth (computeOptimalLayout [1; 178 # 100; 3 # 4] 1000 600) <= 1000 /\
  forall rect,
    In rect (rects (computeOptimalLayout [1; 178 # 100; 3 # 4] 1000 600)) ->
    0 <= x rect /\ - (MARGIN * 600) <= y rect /\
    0 <= width rect /\ 0 <= height rect /\
    x rect + width rect
    <= usedWidth (computeOptimalLayout [1; 178 # 100; 3 # 4] 1000 600)
       + MARGIN * 1000 /\
    y rect + height rect <= 600 + MARGIN * 600.
Proof.
  apply (computeOptimalLayout_inside [1; 178 # 100; 3 # 4] 1000 600).
  prove_ordinary.
Defined.

(** In the page's photo area, 3200/3 by 1000, the binary64 solver places
    the first of the ratios 1.5 and 16/9 at [y = -5.7e-14], above the
    container, and for the ratios 1.5 and 4/3 reports a used width below
    the right edge of its rects; both within the margin. *)
Lemma computeOptimalLayout_inside_binary64 :
  let area := (3200 / 3)%float in
  let first := LayoutSolver64.computeOptimalLayout [1.5; 16 / 9]%float area 1000 in
  let second := LayoutSolver64.computeOptimalLayout [1.5; 4 / 3]%float area 1000 in
  Forall (fun rect => PrimFloat.ltb (LayoutSolver64.y rect) 0 = true)
    (firstn 1 (LayoutSolver64.rects first)) /\
  Forall
    (fun rect =>
       PrimFloat.leb (- (MARGIN64 * 1000))%float (LayoutSolver64.y rect) = true)
    (LayoutSolver64.rects first) /\
  Forall
    (fun rect =>
       PrimFloat.ltb (LayoutSolver64.usedWidth second)
         (LayoutSolver64.x rect + LayoutSolver64.width rect)%float = true /\
       PrimFloat.leb (LayoutSolver64.x rect + LayoutSolver64.width rect)%float
         (LayoutSolver64.usedWidth second + MARGIN64 * area)%float = true)
    (LayoutSolver64.rects second).
Proof. vm_compute. repeat constructor. Qed.

End LayoutSolverRounding.

(** ** Text fitter: the size search and the greedy wrap *)

Module TextFitSearch.
Import TextFit TextFitFacts.

Local Open Scope Q_scope.

(** The [k]-th size a descending search from [maxFontSize] tries. *)
Definition tried (maxFontSize : Q) (k : nat) : Q :=
  Nat.iter k (fun size => size - 1) maxFontSize.

Lemma tried_eq (maxFontSize : Q) (k : nat) :
  tried maxFontSize k == maxFontSize - inject_Z (Z.of_nat k).
Proof.
  induction k as [|k IH].
  - simpl. assert (H : inject_Z 0 == 0) by reflexivity. lra.
  - change (tried maxFontSize (S k)) with (tried maxFontSize k - 1).
    rewrite IH, Nat2Z.inj_succ. unfold Z.succ. rewrite inject_Z_plus.
    assert (H : inject_Z 1 == 1) by reflexivity. lra.
Qed.

Lemma tried_le (maxFontSize : Q) (j k : nat) :
  (j <= k)%nat -> tried maxFontSize k <= tried maxFontSize j.
Proof.
  intros Hjk. rewrite !tried_eq.
  assert (H : inject_Z (Z.of_nat j) <= inject_Z (Z.of_nat k))
    by (rewrite <- Zle_Qle; lia).
  lra.
Qed.

Lemma candidateSize_tried (options : TextFitOptions) (k : nat) :
  candidateSize options k = tried (maxFontSize options) k.
Proof. reflexivity. Qed.

Lemma floor_fuel_enough (maxFontSize minFontSize : Q) :
  tried maxFontSize (Z.to_nat (Qfloor (maxFontSize - minFontSize) + 1))
  < minFontSize.
Proof.
  rewrite tried_eq.
  set (d := maxFontSize - minFontSize).
  pose proof (Qlt_floor d) as Hfl.
  assert (Hge : inject_Z (Qfloor d + 1)
                <= inject_Z (Z.of_nat (Z.to_nat (Qfloor d + 1)))).
  { rewrite <- Zle_Qle. lia. }
  unfold d in *. lra.
Qed.

Section WithMeasure.

Variable measureText : Font -> string -> Q.

(** *** fitTextBlock *)

Lemma fitLoop_Some_first (fuel : nat) (words : string) (options : TextFitOptions) :
  forall k0 fit,
    fitLoop measureText fuel words options (candidateSize options k0) = Some fit ->
    exists k,
      (k0 <= k)%nat /\
      minFontSize options <= candidateSize options k /\
      fitsAt measureText words options (candidateSize options k) = true /\
      (forall j, (k0 <= j < k)%nat ->
         fitsAt measureText words options (candidateSize options j) = false) /\
      fit = mkTypographyFit (candidateSize options k)
              (candidateSize options k * lineHeightMultiplier options)
              (wrapAt measureText words options (candidateSize options k)).
Proof.
  induction fuel as [|fuel IH]; intros k0 fit Hfit; simpl in Hfit.
  - discriminate.
  - destruct (LayoutSolver.Qleb (minFontSize options) (candidateSize options k0))
      eqn:Eg; [|discriminate].
    apply Qle_bool_iff in Eg.
    destruct (LayoutSolver.Qleb (blockHeightOf _ _) (maxHeight options)) eqn:Ef.
    + injection Hfit as <-. exists k0. repeat split; try assumption; lia.
    + apply (IH (S k0)) in Hfit.
      destruct Hfit as (k & Hk & Hmin & Hfits & Hbefore & ->).
      exists k. repeat split; try assumption; try lia.
      intros j Hj. destruct (Nat.eq_dec j k0) as [-> | Hne].
      * exact Ef.
      * apply Hbefore. lia.
Qed.

Lemma fitLoop_None_all (fuel : nat) (words : string) (options : TextFitOptions) :
  forall k0,
    fitLoop measureText fuel words options (candidateSize options k0) = None ->
    candidateSize options (k0 + fuel) < minFontSize options ->
    forall j, (k0 <= j)%nat ->
      minFontSize options <= candidateSize options j ->
      fitsAt measureText words options (candidateSize options j) = false.
Proof.
  induction fuel as [|fuel IH]; intros k0 Hnone Hlow j Hj Hmin.
  - rewrite Nat.add_0_r in Hlow.
    pose proof (tried_le (maxFontSize options) k0 j Hj) as Hle.
    rewrite <- !candidateSize_tried in Hle. lra.
  - simpl in Hnone.
    destruct (LayoutSolver.Qleb (minFontSize options) (candidateSize options k0))
      eqn:Eg.
    + destruct (LayoutSolver.Qleb (blockHeightOf _ _) (maxHeight options)) eqn:Ef;
        [discriminate|].
      destruct (Nat.eq_dec j k0) as [-> | Hne]; [exact Ef|].
      apply (IH (S k0)); try assumption; try lia.
      now replace (S k0 + fuel)%nat with (k0 + S fuel)%nat by lia.
    + assert (Hlt : candidateSize options k0 < minFontSize options).
      { apply Qnot_le_lt. intros Hle. apply Qle_bool_iff in Hle.
        unfold LayoutSolver.Qleb in Eg. congruence. }
      pose proof (tried_le (maxFontSize options) k0 j Hj) as Hle.
      rewrite <- !candidateSize_tried in Hle. lra.
Qed.

(** X9.  For a [minFontSize] that is not negative and a [maxFontSize]
    within the safe integer range (where the loop steps down by exactly
    one and so ends), [fitTextBlock] returns the first size of
    [maxFontSize], [maxFontSize - 1], ... that is at least [minFontSize]
    and at which the wrapped block fits within [maxHeight], with the lines
    wrapped at that size; when no such size exists it returns
    [minFontSize]. *)
Theorem fitTextBlock_first_fit (rawText : string) (options : TextFitOptions) :
  0 <= minFontSize options ->
  maxFontSize options <= MAX_SAFE_INTEGER ->
  (exists k,
      minFontSize options <= candidateSize options k /\
      fitsAt measureText (wordsOf rawText) options (candidateSize options k) = true /\
      (forall j, (j < k)%nat ->
         fitsAt measureText (wordsOf rawText) options (candidateSize options j)
         = false) /\
      fitTextBlock measureText rawText options
      = mkTypographyFit (candidateSize options k)
          (candidateSize options k * lineHeightMultiplier options)
          (wrapAt measureText (wordsOf rawText) options (candidateSize options k)) /\
      blockHeightOf (lines (fitTextBlock measureText rawText options))
        (lineHeight (fitTextBlock measureText rawText options))
      <= maxHeight options) \/
  ((forall k,
       minFontSize options <= candidateSize options k ->
       fitsAt measureText (wordsOf rawText) options (candidateSize options k)
       = false) /\
   fontSize (fitTextBlock measureText rawText options) = minFontSize options).
Proof.
  intros _ _.
  unfold fitTextBlock. fold (wordsOf rawText).
  destruct (fitLoop measureText (iterations options) (wordsOf rawText) options
              (maxFontSize options)) as [fit|] eqn:E;
    change (maxFontSize options) with (candidateSize options 0) in E.
  - left. apply fitLoop_Some_first in E.
    destruct E as (k & _ & Hmin & Hfits & Hbefore & ->).
    exists k. repeat split; try assumption.
    + intros j Hj. apply Hbefore. lia.
    + cbn [lines lineHeight]. unfold fitsAt, LayoutSolver.Qleb in Hfits.
      apply Qle_bool_iff in Hfits. exact Hfits.
  - right. split; [|reflexivity].
    intros k Hk. apply (fitLoop_None_all _ _ _ 0%nat E); [|lia|assumption].
    rewrite candidateSize_tried. apply floor_fuel_enough.
Qed.

(** *** fitPriceFontSize *)

Definition priceFits (text : string) (maxWidth size : Q) : bool :=
  LayoutSolver.Qleb (measureText (mkFont "600" size) text) maxWidth.

Lemma fitPriceLoop_Some_first (fuel : nat) (text : string)
  (maxWidth maxFontSize minFontSize : Q) :
  forall k0 size,
    fitPriceLoop measureText fuel text maxWidth minFontSize (tried maxFontSize k0)
    = Some size ->
    exists k,
      (k0 <= k)%nat /\ size = tried maxFontSize k /\
      minFontSize <= tried maxFontSize k /\
      priceFits text maxWidth (tried maxFontSize k) = true /\
      forall j, (k0 <= j < k)%nat ->
        priceFits text maxWidth (tried maxFontSize j) = false.
Proof.
  induction fuel as [|fuel IH]; intros k0 size Hfit; simpl in Hfit.
  - discriminate.
  - destruct (LayoutSolver.Qleb minFontSize (tried maxFontSize k0)) eqn:Eg;
      [|discriminate].
    apply Qle_bool_iff in Eg.
    destruct (LayoutSolver.Qleb (measureText _ text) maxWidth) eqn:Ef.
    + injection Hfit as <-. exists k0. repeat split; try assumption; lia.
    + apply (IH (S k0)) in Hfit.
      destruct Hfit as (k & Hk & -> & Hmin & Hfits & Hbefore).
      exists k. repeat split; try assumption; try lia.
      intros j Hj. destruct (Nat.eq_dec j k0) as [-> | Hne].
      * exact Ef.
      * apply Hbefore. lia.
Qed.

Lemma fitPriceLoop_None_all (fuel : nat) (text : string)
  (maxWidth maxFontSize minFontSize : Q) :
  forall k0,
    fitPriceLoop measureText fuel text maxWidth minFontSize (tried maxFontSize k0)
    = None ->
    tried maxFontSize (k0 + fuel) < minFontSize ->
    forall j, (k0 <= j)%nat ->
      minFontSize <= tried maxFontSize j ->
      priceFits text maxWidth (tried maxFontSize j) = false.
Proof.
  induction fuel as [|fuel IH]; intros k0 Hnone Hlow j Hj Hmin.
  - rewrite Nat.add_0_r in Hlow.
    pose proof (tried_le maxFontSize k0 j Hj) as Hle. lra.
  - simpl in Hnone.
    destruct (LayoutSolver.Qleb minFontSize (tried maxFontSize k0)) eqn:Eg.
    + destruct (LayoutSolver.Qleb (measureText _ text) maxWidth) eqn:Ef;
        [discriminate|].
      destruct (Nat.eq_dec j k0) as [-> | Hne]; [exact Ef|].
      apply (IH (S k0)); try assumption; try lia.
      now replace (S k0 + fuel)%nat with (k0 + S fuel)%nat by lia.
    + assert (Hlt : tried maxFontSize k0 < minFontSize).
      { apply Qnot_le_lt. intros Hle. apply Qle_bool_iff in Hle.
        unfold LayoutSolver.Qleb in Eg. congruence. }
      pose proof (tried_le maxFontSize k0 j Hj) as Hle. lra.
Qed.

(** X10.  For a [minFontSize] that is not negative and a [maxFontSize]
    within the safe integer range (where the loop steps down by exactly
    one and so ends), [fitPriceFontSize] returns the first size of
    [maxFontSize], [maxFontSize - 1], ... that is at least [minFontSize]
    and at which the text is no wider than [maxWidth]; when no such size
    exists it returns [minFontSize], whether the text fits there or
    not. *)
Theorem fitPriceFontSize_first_fit (text : string)
  (maxWidth maxFontSize minFontSize : Q) :
  0 <= minFontSize ->
  maxFontSize <= MAX_SAFE_INTEGER ->
  (exists k,
      fitPriceFontSize measureText text maxWidth maxFontSize minFontSize
      = tried maxFontSize k /\
      minFontSize <= tried maxFontSize k /\
      tried maxFontSize k <= maxFontSize /\
      measureText (mkFont "600" (tried maxFontSize k)) text <= maxWidth /\
      forall j, (j < k)%nat ->
        priceFits text maxWidth (tried maxFontSize j) = false) \/
  (fitPriceFontSize measureText text maxWidth maxFontSize minFontSize
   = minFontSize /\
   forall k, minFontSize <= tried maxFontSize k ->
     priceFits text maxWidth (tried maxFontSize k) = false).
Proof.
  intros _ _.
  unfold fitPriceFontSize.
  destruct (fitPriceLoop measureText _ text maxWidth minFontSize maxFontSize)
    as [size|] eqn:E;
    change (fitPriceLoop measureText
              (Z.to_nat (Qfloor (maxFontSize - minFontSize) + 1)) text maxWidth
              minFontSize maxFontSize)
      with (fitPriceLoop measureText
              (Z.to_nat (Qfloor (maxFontSize - minFontSize) + 1)) text maxWidth
              minFontSize (tried maxFontSize 0)) in E.
  - left. apply fitPriceLoop_Some_first in E.
    destruct E as (k & _ & -> & Hmin & Hfits & Hbefore).
    exists k. repeat split; try assumption.
    + apply (tried_le maxFontSize 0 k). lia.
    + unfold priceFits in Hfits. now apply Qle_bool_iff in Hfits.
    + intros j Hj. apply Hbefore. lia.
  - right. split; [reflexivity|].
    intros k Hk. apply (fitPriceLoop_None_all _ _ _ _ _ 0%nat E); [|lia|assumption].
    apply floor_fuel_enough.
Qed.

(** *** The greedy wrap *)

(** A word of a paragraph of [text]. *)
Definition wordOf (text : string) (line : string) : Prop :=
  exists raw, In raw (splitLines text) /\ In line (splitSpaces (trim raw)).

(** What every line [wrapText] returns is: an empty line, a single word,
    or a line no wider than [maxWidth]. *)
Definition wrapped (font : Font) (maxWidth : Q) (words : list string)
  (line : string) : Prop :=
  line = EmptyString \/ In line words \/ measureText font line <= maxWidth.

Lemma firstn_Forall {A : Type} (P : A -> Prop) (n : nat) (l : list A) :
  Forall P l -> Forall P (firstn n l).
Proof.
  intros Hl. rewrite <- (firstn_skipn n l) in Hl.
  apply Forall_app in Hl. tauto.
Qed.

Lemma slice0_Forall {A : Type} (P : A -> Prop) (stop : Z) (l : list A) :
  Forall P l -> Forall P (slice0 stop l).
Proof.
  intros Hl. unfold slice0.
  destruct (stop <? 0)%Z; now apply firstn_Forall.
Qed.

Definition lineOf (font : Font) (maxWidth : Q) (paragraphs : list string)
  (line : string) : Prop :=
  line = EmptyString \/
  (exists raw, In raw paragraphs /\ In line (splitSpaces (trim raw))) \/
  measureText font line <= maxWidth.

Lemma wrapParagraphs_lineOf (font : Font) (maxWidth : Q) (maxLines : Z)
  (all : list string) (paragraphs : list string) :
  incl paragraphs all ->
  forall lines,
    Forall (lineOf font maxWidth all) lines ->
    Forall (lineOf font maxWidth all)
      (wrapParagraphs measureText font maxWidth maxLines paragraphs lines).
Proof.
  induction paragraphs as [|raw rest IH]; intros Hincl lines Hl; simpl.
  - assumption.
  - assert (Hrest : incl rest all) by (intros p Hp; apply Hincl; now right).
    assert (Hempty : lineOf font maxWidth all EmptyString) by now left.
    assert (Hpush : forall (cond : bool) ls line,
               Forall (lineOf font maxWidth all) ls ->
               lineOf font maxWidth all line ->
               Forall (lineOf font maxWidth all)
                 (if cond then ls ++ [line] else ls)).
    { intros cond ls line Hls Hline. destruct cond; [|assumption].
      apply Forall_app. split; [assumption|]. now constructor. }
    destruct (negb (truthy (trim raw))).
    + pose proof (Hpush (hasRoom lines maxLines) lines EmptyString Hl Hempty) as H1.
      destruct (negb (hasRoom _ maxLines)); [now apply slice0_Forall|now apply IH].
    + assert (Hconv : forall line,
                 wrapped font maxWidth (splitSpaces (trim raw)) line ->
                 lineOf font maxWidth all line).
      { intros line [H | [H | H]]; [now left| |now right; right].
        right. left. exists raw. split; [apply Hincl; now left|assumption]. }
      assert (Hfold :
                forall todo state,
                  incl todo (splitSpaces (trim raw)) ->
                  Forall (lineOf font maxWidth all) (fst state) ->
                  lineOf font maxWidth all (snd state) ->
                  Forall (lineOf font maxWidth all)
                    (fst (fold_left (wrapWord measureText font maxWidth maxLines)
                            todo state)) /\
                  lineOf font maxWidth all
                    (snd (fold_left (wrapWord measureText font maxWidth maxLines)
                            todo state))).
      { induction todo as [|w ws IHw]; intros [ls cur] Hi Hls Hcur; simpl.
        - now split.
        - apply IHw.
          + intros x Hx. apply Hi. now right.
          + unfold wrapWord. simpl in *.
            destruct (LayoutSolver.Qltb maxWidth _ && truthy cur)%bool; simpl;
              [|assumption].
            now apply Hpush.
          + unfold wrapWord. simpl in *.
            assert (Hword : lineOf font maxWidth all w).
            { apply Hconv. right. left. apply Hi. now left. }
            destruct (truthy cur) eqn:Et.
            * destruct (LayoutSolver.Qltb maxWidth _) eqn:Eo; simpl;
                [assumption|].
              right. right. unfold LayoutSolver.Qltb in Eo.
              apply negb_false_iff in Eo. now apply Qle_bool_iff in Eo.
            * rewrite andb_false_r. simpl. assumption. }
      destruct (Hfold (splitSpaces (trim raw)) (lines, EmptyString)
                  (incl_refl _) Hl Hempty) as [H1 H2].
      destruct (fold_left _ (splitSpaces (trim raw)) (lines, EmptyString))
        as [lines1 cur]. simpl in H1, H2.
      pose proof (Hpush (truthy cur && hasRoom lines1 maxLines)%bool lines1 cur
                    H1 H2) as H3.
      set (lines2 := if (truthy cur && hasRoom lines1 maxLines)%bool
                     then lines1 ++ [cur] else lines1) in *.
      pose proof (Hpush ((match rest with [] => false | _ => true end)
                         && hasRoom lines2 maxLines)%bool lines2 EmptyString
                    H3 Hempty) as H4.
      destruct (negb (hasRoom _ maxLines)); [now apply slice0_Forall|now apply IH].
Qed.

(** X11.  Every line [wrapText] returns is an empty line, a single word of
    the text, or a line whose measured width is at most [maxWidth]: only a
    line made of one word can be too wide. *)
Theorem wrapText_greedy (font : Font) (text : string) (maxWidth : Q)
  (maxLines : Z) :
  Forall
    (fun line =>
       line = EmptyString \/ wordOf text line \/
       measureText font line <= maxWidth)
    (wrapText measureText font text maxWidth maxLines).
Proof.
  unfold wrapText.
  apply (wrapParagraphs_lineOf font maxWidth maxLines (splitLines text));
    [apply incl_refl|constructor].
Qed.

End WithMeasure.

Local Open Scope string_scope.

(** An options record for a title: three lines at most, sizes from 56
    down to 28. *)
Definition titleOptions : TextFitOptions :=
  mkTextFitOptions 300 200 3 56 28 "700" (112 # 100).

Lemma fitTextBlock_first_fit_witness :
  (exists k,
      minFontSize titleOptions <= candidateSize titleOptions k /\
      fitsAt halfEm (wordsOf "Sunny flat near the marina") titleOptions
        (candidateSize titleOptions k) = true /\
      (forall j, (j < k)%nat ->
         fitsAt halfEm (wordsOf "Sunny flat near the marina") titleOptions
           (candidateSize titleOptions j)
         = false) /\
      fitTextBlock halfEm "Sunny flat near the marina" titleOptions
      = mkTypographyFit (candidateSize titleOptions k)
          (candidateSize titleOptions k * lineHeightMultiplier titleOptions)
          (wrapAt halfEm (wordsOf "Sunny flat near the marina") titleOptions
             (candidateSize titleOptions k)) /\
      blockHeightOf
        (lines (fitTextBlock halfEm "Sunny flat near the marina" titleOptions))
        (lineHeight
           (fitTextBlock halfEm "Sunny flat near the marina" titleOptions))
      <= maxHeight titleOptions) \/
  ((forall k,
       minFontSize titleOptions <= candidateSize titleOptions k ->
       fitsAt halfEm (wordsOf "Sunny flat near the marina") titleOptions
         (candidateSize titleOptions k)
       = false) /\
   fontSize (fitTextBlock halfEm "Sunny flat near the marina" titleOptions)
   = minFontSize titleOptions).
Proof.
  apply (fitTextBlock_first_fit halfEm "Sunny flat near the marina"
           titleOptions).
  - unfold MAX_SAFE_INTEGER, Qle; simpl; lia.
  - unfold MAX_SAFE_INTEGER, Qle; simpl; lia.
Defined.

Lemma fitPriceFontSize_first_fit_witness :
  (exists k,
      fitPriceFontSize halfEm "AED 1,250" 300 48 24 = tried 48 k /\
      24 <= tried 48 k /\
      tried 48 k <= 48 /\
      halfEm (mkFont "600" (tried 48 k)) "AED 1,250" <= 300 /\
      forall j, (j < k)%nat ->
        priceFits halfEm "AED 1,250" 300 (tried 48 j) = false) \/
  (fitPriceFontSize halfEm "AED 1,250" 300 48 24 = 24 /\
   forall k, 24 <= tried 48 k ->
     priceFits halfEm "AED 1,250" 300 (tried 48 k) = false).
Proof.
  apply (fitPriceFontSize_first_fit halfEm "AED 1,250" 300 48 24).
  - unfold MAX_SAFE_INTEGER, Qle; simpl; lia.
  - unfold MAX_SAFE_INTEGER, Qle; simpl; lia.
Defined.

End TextFitSearch.

(** ** Manipulation controller: helpers and invariants of a run *)

Module ListingPreviewInvariants.
Import Types ListingPreview ListingPreviewFacts.

Local Open Scope Q_scope.

(** *** The pure helpers *)


(** X13.  [snapCoordinate] returns the dragged value itself when no
    candidate is within the threshold of it, and otherwise a candidate at
    most the threshold, 0.02, away from it. *)
Theorem snapCoordinate_near (frames : list PhotoFrame) (value size : Q)
  (axis : Axis) (frameId : string) :
  (snapCoordinate frames value size axis frameId = value /\
   forall candidate,
     In candidate (snapCandidates frames size axis frameId) ->
     SNAP_THRESHOLD < Qabs (value - candidate)) \/
  (In (snapCoordinate frames value size axis frameId)
     (snapCandidates frames size axis frameId) /\
   Qabs (value - snapCoordinate frames value size axis frameId) <= SNAP_THRESHOLD).
Proof.
  unfold snapCoordinate.
  destruct (find (withinThreshold value) (snapCandidates frames size axis frameId))
    as [candidate|] eqn:E.
  - right. apply find_some in E. destruct E as [Hin Hnear]. split; [assumption|].
    unfold withinThreshold, LayoutSolver.Qleb in Hnear.
    now apply Qle_bool_iff in Hnear.
  - left. split; [reflexivity|]. intros candidate Hin.
    pose proof (find_none _ _ E candidate Hin) as Hfar.
    unfold withinThreshold, LayoutSolver.Qleb in Hfar.
    apply Qnot_le_lt. intros Hle. apply Qle_bool_iff in Hle. congruence.
Qed.

Lemma Qfloor_half (n : Z) : Qfloor (inject_Z n + (1 # 2)) = n.
Proof.
  assert (Hlo : (n <= Qfloor (inject_Z n + (1 # 2)))%Z).
  { rewrite <- (Qfloor_Z n) at 1. apply Qfloor_resp_le. lra. }
  assert (Hhi : (Qfloor (inject_Z n + (1 # 2)) < n + 1)%Z).
  { pose proof (Qfloor_le (inject_Z n + (1 # 2))) as H.
    rewrite Zlt_Qlt, inject_Z_plus.
    assert (H1 : inject_Z 1 == 1) by reflexivity. lra. }
  lia.
Qed.

Lemma toFixed6_grid (n : Z) : toFixed6 (n # 1000000) == n # 1000000.
Proof.
  unfold toFixed6, LayoutSolver.Qltb.
  destruct (Qle_bool 0 (n # 1000000)) eqn:E; cbn [negb].
  - assert (Hq : (n # 1000000) * 1000000 + (1 # 2) == inject_Z n + (1 # 2)).
    { rewrite (Qmake_Qdiv n 1000000). field. }
    rewrite (Qfloor_comp _ _ Hq), Qfloor_half. reflexivity.
  - assert (Hq : - (n # 1000000) * 1000000 + (1 # 2) == inject_Z (- n) + (1 # 2)).
    { rewrite (Qmake_Qdiv n 1000000), inject_Z_opp. field. }
    rewrite (Qfloor_comp _ _ Hq), Qfloor_half.
    unfold Qeq. simpl. lia.
Qed.

(** X14.  The rounding of a commit moves a value by at most half of 10^-6,
    and rounding a rounded value changes nothing. *)
Theorem toFixed6_rounds (v : Q) :
  Qabs (toFixed6 v - v) <= 1 # 2000000 /\
  toFixed6 (toFixed6 v) == toFixed6 v.
Proof.
  split.
  - destruct (toFixed6_close v) as [Hlo Hhi].
    apply Qabs_case; intros _; lra.
  - unfold toFixed6 at 2 3.
    destruct (LayoutSolver.Qltb v 0).
    + set (n := Qfloor (- v * 1000000 + (1 # 2))).
      assert (Hneg : - (n # 1000000) == (- n) # 1000000) by reflexivity.
      rewrite (toFixed6_Qeq _ _ Hneg). apply toFixed6_grid.
    + apply toFixed6_grid.
Qed.

(** A clamped position lies between 0 and [max(0, 1 - size)], and
    clamping it again changes nothing. *)
Lemma clampPosition_range (value size : Q) :
  0 <= clampPosition value size /\
  clampPosition value size <= Qmax 0 (1 - size) /\
  clampPosition (clampPosition value size) size == clampPosition value size.
Proof.
  assert (H0 : 0 <= clampPosition value size).
  { unfold clampPosition. apply Q.min_glb; [apply Q.le_max_l|apply Q.le_max_l]. }
  assert (H1 : clampPosition value size <= Qmax 0 (1 - size))
    by (unfold clampPosition; apply Q.le_min_l).
  split; [assumption|]. split; [assumption|].
  unfold clampPosition at 1.
  rewrite (Q.max_r 0 (clampPosition value size)) by assumption.
  apply Q.min_r. assumption.
Qed.

(** *** What an event can do to the frames *)

Definition rounded (newLayout : NormalizedRect) : NormalizedRect :=
  mkNormalizedRect (toFixed6 (x newLayout)) (toFixed6 (y newLayout))
    (toFixed6 (width newLayout)) (toFixed6 (height newLayout)).

(** An event leaves the frames as they are, brings one to the front, or
    commits one rounded layout. *)
Definition framesStep (before after : list PhotoFrame) : Prop :=
  after = before \/
  (exists frameId, after = Index.bringToFront frameId before) \/
  (exists frameId newLayout,
      after = Index.setLayout frameId (rounded newLayout) before).

Ltac split_cases :=
  repeat match goal with
    | |- context [match ?scrutinee with _ => _ end] => destruct scrutinee eqn:?
    end.

Ltac close_step :=
  cbv zeta; unfold handleFrameUpdate, focusFrame, updateFrames;
  cbn [frames x y width height]; unfold framesStep;
  first
    [ left; reflexivity
    | right; left; eexists; reflexivity
    | right; right;
      match goal with
      | |- context [Index.setLayout ?frameId
                      (mkNormalizedRect (toFixed6 ?a) (toFixed6 ?b)
                         (toFixed6 ?c) (toFixed6 ?d)) _] =>
          exists frameId, (mkNormalizedRect a b c d)
      end;
      reflexivity ].

Section WithConstants.

Variables CANVAS_WIDTH MIN_TEXT_RATIO : Q.

Lemma dispatch_frames (env : Env) (s : Controller) (event : Event) :
  framesStep (frames s)
    (frames (dispatch CANVAS_WIDTH MIN_TEXT_RATIO env s event)).
Proof.
  destruct event; unfold dispatch, onFrame.
  - destruct (findFrame (frames s) frameId); [|close_step].
    unfold handlePointerDown. split_cases; close_step.
  - unfold handlePointerMove, dragMove, resizeMove. split_cases; close_step.
  - unfold handlePointerUp. close_step.
  - destruct (findFrame (frames s) frameId); [|close_step].
    unfold handleResizePointerDown. split_cases; close_step.
  - destruct (findFrame (frames s) frameId); [|close_step].
    unfold handleTouchStart. split_cases; close_step.
  - unfold handleTouchMove. split_cases; close_step.
  - unfold handleTouchEnd. split_cases; close_step.
Qed.

(** *** Identity of the frames *)

(** What a frame is, apart from where it is laid out. *)
Definition identity (frame : PhotoFrame) : string * string * Q * Q * Q :=
  (id frame, src frame, aspectRatio frame, naturalWidth frame, naturalHeight frame).

Lemma setLayout_identity (frameId : string) (newLayout : NormalizedRect)
  (prev : list PhotoFrame) :
  map identity (Index.setLayout frameId newLayout prev) = map identity prev.
Proof.
  unfold Index.setLayout. rewrite map_map. apply map_ext.
  intros frame. destruct (String.eqb (id frame) frameId); reflexivity.
Qed.

Lemma bringToFront_Permutation (frameId : string) (prev : list PhotoFrame) :
  Permutation (Index.bringToFront frameId prev) prev.
Proof.
  unfold Index.bringToFront.
  destruct (Index.findIndex frameId prev) as [index|]; [|reflexivity].
  destruct (index =? length prev - 1)%nat; [reflexivity|].
  destruct (nth_error prev index) as [selected|] eqn:E; [|reflexivity].
  rewrite (LayoutSolverFacts.removeAt_Permutation prev selected index E) at 2.
  symmetry. apply Permutation_cons_append.
Qed.

Lemma framesStep_identity (before after : list PhotoFrame) :
  framesStep before after ->
  Permutation (map identity after) (map identity before).
Proof.
  intros [-> | [(frameId & ->) | (frameId & newLayout & ->)]].
  - reflexivity.
  - apply Permutation_map, bringToFront_Permutation.
  - now rewrite setLayout_identity.
Qed.

(** X16.  Whatever the events, the controller never adds, removes or alters
    a frame: after any sequence the frames are the initial ones, up to their
    order and their layouts (same ids, sources, aspect ratios and natural
    sizes). *)
Theorem run_keeps_frames (env : Env) (events : list Event) (s : Controller) :
  Permutation
    (map identity (frames (run CANVAS_WIDTH MIN_TEXT_RATIO env events s)))
    (map identity (frames s)) /\
  length (frames (run CANVAS_WIDTH MIN_TEXT_RATIO env events s))
  = length (frames s).
Proof.
  assert (G : Permutation
                (map identity (frames (run CANVAS_WIDTH MIN_TEXT_RATIO env events s)))
                (map identity (frames s))).
  { unfold run. revert s. induction events as [|e es IH]; intros s; simpl.
    - reflexivity.
    - rewrite IH. apply framesStep_identity, dispatch_frames. }
  split; [exact G|].
  apply Permutation_length in G. now rewrite !length_map in G.
Qed.

(** *** The pinch flag *)

Definition pinchConsistent (s : Controller) : Prop :=
  isPinching s = match pinchState s with Some _ => true | None => false end.

Lemma dispatch_pinchConsistent (env : Env) (s : Controller) (event : Event) :
  pinchConsistent s ->
  pinchConsistent (dispatch CANVAS_WIDTH MIN_TEXT_RATIO env s event).
Proof.
  unfold pinchConsistent. intros Hs.
  destruct (pinchState s) eqn:Ep; destruct (isPinching s) eqn:Ei;
    try discriminate Hs; clear Hs;
    destruct event; unfold dispatch, onFrame;
    try destruct (findFrame (frames s) frameId);
    unfold handlePointerDown, handlePointerMove, handlePointerUp,
      handleResizePointerDown, handleTouchStart, handleTouchMove,
      handleTouchEnd, dragMove, resizeMove, handleFrameUpdate, focusFrame,
      updateFrames;
    split_cases; cbv zeta; cbn [isPinching pinchState] in *;
    rewrite ?Ep, ?Ei; congruence.
Qed.

(** X17.  From a freshly mounted component, after any sequence of events,
    the pinch flag is set exactly when a pinch state is recorded; so pointer
    moves are ignored exactly while a pinch is recorded. *)
Theorem run_pinch_flag (env : Env) (events : list Event)
  (initial : list PhotoFrame) :
  let s := run CANVAS_WIDTH MIN_TEXT_RATIO env events (mounted initial) in
  (isPinching s = true <-> pinchState s <> None) /\
  (pinchState s <> None ->
   forall pointer clientX clientY,
     handlePointerMove CANVAS_WIDTH MIN_TEXT_RATIO env pointer clientX clientY s
     = s).
Proof.
  cbv zeta.
  assert (G : pinchConsistent
                (run CANVAS_WIDTH MIN_TEXT_RATIO env events (mounted initial))).
  { unfold run. generalize (mounted initial) (eq_refl : pinchConsistent (mounted initial)).
    induction events as [|e es IH]; intros s Hs; simpl.
    - assumption.
    - apply IH. now apply dispatch_pinchConsistent. }
  unfold pinchConsistent in G.
  set (s := run CANVAS_WIDTH MIN_TEXT_RATIO env events (mounted initial)) in *.
  assert (Hiff : isPinching s = true <-> pinchState s <> None).
  { rewrite G. destruct (pinchState s); split; congruence. }
  split; [exact Hiff|].
  intros Hp pointer clientX clientY. apply Hiff in Hp.
  unfold handlePointerMove. now rewrite Hp.
Qed.

End WithConstants.

(** *** Commits of single gestures, on concrete gestures *)

Lemma dragMove_within_witness :
  exists moved,
    findFrame (frames (dragMove 1600 (1 # 3) sampleEnv dragOfA (-185) 0 draggingA))
      (gestureId dragOfA) = Some moved /\
    0 <= x (layout moved) /\ 0 <= y (layout moved) /\
    x (layout moved) + width (layout moved) <= 1 + (1 # 1000000) /\
    y (layout moved) + height (layout moved) <= 1 + (1 # 1000000).
Proof.
  apply (dragMove_within 1600 (1 # 3) sampleEnv dragOfA (-185) 0 draggingA
           sampleMetrics frameA).
  - reflexivity.
  - reflexivity.
  - unfold Qle. simpl. lia.
  - unfold Qle. simpl. lia.
Defined.







End ListingPreviewInvariants.


(** ** The page's own updaters and the frames it publishes *)

Module IndexInvariants.
Import Types Index IndexFacts LayoutSolverRounding.

(** A normalized rect that lies inside the unit square. *)
Definition unitRect (r : NormalizedRect) : Prop :=
  0 <= x r /\ 0 <= y r /\ 0 <= width r /\ 0 <= height r /\
  x r + width r <= 1 /\ y r + height r <= 1.

Lemma findIndex_split (frameId : string) (prev : list PhotoFrame) (index : nat) :
  findIndex frameId prev = Some index ->
  exists before selected after,
    prev = before ++ selected :: after /\ length before = index /\
    id selected = frameId /\
    Forall (fun frame => id frame <> frameId) before.
Proof.
  revert index. induction prev as [|frame rest IH]; intros index H; simpl in H.
  - discriminate.
  - destruct (String.eqb (id frame) frameId) eqn:E.
    + injection H as <-. apply String.eqb_eq in E.
      exists [], frame, rest. repeat split; auto.
    + destruct (findIndex frameId rest) as [k|]; [|discriminate].
      injection H as <-.
      destruct (IH k eq_refl) as (before & selected & after & -> & Hl & Hid & Hb).
      exists (frame :: before), selected, after. repeat split; simpl; auto.
      constructor; [|assumption]. now apply String.eqb_neq.
Qed.

Lemma findIndex_None (frameId : string) (prev : list PhotoFrame) :
  findIndex frameId prev = None ->
  Forall (fun frame => id frame <> frameId) prev.
Proof.
  induction prev as [|frame rest IH]; intros H; simpl in H.
  - constructor.
  - destruct (String.eqb (id frame) frameId) eqn:E; [discriminate|].
    destruct (findIndex frameId rest); [discriminate|].
    constructor; [now apply String.eqb_neq|now apply IH].
Qed.

(** X22.  The updater of [handleFocusFrame] either finds no frame with the
    id and returns the list as it is, or moves the first frame with the id
    to the end of the list and keeps every other frame, in order. *)
Theorem bringToFront_moves_first (frameId : string) (prev : list PhotoFrame) :
  (Forall (fun frame => id frame <> frameId) prev /\
   bringToFront frameId prev = prev)
  \/
  (exists before selected after,
     prev = before ++ selected :: after /\
     id selected = frameId /\
     Forall (fun frame => id frame <> frameId) before /\
     bringToFront frameId prev = before ++ after ++ [selected]).
Proof.
  unfold bringToFront.
  destruct (findIndex frameId prev) as [index|] eqn:E.
  - right.
    destruct (findIndex_split _ _ _ E)
      as (before & selected & after & -> & Hl & Hid & Hb).
    exists before, selected, after. repeat split; auto.
    subst index.
    destruct (length before =? length (before ++ selected :: after) - 1)%nat eqn:El.
    + apply Nat.eqb_eq in El. rewrite length_app in El. simpl in El.
      destruct after as [|a after]; [reflexivity|simpl in El; lia].
    + assert (Hn : nth_error (before ++ selected :: after) (length before)
                   = Some selected).
      { rewrite nth_error_app2 by lia. now rewrite Nat.sub_diag. }
      assert (Hf : firstn (length before) (before ++ selected :: after) = before).
      { rewrite firstn_app, firstn_all, Nat.sub_diag. simpl. apply app_nil_r. }
      assert (Hs : skipn (S (length before)) (before ++ selected :: after) = after).
      { rewrite skipn_app, skipn_all2 by lia.
        replace (S (length before) - length before)%nat with 1%nat by lia.
        reflexivity. }
      rewrite Hn. unfold LayoutSolver.removeAt.
      rewrite Hf, Hs. now rewrite <- app_assoc.
  - left. split; [now apply findIndex_None|reflexivity].
Qed.

(** X23.  The updater of [handleFrameChange] keeps the number, order and ids
    of the frames, gives the new layout to every frame with the id, and
    leaves every other frame as it was; of two writes to the same id the
    later one wins. *)
Theorem setLayout_writes (frameId : string) (newLayout : NormalizedRect)
  (prev : list PhotoFrame) :
  map id (setLayout frameId newLayout prev) = map id prev /\
  (forall frame, In frame (setLayout frameId newLayout prev) ->
     id frame = frameId -> layout frame = newLayout) /\
  (forall frame, In frame (setLayout frameId newLayout prev) ->
     id frame <> frameId -> In frame prev) /\
  (forall earlier,
     setLayout frameId newLayout (setLayout frameId earlier prev)
     = setLayout frameId newLayout prev).
Proof.
  unfold setLayout. repeat split.
  - rewrite map_map. apply map_ext. intros frame.
    destruct (String.eqb (id frame) frameId); reflexivity.
  - intros frame Hin Hid. apply in_map_iff in Hin.
    destruct Hin as (old & <- & _).
    destruct (String.eqb (id old) frameId) eqn:E; [reflexivity|].
    apply String.eqb_neq in E. contradiction.
  - intros frame Hin Hid. apply in_map_iff in Hin.
    destruct Hin as (old & <- & Hold).
    destruct (String.eqb (id old) frameId) eqn:E; [|assumption].
    apply String.eqb_eq in E. simpl in Hid. contradiction.
  - intros earlier. rewrite map_map. apply map_ext. intros frame.
    destruct (String.eqb (id frame) frameId) eqn:E; simpl; rewrite E; reflexivity.
Qed.

(** Writes to two different ids commute. *)
Theorem setLayout_commutes (first second : string) (a b : NormalizedRect)
  (prev : list PhotoFrame) :
  first <> second ->
  setLayout first a (setLayout second b prev)
  = setLayout second b (setLayout first a prev).
Proof.
  intros Hne. unfold setLayout. rewrite !map_map. apply map_ext. intros frame.
  destruct (String.eqb (id frame) second) eqn:E2;
    destruct (String.eqb (id frame) first) eqn:E1; simpl;
    rewrite ?E1, ?E2; try reflexivity.
  apply String.eqb_eq in E1, E2. congruence.
Qed.

Lemma length_substring_0 (n : nat) (s : string) :
  String.length (substring 0 n s) = Nat.min n (String.length s).
Proof.
  revert n. induction s as [|c s IH]; intros [|n]; simpl; auto.
Qed.

Lemma substring_0_prefix (n : nat) (s : string) :
  exists rest, s = (substring 0 n s ++ rest)%string.
Proof.
  revert n. induction s as [|c s IH]; intros [|n]; simpl.
  - now exists EmptyString.
  - now exists EmptyString.
  - now exists (String c s).
  - destruct (IH n) as (rest & Hrest). exists rest. now rewrite <- Hrest.
Qed.

Section WithConstants.

Variables CANVAS_WIDTH CANVAS_HEIGHT MIN_TEXT_RATIO : Q.
Variable readImageMetadata : File -> option Metadata.

Hypothesis CANVAS_WIDTH_pos : 0 < CANVAS_WIDTH.
Hypothesis MIN_TEXT_RATIO_lt_1 : MIN_TEXT_RATIO < 1.

(** The real number [descriptionMaxLength] rounds. *)
Definition chars (photoAreaWidth : Q) : Q :=
  let clampedPhotoWidth := Qmin photoAreaWidth (CANVAS_WIDTH * (2 / 3)) in
  let textWidth :=
    Qmax (CANVAS_WIDTH - clampedPhotoWidth) (CANVAS_WIDTH * MIN_TEXT_RATIO) in
  let textRatio := textWidth / CANVAS_WIDTH in
  let normalized :=
    (Qmin (Qmax textRatio MIN_TEXT_RATIO) 1 - MIN_TEXT_RATIO)
    / (1 - MIN_TEXT_RATIO) in
  MIN_DESCRIPTION_CHARS
  + normalized * (MAX_DESCRIPTION_CHARS - MIN_DESCRIPTION_CHARS).

Lemma descriptionMaxLength_chars (photoAreaWidth : Q) :
  descriptionMaxLength CANVAS_WIDTH MIN_TEXT_RATIO photoAreaWidth
  = round (chars photoAreaWidth).
Proof. reflexivity. Qed.

Lemma chars_range (photoAreaWidth : Q) :
  250 <= chars photoAreaWidth <= 500.
Proof.
  unfold chars, MIN_DESCRIPTION_CHARS, MAX_DESCRIPTION_CHARS. cbv zeta.
  set (textRatio := _ / CANVAS_WIDTH).
  set (top := Qmin (Qmax textRatio MIN_TEXT_RATIO) 1 - MIN_TEXT_RATIO).
  assert (Htop : 0 <= top <= 1 - MIN_TEXT_RATIO).
  { unfold top. split.
    - assert (MIN_TEXT_RATIO <= Qmin (Qmax textRatio MIN_TEXT_RATIO) 1).
      { apply Q.min_glb; [apply Q.le_max_r|lra]. }
      lra.
    - pose proof (Q.le_min_r (Qmax textRatio MIN_TEXT_RATIO) 1). lra. }
  assert (Hn : 0 <= top / (1 - MIN_TEXT_RATIO) <= 1).
  { split.
    - apply Qle_shift_div_l; lra.
    - apply Qle_shift_div_r; lra. }
  lra.
Qed.

Lemma chars_antitone (narrow wide : Q) :
  narrow <= wide -> chars wide <= chars narrow.
Proof.
  intros Hle.
  unfold chars, MIN_DESCRIPTION_CHARS, MAX_DESCRIPTION_CHARS. cbv zeta.
  set (limit := CANVAS_WIDTH * (2 / 3)).
  set (floor := CANVAS_WIDTH * MIN_TEXT_RATIO).
  assert (H1 : Qmin narrow limit <= Qmin wide limit).
  { apply Q.min_le_compat_r. assumption. }
  assert (H2 : Qmax (CANVAS_WIDTH - Qmin wide limit) floor
               <= Qmax (CANVAS_WIDTH - Qmin narrow limit) floor).
  { apply Q.max_le_compat_r. lra. }
  assert (H3 : Qmax (CANVAS_WIDTH - Qmin wide limit) floor / CANVAS_WIDTH
               <= Qmax (CANVAS_WIDTH - Qmin narrow limit) floor / CANVAS_WIDTH).
  { unfold Qdiv. apply Qmult_le_compat_r; [assumption|].
    apply Qlt_le_weak, Qinv_lt_0_compat. assumption. }
  set (ratioWide :=
         Qmax (CANVAS_WIDTH - Qmin wide limit) floor / CANVAS_WIDTH) in *.
  set (ratioNarrow :=
         Qmax (CANVAS_WIDTH - Qmin narrow limit) floor / CANVAS_WIDTH) in *.
  assert (H4 : Qmin (Qmax ratioWide MIN_TEXT_RATIO) 1
               <= Qmin (Qmax ratioNarrow MIN_TEXT_RATIO) 1).
  { apply Q.min_le_compat_r, Q.max_le_compat_r. assumption. }
  assert (H5 : (Qmin (Qmax ratioWide MIN_TEXT_RATIO) 1 - MIN_TEXT_RATIO)
               / (1 - MIN_TEXT_RATIO)
               <= (Qmin (Qmax ratioNarrow MIN_TEXT_RATIO) 1 - MIN_TEXT_RATIO)
                  / (1 - MIN_TEXT_RATIO)).
  { unfold Qdiv. apply Qmult_le_compat_r; [lra|].
    apply Qlt_le_weak, Qinv_lt_0_compat. lra. }
  lra.
Qed.

(** X24.  With a positive canvas width and a text ratio below 1, the
    description limit is an integer between 250 and 500 whatever the photo
    area width, and a wider photo area never gives a larger limit. *)
Theorem descriptionMaxLength_range :
  (forall photoAreaWidth,
     (250 <= descriptionMaxLength CANVAS_WIDTH MIN_TEXT_RATIO photoAreaWidth
      <= 500)%Z) /\
  (forall narrow wide,
     narrow <= wide ->
     (descriptionMaxLength CANVAS_WIDTH MIN_TEXT_RATIO wide
      <= descriptionMaxLength CANVAS_WIDTH MIN_TEXT_RATIO narrow)%Z).
Proof.
  split.
  - intros w. rewrite descriptionMaxLength_chars. unfold round.
    pose proof (chars_range w) as [Hlo Hhi]. split.
    + change 250%Z with (Qfloor 250). apply Qfloor_resp_le. lra.
    + change 500%Z with (Qfloor (500 + (1 # 2))). apply Qfloor_resp_le. lra.
  - intros narrow wide Hle. rewrite !descriptionMaxLength_chars. unfold round.
    apply Qfloor_resp_le. pose proof (chars_antitone narrow wide Hle). lra.
Qed.

(** X25.  With a text ratio below 1, the description effect leaves a text of
    at most the current limit, a prefix of the text it was given, and does
    not touch a text of at most 250 characters. *)
Theorem clipDescription_limit (photoAreaWidth : Q) (prev : string) :
  let limit := descriptionMaxLength CANVAS_WIDTH MIN_TEXT_RATIO photoAreaWidth in
  let clipped := clipDescription limit prev in
  (Z.of_nat (String.length clipped) <= limit)%Z /\
  (exists rest, prev = (clipped ++ rest)%string) /\
  ((String.length prev <= 250)%nat -> clipped = prev).
Proof.
  cbv zeta.
  assert (Hrange :
            (250 <= descriptionMaxLength CANVAS_WIDTH MIN_TEXT_RATIO photoAreaWidth
             <= 500)%Z).
  { rewrite descriptionMaxLength_chars. unfold round.
    pose proof (chars_range photoAreaWidth) as [Hlo Hhi]. split.
    - change 250%Z with (Qfloor 250). apply Qfloor_resp_le. lra.
    - change 500%Z with (Qfloor (500 + (1 # 2))). apply Qfloor_resp_le. lra. }
  set (limit := descriptionMaxLength CANVAS_WIDTH MIN_TEXT_RATIO photoAreaWidth) in *.
  unfold clipDescription.
  destruct (Z.of_nat (String.length prev) <=? limit)%Z eqn:E.
  - apply Z.leb_le in E. repeat split; auto.
    exists EmptyString. clear. induction prev; simpl; congruence.
  - apply Z.leb_gt in E. repeat split.
    + rewrite length_substring_0. lia.
    + apply substring_0_prefix.
    + intros Hshort. lia.
Qed.

Lemma effectiveWidth_bounds (usedWidth : Q) :
  0 < usedWidth -> usedWidth <= MAX_PHOTO_WIDTH CANVAS_WIDTH MIN_TEXT_RATIO ->
  let effectiveWidth :=
    Qmin
      (Qmax usedWidth (MAX_PHOTO_WIDTH CANVAS_WIDTH MIN_TEXT_RATIO * (1 # 4)))
      (MAX_PHOTO_WIDTH CANVAS_WIDTH MIN_TEXT_RATIO) in
  0 < effectiveWidth /\ usedWidth <= effectiveWidth /\
  MAX_PHOTO_WIDTH CANVAS_WIDTH MIN_TEXT_RATIO * (1 # 4) <= effectiveWidth /\
  effectiveWidth <= MAX_PHOTO_WIDTH CANVAS_WIDTH MIN_TEXT_RATIO.
Proof.
  intros Hpos Hle. cbv zeta.
  pose proof (MAX_PHOTO_WIDTH_pos CANVAS_WIDTH MIN_TEXT_RATIO
                CANVAS_WIDTH_pos MIN_TEXT_RATIO_lt_1) as Hmax.
  set (maxWidth := MAX_PHOTO_WIDTH CANVAS_WIDTH MIN_TEXT_RATIO) in *.
  pose proof (Q.le_max_l usedWidth (maxWidth * (1 # 4))) as Hl.
  pose proof (Q.le_max_r usedWidth (maxWidth * (1 # 4))) as Hr.
  assert (Hu : usedWidth
               <= Qmin (Qmax usedWidth (maxWidth * (1 # 4))) maxWidth).
  { apply Q.min_glb; assumption. }
  repeat split.
  - lra.
  - assumption.
  - apply Q.min_glb; [assumption|lra].
  - apply Q.le_min_r.
Qed.

Hypothesis CANVAS_HEIGHT_pos : 0 < CANVAS_HEIGHT.

Lemma normalize_unit (rect : LayoutSolver.LayoutRect) (effectiveWidth : Q) :
  0 < effectiveWidth ->
  0 <= LayoutSolver.x rect -> 0 <= LayoutSolver.y rect ->
  0 <= LayoutSolver.width rect -> 0 <= LayoutSolver.height rect ->
  LayoutSolver.x rect + LayoutSolver.width rect <= effectiveWidth ->
  LayoutSolver.y rect + LayoutSolver.height rect <= CANVAS_HEIGHT ->
  unitRect (normalize CANVAS_HEIGHT rect effectiveWidth).
Proof.
  intros He Hx Hy Hw Hh Hxw Hyh. unfold unitRect, normalize. simpl.
  repeat split.
  - apply Qle_shift_div_l; lra.
  - apply Qle_shift_div_l; lra.
  - apply Qle_shift_div_l; lra.
  - apply Qle_shift_div_l; lra.
  - assert (E : LayoutSolver.x rect / effectiveWidth
                + LayoutSolver.width rect / effectiveWidth
                == (LayoutSolver.x rect + LayoutSolver.width rect) / effectiveWidth).
    { field. lra. }
    rewrite E. apply Qle_shift_div_r; lra.
  - assert (E : LayoutSolver.y rect / CANVAS_HEIGHT
                + LayoutSolver.height rect / CANVAS_HEIGHT
                == (LayoutSolver.y rect + LayoutSolver.height rect) / CANVAS_HEIGHT).
    { field. lra. }
    rewrite E. apply Qle_shift_div_r; lra.
Qed.

Lemma solved_unit (ratios : list Q) (index : nat) :
  let solution :=
    LayoutSolver.computeOptimalLayout ratios
      (MAX_PHOTO_WIDTH CANVAS_WIDTH MIN_TEXT_RATIO) CANVAS_HEIGHT in
  let effectiveWidth :=
    Qmin
      (Qmax (LayoutSolver.usedWidth solution)
         (MAX_PHOTO_WIDTH CANVAS_WIDTH MIN_TEXT_RATIO * (1 # 4)))
      (MAX_PHOTO_WIDTH CANVAS_WIDTH MIN_TEXT_RATIO) in
  unitRect
    (normalize CANVAS_HEIGHT
       (rectFor CANVAS_HEIGHT (LayoutSolver.rects solution) index effectiveWidth)
       effectiveWidth).
Proof.
  cbv zeta.
  pose proof (MAX_PHOTO_WIDTH_pos CANVAS_WIDTH MIN_TEXT_RATIO
                CANVAS_WIDTH_pos MIN_TEXT_RATIO_lt_1) as Hmax.
  destruct (LayoutSolverGeometry.solution_inside ratios
              (MAX_PHOTO_WIDTH CANVAS_WIDTH MIN_TEXT_RATIO) CANVAS_HEIGHT Hmax
              (Qlt_le_weak _ _ CANVAS_HEIGHT_pos))
    as (Hpos & Hle & Hin).
  destruct (effectiveWidth_bounds _ Hpos Hle) as (He & Hu & _ & _).
  set (solution := LayoutSolver.computeOptimalLayout ratios
                     (MAX_PHOTO_WIDTH CANVAS_WIDTH MIN_TEXT_RATIO)
                     CANVAS_HEIGHT) in *.
  set (effectiveWidth := Qmin _ (MAX_PHOTO_WIDTH CANVAS_WIDTH MIN_TEXT_RATIO)) in *.
  unfold rectFor.
  destruct (find _ (LayoutSolver.rects solution)) as [rect|] eqn:E.
  - apply find_some in E. destruct E as [E _].
    destruct (Hin rect E) as (Hx & Hy & Hw & Hh & Hxw & Hyh).
    apply normalize_unit; try assumption. lra.
  - apply normalize_unit; simpl; lra.
Qed.

Lemma entries_fst {A C : Type} (h : A -> C) (l : list A) :
  map (fun entry : A * nat => let (a, _) := entry in h a)
    (LayoutSolver.entries l)
  = map h l.
Proof.
  unfold LayoutSolver.entries. generalize 0%nat.
  induction l as [|a l IH]; intros start; simpl.
  - reflexivity.
  - now rewrite IH.
Qed.

Lemma entries_combine {A B C : Type} (h : A -> nat -> C) (l : list A)
  (l' : list B) :
  length l' = length l ->
  map (fun entry : (A * B) * nat =>
         let (pair, index) := entry in let (a, _) := pair in h a index)
      (LayoutSolver.entries (combine l l'))
  = map (fun entry : A * nat => let (a, index) := entry in h a index)
      (LayoutSolver.entries l).
Proof.
  unfold LayoutSolver.entries. generalize 0%nat. revert l'.
  induction l as [|a l IH]; intros [|b l'] start Hlen; simpl in *;
    try reflexivity; try discriminate.
  f_equal. apply IH. now injection Hlen.
Qed.

(** In exact arithmetic resetting puts every frame inside the unit
    square. *)
Lemma handleResetLayout_unit_exact (s : State) :
  frames s <> [] ->
  let reset := handleResetLayout CANVAS_WIDTH CANVAS_HEIGHT MIN_TEXT_RATIO s in
  map id (frames reset) = map id (frames s) /\
  Forall unitRect (map layout (frames reset)) /\
  MAX_PHOTO_WIDTH CANVAS_WIDTH MIN_TEXT_RATIO * (1 # 4) <= photoAreaWidth reset /\
  photoAreaWidth reset <= MAX_PHOTO_WIDTH CANVAS_WIDTH MIN_TEXT_RATIO.
Proof.
  intros Hne. cbv zeta. unfold handleResetLayout.
  destruct (frames s) as [|frame rest] eqn:E; [contradiction|].
  cbv zeta. cbn [frames photoAreaWidth].
  pose proof (MAX_PHOTO_WIDTH_pos CANVAS_WIDTH MIN_TEXT_RATIO
                CANVAS_WIDTH_pos MIN_TEXT_RATIO_lt_1) as Hmax.
  destruct (LayoutSolverGeometry.solution_inside
              (map aspectRatio (frame :: rest))
              (MAX_PHOTO_WIDTH CANVAS_WIDTH MIN_TEXT_RATIO) CANVAS_HEIGHT Hmax
              (Qlt_le_weak _ _ CANVAS_HEIGHT_pos))
    as (Hpos & Hle & _).
  destruct (effectiveWidth_bounds _ Hpos Hle) as (_ & _ & Hq & Hm).
  repeat split; try assumption.
  - rewrite map_map. rewrite <- (entries_fst id (frame :: rest)).
    apply map_ext. now intros [f index].
  - rewrite map_map. apply Forall_forall. intros r Hr.
    apply in_map_iff in Hr. destruct Hr as ([f index] & <- & _).
    apply solved_unit.
Qed.

(** In exact arithmetic the layout effect puts every frame inside the
    unit square. *)
Lemma layoutEffect_unit_exact (images : list File) (s : State) :
  let fresh :=
    layoutEffect CANVAS_WIDTH CANVAS_HEIGHT MIN_TEXT_RATIO readImageMetadata
      images s in
  Forall unitRect (map layout (frames fresh)) /\
  (allResolved (map readImageMetadata images) = None -> frames fresh = []) /\
  (allResolved (map readImageMetadata images) <> None ->
   map id (frames fresh)
   = map (fun entry : File * nat =>
            let (file, index) := entry in buildFrameId file index)
       (LayoutSolver.entries images)).
Proof.
  cbv zeta. unfold layoutEffect.
  destruct images as [|file rest].
  - simpl. repeat split; auto.
  - destruct (allResolved (map readImageMetadata (file :: rest)))
      as [metadata|] eqn:E.
    + pose proof (allResolved_length _ _ E) as Hlen. rewrite length_map in Hlen.
      unfold solveFrames. cbv zeta. cbn [frames].
      pose proof (usedWidth_pos (map aspect metadata)
                    (MAX_PHOTO_WIDTH CANVAS_WIDTH MIN_TEXT_RATIO) CANVAS_HEIGHT
                    (MAX_PHOTO_WIDTH_pos CANVAS_WIDTH MIN_TEXT_RATIO
                       CANVAS_WIDTH_pos MIN_TEXT_RATIO_lt_1)) as Hpos.
      rewrite (safeUsedWidth_eq CANVAS_WIDTH _ Hpos).
      repeat split.
      * rewrite map_map. apply Forall_forall. intros r Hr.
        apply in_map_iff in Hr. destruct Hr as ([[f meta] index] & <- & _).
        apply solved_unit.
      * discriminate.
      * intros _. rewrite map_map.
        rewrite <- (entries_combine buildFrameId (file :: rest) metadata Hlen).
        apply map_ext. now intros [[f meta] index].
    + cbn [frames]. repeat split; auto. intros H. now contradiction H.
Qed.

(** A normalized rect that lies inside the unit square up to the margin;
    its left edge, width and height are not negative. *)
Definition nearUnit (r : NormalizedRect) : Prop :=
  0 <= x r /\ - MARGIN <= y r /\ 0 <= width r /\ 0 <= height r /\
  x r + width r <= 1 + MARGIN /\ y r + height r <= 1 + MARGIN.

Lemma unitRect_nearUnit (r : NormalizedRect) : unitRect r -> nearUnit r.
Proof.
  intros (Hx & Hy & Hw & Hh & Hxw & Hyh). unfold nearUnit, MARGIN.
  repeat split; try assumption; lra.
Qed.

(** X26.  With a positive canvas and a text ratio below 1, for at most four
    frames of aspect ratios at most 10^6 and a photo area between 1 and
    10^6 pixels each way, resetting a non-empty frame set keeps the ids of
    the frames in order, puts every frame inside the unit square up to the
    margin, and sets a photo area width between a quarter of
    [MAX_PHOTO_WIDTH] and [MAX_PHOTO_WIDTH]. *)
Theorem handleResetLayout_unit (s : State) :
  frames s <> [] ->
  ordinary (map aspectRatio (frames s))
    (MAX_PHOTO_WIDTH CANVAS_WIDTH MIN_TEXT_RATIO) CANVAS_HEIGHT ->
  let reset := handleResetLayout CANVAS_WIDTH CANVAS_HEIGHT MIN_TEXT_RATIO s in
  map id (frames reset) = map id (frames s) /\
  Forall nearUnit (map layout (frames reset)) /\
  MAX_PHOTO_WIDTH CANVAS_WIDTH MIN_TEXT_RATIO * (1 # 4) <= photoAreaWidth reset /\
  photoAreaWidth reset <= MAX_PHOTO_WIDTH CANVAS_WIDTH MIN_TEXT_RATIO.
Proof.
  intros Hne _. cbv zeta.
  destruct (handleResetLayout_unit_exact s Hne) as (Hid & Hunit & Hlo & Hhi).
  repeat split; try assumption.
  eapply Forall_impl; [|exact Hunit]. apply unitRect_nearUnit.
Qed.

(** X27.  With a positive canvas and a text ratio below 1, the layout effect
    publishes no frame when a decode fails and otherwise one frame per
    image, in order, with the id built from the file and its position; for
    at most four images of aspect ratios at most 10^6 and a photo area
    between 1 and 10^6 pixels each way, every frame it publishes lies
    inside the unit square up to the margin. *)
Theorem layoutEffect_unit (images : list File) (s : State) :
  let fresh :=
    layoutEffect CANVAS_WIDTH CANVAS_HEIGHT MIN_TEXT_RATIO readImageMetadata
      images s in
  (allResolved (map readImageMetadata images) = None -> frames fresh = []) /\
  (forall metadata,
     allResolved (map readImageMetadata images) = Some metadata ->
     map id (frames fresh)
     = map (fun entry : File * nat =>
              let (file, index) := entry in buildFrameId file index)
         (LayoutSolver.entries images) /\
     (ordinary (map aspect metadata)
        (MAX_PHOTO_WIDTH CANVAS_WIDTH MIN_TEXT_RATIO) CANVAS_HEIGHT ->
      Forall nearUnit (map layout (frames fresh)))).
Proof.
  cbv zeta.
  destruct (layoutEffect_unit_exact images s) as (Hunit & Hnone & Hsome).
  split; [exact Hnone|].
  intros metadata Hmeta. split.
  - apply Hsome. congruence.
  - intros _. eapply Forall_impl; [|exact Hunit]. apply unitRect_nearUnit.
Qed.

End WithConstants.

Local Open Scope string_scope.

Lemma setLayout_commutes_witness :
  setLayout "a.jpg-1000-1-0" (mkNormalizedRect 0 0 (1 # 2) (1 # 2))
    (setLayout "b.jpg-2000-2-1" (mkNormalizedRect (1 # 2) 0 (1 # 2) (1 # 2))
       editedFrames)
  = setLayout "b.jpg-2000-2-1" (mkNormalizedRect (1 # 2) 0 (1 # 2) (1 # 2))
      (setLayout "a.jpg-1000-1-0" (mkNormalizedRect 0 0 (1 # 2) (1 # 2))
         editedFrames).
Proof.
  apply (setLayout_commutes "a.jpg-1000-1-0" "b.jpg-2000-2-1"
           (mkNormalizedRect 0 0 (1 # 2) (1 # 2))
           (mkNormalizedRect (1 # 2) 0 (1 # 2) (1 # 2)) editedFrames).
  discriminate.
Defined.

Lemma descriptionMaxLength_range_witness :
  (forall photoAreaWidth,
     (250 <= descriptionMaxLength 1600 (1 # 3) photoAreaWidth <= 500)%Z) /\
  (forall narrow wide,
     narrow <= wide ->
     (descriptionMaxLength 1600 (1 # 3) wide
      <= descriptionMaxLength 1600 (1 # 3) narrow)%Z).
Proof.
  apply (descriptionMaxLength_range 1600 (1 # 3)).
  - reflexivity.
  - reflexivity.
Defined.

Lemma clipDescription_limit_witness :
  let limit := descriptionMaxLength 1600 (1 # 3) 800 in
  let clipped := clipDescription limit "Sunny flat near the marina" in
  (Z.of_nat (String.length clipped) <= limit)%Z /\
  (exists rest, "Sunny flat near the marina" = clipped ++ rest) /\
  ((String.length "Sunny flat near the marina" <= 250)%nat ->
   clipped = "Sunny flat near the marina").
Proof.
  apply (clipDescription_limit 1600 (1 # 3)).
  reflexivity.
Defined.

Lemma handleResetLayout_unit_witness :
  let reset :=
    handleResetLayout 1600 1000 (1 # 3) (mkState editedFrames 700 true) in
  map id (frames reset) = map id editedFrames /\
  Forall nearUnit (map layout (frames reset)) /\
  MAX_PHOTO_WIDTH 1600 (1 # 3) * (1 # 4) <= photoAreaWidth reset /\
  photoAreaWidth reset <= MAX_PHOTO_WIDTH 1600 (1 # 3).
Proof.
  apply (handleResetLayout_unit 1600 1000 (1 # 3)).
  - reflexivity.
  - reflexivity.
  - reflexivity.
  - discriminate.
  - prove_ordinary.
Defined.

Lemma layoutEffect_unit_witness :
  let fresh :=
    layoutEffect 1600 1000 (1 # 3) sampleDecode sampleFiles
      (mkState [] 800 false) in
  (allResolved (map sampleDecode sampleFiles) = None -> frames fresh = []) /\
  map id (frames fresh)
  = map (fun entry : File * nat =>
           let (file, index) := entry in buildFrameId file index)
      (LayoutSolver.entries sampleFiles) /\
  Forall nearUnit (map layout (frames fresh)).
Proof.
  destruct (layoutEffect_unit 1600 1000 (1 # 3) sampleDecode
              ltac:(reflexivity) ltac:(reflexivity) ltac:(reflexivity)
              sampleFiles (mkState [] 800 false)) as (Hnone & Hsome).
  destruct (Hsome [mkMetadata "blob:a.jpg" 1200 800 (3 # 2);
                   mkMetadata "blob:b.jpg" 1200 800 (3 # 2)] eq_refl)
    as (Hid & Hunit).
  split; [exact Hnone|]. split; [exact Hid|].
  apply Hunit. prove_ordinary.
Defined.

End IndexInvariants.


(** ** The upload area *)

Module ImageUploadFacts.
Import ImageUpload.

Lemma filter_index_above (index : nat) (images : list BrowserFile) :
  forall start,
    (index < start)%nat ->
    map fst
      (filter (fun entry : BrowserFile * nat => negb (snd entry =? index)%nat)
         (combine images (seq start (length images))))
    = images.
Proof.
  induction images as [|image rest IH]; intros start Hlt; simpl.
  - reflexivity.
  - destruct (start =? index)%nat eqn:E.
    + apply Nat.eqb_eq in E. lia.
    + simpl. f_equal. apply IH. lia.
Qed.

Lemma filter_index_at (images : list BrowserFile) :
  forall start k,
    map fst
      (filter (fun entry : BrowserFile * nat =>
                 negb (snd entry =? start + k)%nat)
         (combine images (seq start (length images))))
    = LayoutSolver.removeAt k images.
Proof.
  unfold LayoutSolver.removeAt.
  induction images as [|image rest IH]; intros start k.
  - simpl. now rewrite firstn_nil.
  - destruct k as [|k].
    + cbn [length seq combine filter snd]. rewrite Nat.add_0_r, Nat.eqb_refl.
      cbn [negb firstn skipn app].
      rewrite filter_index_above by lia. reflexivity.
    + cbn [length seq combine filter snd].
      destruct (start =? start + S k)%nat eqn:E.
      * apply Nat.eqb_eq in E. lia.
      * cbn [negb map fst firstn skipn app]. f_equal.
        replace (start + S k)%nat with (S start + k)%nat by lia.
        apply IH.
Qed.

(** [removeImage] with a position inside the list removes exactly the
    image at that position and keeps the others in order; with a position
    outside it returns the list as it is. *)
Theorem removeImage_removes (index : nat) (images : list BrowserFile) :
  (exists before removed after,
     images = before ++ removed :: after /\ length before = index /\
     removeImage index images = before ++ after)
  \/
  ((length images <= index)%nat /\ removeImage index images = images).
Proof.
  assert (E : removeImage index images = LayoutSolver.removeAt index images).
  { unfold removeImage, LayoutSolver.entries.
    exact (filter_index_at images 0 index). }
  rewrite E. unfold LayoutSolver.removeAt.
  destruct (Nat.lt_ge_cases index (length images)) as [Hlt | Hge].
  - left.
    destruct (nth_error images index) as [removed|] eqn:En.
    + destruct (nth_error_split images index En) as (before & after & -> & Hl).
      exists before, removed, after. repeat split; auto.
      subst index.
      rewrite firstn_app, firstn_all, Nat.sub_diag. simpl firstn.
      rewrite app_nil_r. f_equal.
      rewrite skipn_app, skipn_all2 by lia.
      replace (S (length before) - length before)%nat with 1%nat by lia.
      reflexivity.
    + apply nth_error_None in En. lia.
  - right. split; [assumption|].
    rewrite firstn_all2 by lia. rewrite skipn_all2 by lia. apply app_nil_r.
Qed.

Lemma removeImage_incl (index : nat) (images : list BrowserFile) :
  incl (removeImage index images) images /\
  (length (removeImage index images) <= length images)%nat.
Proof.
  destruct (removeImage_removes index images)
    as [(before & removed & after & -> & _ & ->) | [_ ->]].
  - split.
    + intros f Hf. apply in_app_iff in Hf. apply in_app_iff.
      destruct Hf; [now left|right; now right].
    + rewrite !length_app. simpl. lia.
  - split; [apply incl_refl|lia].
Qed.

Lemma act_invariant (images : list BrowserFile) (action : Action) :
  (length images <= MAX_IMAGES)%nat ->
  Forall (fun image => isImage image = true) images ->
  (length (act images action) <= MAX_IMAGES)%nat /\
  Forall (fun image => isImage image = true) (act images action).
Proof.
  intros Hlen Hall.
  assert (Hadd : forall files,
             (length (addFiles files images) <= MAX_IMAGES)%nat /\
             Forall (fun image => isImage image = true) (addFiles files images)).
  { intros files. unfold addFiles. split.
    - apply firstn_le_length.
    - apply Forall_forall. intros f Hf.
      assert (Hin : In f (images ++ filter isImage files)).
      { revert Hf. generalize (images ++ filter isImage files) MAX_IMAGES.
        intros l n. revert l. induction n as [|n IH]; intros [|a l] Hf;
          simpl in *; try contradiction.
        destruct Hf as [-> | Hf]; [now left|right; now apply IH]. }
      apply in_app_iff in Hin. destruct Hin as [Hin | Hin].
      + exact (proj1 (Forall_forall _ _) Hall f Hin).
      + apply filter_In in Hin. tauto. }
  destruct action as [files | files | index]; simpl; try apply Hadd.
  destruct (removeImage_incl index images) as [Hincl Hle]. split.
  - lia.
  - apply Forall_forall. intros f Hf.
    exact (proj1 (Forall_forall _ _) Hall f (Hincl f Hf)).
Qed.

(** X30.  Starting from at most four images, all of an image type, every
    sequence of selections, drops and removals leaves at most four images,
    all of an image type. *)
Theorem run_at_most_four (actions : list Action) (images : list BrowserFile) :
  (length images <= MAX_IMAGES)%nat ->
  Forall (fun image => isImage image = true) images ->
  (length (run actions images) <= MAX_IMAGES)%nat /\
  Forall (fun image => isImage image = true) (run actions images).
Proof.
  unfold run. revert images.
  induction actions as [|action rest IH]; intros images Hlen Hall; simpl.
  - now split.
  - destruct (act_invariant images action Hlen Hall) as [Hlen' Hall'].
    now apply IH.
Qed.

(** Files added to at most four images never displace an image: the new
    list is the old one followed by the first image-typed files that
    fit. *)
Theorem addFiles_appends (files images : list BrowserFile) :
  (length images <= MAX_IMAGES)%nat ->
  addFiles files images
  = images ++ firstn (MAX_IMAGES - length images) (filter isImage files).
Proof.
  intros Hlen. unfold addFiles. cbv zeta.
  rewrite firstn_app, firstn_all2 by assumption. reflexivity.
Qed.

Local Open Scope string_scope.

Definition photo : BrowserFile :=
  mkBrowserFile (Index.mkFile "a.jpg" 1000 1) "image/jpeg".
Definition scan : BrowserFile :=
  mkBrowserFile (Index.mkFile "b.png" 2000 2) "image/png".
Definition notes : BrowserFile :=
  mkBrowserFile (Index.mkFile "notes.pdf" 3000 3) "application/pdf".

Lemma run_at_most_four_witness :
  (length (run [FileChange [photo; notes; scan; photo]; Remove 1;
                Drop [scan; scan; notes; photo]] [photo])
   <= MAX_IMAGES)%nat /\
  Forall (fun image => isImage image = true)
    (run [FileChange [photo; notes; scan; photo]; Remove 1;
          Drop [scan; scan; notes; photo]] [photo]).
Proof.
  apply (run_at_most_four
           [FileChange [photo; notes; scan; photo]; Remove 1;
            Drop [scan; scan; notes; photo]] [photo]).
  - unfold MAX_IMAGES. simpl. lia.
  - repeat constructor.
Defined.

Lemma addFiles_appends_witness :
  addFiles [notes; scan; photo; scan] [photo; scan]
  = ([photo; scan]
     ++ firstn (MAX_IMAGES - length [photo; scan])
          (filter isImage [notes; scan; photo; scan]))%list.
Proof.
  apply (addFiles_appends [notes; scan; photo; scan] [photo; scan]).
  unfold MAX_IMAGES. simpl. lia.
Defined.

End ImageUploadFacts.


(** ** The poster renderer *)

Module ImageGeneratorFacts.
Import Types ImageGenerator.

Lemma Qltb_true (a b : Q) : LayoutSolver.Qltb a b = true -> a < b.
Proof.
  unfold LayoutSolver.Qltb. destruct (Qle_bool b a) eqn:E; [discriminate|].
  intros _. apply Qnot_le_lt. intros H. apply Qle_bool_iff in H. congruence.
Qed.

Lemma Qltb_false (a b : Q) : LayoutSolver.Qltb a b = false -> b <= a.
Proof.
  unfold LayoutSolver.Qltb. destruct (Qle_bool b a) eqn:E; [|discriminate].
  intros _. now apply Qle_bool_iff.
Qed.

Lemma Qdiv_lt_inv (a b c : Q) : 0 < b -> a / b < c -> a < c * b.
Proof.
  intros Hb H. apply Qle_lt_trans with (a / b * b).
  - assert (E : a / b * b == a) by (field; lra). rewrite E. apply Qle_refl.
  - apply Qmult_lt_compat_r; assumption.
Qed.

Lemma Qdiv_le_inv (a b c : Q) : 0 < b -> c <= a / b -> c * b <= a.
Proof.
  intros Hb H. apply Qle_trans with (a / b * b).
  - apply Qmult_le_compat_r; [assumption|lra].
  - assert (E : a / b * b == a) by (field; lra). rewrite E. apply Qle_refl.
Qed.

Section WithConstants.

Variables CANVAS_WIDTH CANVAS_HEIGHT : Q.

Hypothesis CANVAS_WIDTH_pos : 0 < CANVAS_WIDTH.

Lemma clampedPhotoWidth_pos (photoAreaWidth : Q) :
  0 < clampedPhotoWidth CANVAS_WIDTH photoAreaWidth.
Proof.
  unfold clampedPhotoWidth. apply Q.min_glb_lt.
  - apply Qlt_le_trans with 1; [reflexivity|apply Q.le_max_r].
  - assert (E : CANVAS_WIDTH * (2 / 3) == CANVAS_WIDTH * (2 # 3)) by reflexivity.
    rewrite E. lra.
Qed.

(** With a positive canvas width, the photo area and the text area tile
    the canvas width, the photo area is at most two thirds of it, and the
    text area at least one third. *)
Theorem areas_tile (photoAreaWidth : Q) :
  clampedPhotoWidth CANVAS_WIDTH photoAreaWidth
  + textAreaWidth CANVAS_WIDTH photoAreaWidth == CANVAS_WIDTH /\
  0 < clampedPhotoWidth CANVAS_WIDTH photoAreaWidth /\
  clampedPhotoWidth CANVAS_WIDTH photoAreaWidth <= CANVAS_WIDTH * (2 # 3) /\
  CANVAS_WIDTH * (1 # 3) <= textAreaWidth CANVAS_WIDTH photoAreaWidth.
Proof.
  pose proof (clampedPhotoWidth_pos photoAreaWidth) as Hpos.
  assert (Hle : clampedPhotoWidth CANVAS_WIDTH photoAreaWidth
                <= CANVAS_WIDTH * (2 # 3)).
  { unfold clampedPhotoWidth. apply Q.le_min_r. }
  unfold textAreaWidth. repeat split; try assumption; lra.
Qed.

Hypothesis CANVAS_HEIGHT_pos : 0 < CANVAS_HEIGHT.

(** X28.  For a frame of positive width and height and an image of positive
    pixel size, the image is drawn with a positive size inside the rect of
    its frame, with one of its sides that of the rect. *)
Theorem drawRect_contained (frame : PhotoFrame) (imageWidth imageHeight : Q)
  (photoAreaWidth : Q) :
  0 < width (layout frame) -> 0 < height (layout frame) ->
  0 < imageWidth -> 0 < imageHeight ->
  let outer := layoutRect CANVAS_WIDTH CANVAS_HEIGHT frame photoAreaWidth in
  let drawn :=
    drawRect CANVAS_WIDTH CANVAS_HEIGHT frame imageWidth imageHeight
      photoAreaWidth in
  (0 < drawWidth drawn /\ 0 < drawHeight drawn) /\
  (drawX outer <= drawX drawn /\ drawY outer <= drawY drawn /\
   drawX drawn + drawWidth drawn <= drawX outer + drawWidth outer /\
   drawY drawn + drawHeight drawn <= drawY outer + drawHeight outer) /\
  (drawWidth drawn = drawWidth outer \/ drawHeight drawn = drawHeight outer).
Proof.
  intros Hw Hh Hiw Hih. cbv zeta.
  pose proof (clampedPhotoWidth_pos photoAreaWidth) as Hc.
  unfold drawRect, layoutRect. cbv zeta.
  set (clamped := clampedPhotoWidth CANVAS_WIDTH photoAreaWidth) in *.
  set (layoutX := x (layout frame) * clamped).
  set (layoutY := y (layout frame) * CANVAS_HEIGHT).
  set (layoutWidth := width (layout frame) * clamped).
  set (layoutHeight := height (layout frame) * CANVAS_HEIGHT).
  assert (Hlw : 0 < layoutWidth) by (apply Qmult_lt_0_compat; assumption).
  assert (Hlh : 0 < layoutHeight) by (apply Qmult_lt_0_compat; assumption).
  set (imageAspect := imageWidth / imageHeight).
  assert (Hia : 0 < imageAspect).
  { unfold imageAspect. apply Qlt_shift_div_l; lra. }
  cbn [drawWidth drawHeight].
  destruct (LayoutSolver.Qltb (1 # 1000) _) eqn:Efar.
  - apply Qltb_true in Efar.
    destruct (LayoutSolver.Qltb (layoutWidth / layoutHeight) imageAspect) eqn:Ewide.
    + apply Qltb_true in Ewide.
      apply Qdiv_lt_inv in Ewide; [|assumption].
      assert (Hd : 0 < layoutWidth / imageAspect < layoutHeight).
      { split.
        - apply Qlt_shift_div_l; lra.
        - apply Qlt_shift_div_r; [assumption|]. lra. }
      set (shorter := layoutWidth / imageAspect) in *.
      assert (Ehalf : (layoutHeight - shorter) / 2
                      == (layoutHeight - shorter) * (1 # 2))
        by (unfold Qdiv; reflexivity).
      cbn [drawX drawY drawWidth drawHeight].
      split; [split; lra|]. split; [repeat split; lra|].
      left; reflexivity.
    + apply Qltb_false in Ewide.
      apply Qdiv_le_inv in Ewide; [|assumption].
      assert (Hd : 0 < layoutHeight * imageAspect <= layoutWidth).
      { split; [apply Qmult_lt_0_compat; assumption|lra]. }
      set (narrower := layoutHeight * imageAspect) in *.
      assert (Ehalf : (layoutWidth - narrower) / 2
                      == (layoutWidth - narrower) * (1 # 2))
        by (unfold Qdiv; reflexivity).
      cbn [drawX drawY drawWidth drawHeight].
      split; [split; lra|]. split; [repeat split; lra|].
      right; reflexivity.
  - cbn [drawX drawY drawWidth drawHeight].
    split; [split; lra|]. split; [repeat split; lra|].
    left; reflexivity.
Qed.

End WithConstants.

Local Open Scope string_scope.

Lemma areas_tile_witness :
  clampedPhotoWidth 1600 800 + textAreaWidth 1600 800 == 1600 /\
  0 < clampedPhotoWidth 1600 800 /\
  clampedPhotoWidth 1600 800 <= 1600 * (2 # 3) /\
  1600 * (1 # 3) <= textAreaWidth 1600 800.
Proof.
  apply (areas_tile 1600).
  reflexivity.
Defined.

(** A portrait frame over the left half of the photo area. *)
Definition portrait : PhotoFrame :=
  mkPhotoFrame "a.jpg-1000-1-0" "blob:a.jpg" (3 # 2) 1200 800
    (mkNormalizedRect 0 0 (1 # 2) 1).

Lemma drawRect_contained_witness :
  let outer := layoutRect 1600 1000 portrait 800 in
  let drawn := drawRect 1600 1000 portrait 1200 800 800 in
  (0 < drawWidth drawn /\ 0 < drawHeight drawn) /\
  (drawX outer <= drawX drawn /\ drawY outer <= drawY drawn /\
   drawX drawn + drawWidth drawn <= drawX outer + drawWidth outer /\
   drawY drawn + drawHeight drawn <= drawY outer + drawHeight outer) /\
  (drawWidth drawn = drawWidth outer \/ drawHeight drawn = drawHeight outer).
Proof.
  apply (drawRect_contained 1600 1000).
  - reflexivity.
  - reflexivity.
  - reflexivity.
  - reflexivity.
  - reflexivity.
  - reflexivity.
Defined.


End ImageGeneratorFacts.


(** ** The suggestion hook *)

Module GeminiSuggestionsFacts.
Import TextFit GeminiSuggestions.

Lemma length_trimStart (s : string) :
  (String.length (trimStart s) <= String.length s)%nat.
Proof.
  induction s as [|c s IH]; simpl.
  - lia.
  - destruct (isSpace c); simpl; lia.
Qed.

Lemma length_trimEnd (s : string) :
  (String.length (trimEnd s) <= String.length s)%nat.
Proof.
  induction s as [|c s IH]; simpl.
  - lia.
  - destruct (trimEnd s); [destruct (isSpace c)|]; simpl in *; lia.
Qed.

Lemma length_trim (s : string) :
  (String.length (trim s) <= String.length s)%nat.
Proof.
  unfold trim. pose proof (length_trimEnd (trimStart s)).
  pose proof (length_trimStart s). lia.
Qed.

Lemma trimEnd_idem (s : string) : trimEnd (trimEnd s) = trimEnd s.
Proof.
  induction s as [|c s IH]; simpl.
  - reflexivity.
  - destruct (trimEnd s) as [|k kept] eqn:E.
    + destruct (isSpace c) eqn:Ec; simpl; [reflexivity|now rewrite Ec].
    + cbn [trimEnd] in *. fold trimEnd in *.
      change (trimEnd (String c (String k kept)))
        with (match trimEnd (String k kept) with
              | EmptyString =>
                  if isSpace c then EmptyString else String c EmptyString
              | String _ _ as rest => String c rest
              end).
      now rewrite IH.
Qed.

Lemma trimStart_first (s : string) :
  trimStart s = EmptyString \/
  exists c rest, trimStart s = String c rest /\ isSpace c = false.
Proof.
  induction s as [|c s IH]; simpl.
  - now left.
  - destruct (isSpace c) eqn:E; [assumption|].
    right. now exists c, s.
Qed.

Lemma trimEnd_first (c : ascii) (rest : string) :
  isSpace c = false -> exists kept, trimEnd (String c rest) = String c kept.
Proof.
  intros Hc. simpl. destruct (trimEnd rest) as [|k kept].
  - rewrite Hc. now exists EmptyString.
  - now exists (String k kept).
Qed.

Lemma trim_idem (s : string) : trim (trim s) = trim s.
Proof.
  unfold trim.
  destruct (trimStart_first s) as [-> | (c & rest & -> & Hc)].
  - reflexivity.
  - destruct (trimEnd_first c rest Hc) as (kept & E).
    rewrite E. simpl trimStart. rewrite Hc. rewrite <- E. apply trimEnd_idem.
Qed.

Lemma substring_0_twice (a b : nat) (s : string) :
  substring 0 a (substring 0 b s) = substring 0 (Nat.min a b) s.
Proof.
  revert a b. induction s as [|c s IH]; intros [|a] [|b]; simpl; try reflexivity.
  now rewrite IH.
Qed.

Lemma sliceTo_prefix (stop : Z) (s : string) :
  exists cut, sliceTo stop s = substring 0 cut s.
Proof.
  unfold sliceTo. destruct (stop <? 0)%Z; eexists; reflexivity.
Qed.

Lemma sliceTo_nat (n : nat) (s : string) :
  sliceTo (Z.of_nat n) s = substring 0 n s.
Proof.
  unfold sliceTo. destruct (Z.of_nat n <? 0)%Z eqn:E.
  - apply Z.ltb_lt in E. lia.
  - now rewrite Nat2Z.id.
Qed.

Lemma substring_0_all (s : string) : substring 0 (String.length s) s = s.
Proof. induction s as [|c s IH]; simpl; congruence. Qed.

(** X29.  The trimmed reply is never longer than the limit, has no white
    space at either end, is a prefix of the reply with the white space at
    its ends removed, and is the whole reply so trimmed when the reply is
    not longer than the limit. *)
Theorem trimToCharLimit_limit (input : string) (maxLength : nat) :
  (String.length (trimToCharLimit input maxLength) <= maxLength)%nat /\
  trim (trimToCharLimit input maxLength) = trimToCharLimit input maxLength /\
  (exists cut,
     (cut <= maxLength)%nat /\
     trimToCharLimit input maxLength = trim (substring 0 cut input)) /\
  ((String.length input <= maxLength)%nat ->
   trimToCharLimit input maxLength = trim input).
Proof.
  assert (Hcut : forall cut,
            (cut <= maxLength)%nat ->
            (String.length (trim (substring 0 cut input)) <= maxLength)%nat).
  { intros cut Hle. pose proof (length_trim (substring 0 cut input)) as H.
    rewrite IndexInvariants.length_substring_0 in H. lia. }
  assert (Hcase : exists cut,
             (cut <= maxLength)%nat /\
             trimToCharLimit input maxLength = trim (substring 0 cut input)).
  { unfold trimToCharLimit.
    destruct input as [|c rest] eqn:Ei; [exists 0%nat; split; [lia|reflexivity]|].
    cbn [truthy negb]. rewrite <- Ei.
    destruct (String.length input <=? maxLength)%nat eqn:El.
    - apply Nat.leb_le in El. exists (String.length input). split; [assumption|].
      now rewrite substring_0_all.
    - cbv zeta. rewrite sliceTo_nat.
      destruct (Z.of_nat maxLength - 20 <? _)%Z.
      + destruct (sliceTo_prefix
                    (lastIndexOfSpace (substring 0 maxLength input))
                    (substring 0 maxLength input)) as (cut & ->).
        rewrite substring_0_twice. exists (Nat.min cut maxLength).
        split; [lia|reflexivity].
      + exists maxLength. split; [lia|reflexivity]. }
  destruct Hcase as (cut & Hle & E).
  repeat split.
  - rewrite E. now apply Hcut.
  - rewrite E. apply trim_idem.
  - now exists cut.
  - intros Hshort. unfold trimToCharLimit.
    destruct input as [|c rest]; [reflexivity|].
    cbn [truthy negb].
    apply Nat.leb_le in Hshort. now rewrite Hshort.
Qed.

End GeminiSuggestionsFacts.


(** ** The paragraphs of the fitted description *)

Module DescriptionParagraphs.
Import ListingPreview.

(** The lines of a list that are not empty, in order. *)
Definition kept (lines : list string) : list string :=
  filter (fun line => negb (isEmptyLine line)) lines.

Lemma kept_app (l l' : list string) : kept (l ++ l') = kept l ++ kept l'.
Proof. apply filter_app. Qed.

Lemma collect_kept (lines : list string) :
  forall paragraphs current,
    kept (concat (fst (fold_left collect lines (paragraphs, current)))
          ++ snd (fold_left collect lines (paragraphs, current)))
    = kept (concat paragraphs ++ current ++ lines).
Proof.
  induction lines as [|line rest IH]; intros paragraphs current.
  - simpl. now rewrite app_nil_r.
  - cbn [fold_left]. unfold collect at 2 4.
    destruct (isEmptyLine line) eqn:E.
    + assert (Hskip : kept (concat paragraphs ++ current ++ line :: rest)
                      = kept (concat paragraphs ++ current ++ rest)).
      { rewrite !kept_app. simpl. now rewrite E. }
      rewrite Hskip.
      destruct current as [|first more]; rewrite IH.
      * rewrite concat_app. simpl. now rewrite !app_nil_r.
      * rewrite concat_app. simpl. rewrite app_nil_r.
        now rewrite <- !app_assoc.
    + rewrite IH. now rewrite <- !app_assoc.
Qed.

Lemma popEmptyRev_concat (reversed : list (list string)) :
  concat (rev (popEmptyRev reversed)) = concat (rev reversed).
Proof.
  induction reversed as [|paragraph rest IH].
  - reflexivity.
  - destruct paragraph as [|line more]; [|reflexivity].
    destruct rest as [|next rest']; [reflexivity|].
    change (popEmptyRev ([] :: next :: rest')) with (popEmptyRev (next :: rest')).
    rewrite IH.
    change (rev ([] :: next :: rest')) with (rev (next :: rest') ++ [[]]).
    rewrite concat_app. simpl. now rewrite app_nil_r.
Qed.

Lemma popEmpty_concat (paragraphs : list (list string)) :
  concat (popEmpty paragraphs) = concat paragraphs.
Proof.
  unfold popEmpty. rewrite popEmptyRev_concat. now rewrite rev_involutive.
Qed.

Lemma absorb_kept (remaining : list (list string * nat)) :
  forall tail,
    kept (fold_left absorb remaining tail)
    = kept tail ++ kept (concat (map fst remaining)).
Proof.
  induction remaining as [|[segment index] rest IH]; intros tail.
  - simpl. now rewrite app_nil_r.
  - cbn [fold_left map fst concat]. rewrite IH. rewrite kept_app.
    rewrite app_assoc. f_equal.
    unfold absorb. destruct segment as [|line more].
    + rewrite kept_app. reflexivity.
    + cbv zeta.
      destruct (((0 <? index)%nat || (0 <? length tail)%nat)
                && negb (endsWithEmptyLine tail)).
      * rewrite !kept_app. simpl kept at 2. now rewrite app_nil_r.
      * now rewrite kept_app.
Qed.

Lemma entries_first {A : Type} (l : list A) :
  map fst (LayoutSolver.entries l) = l.
Proof.
  unfold LayoutSolver.entries. generalize 0%nat.
  induction l as [|a l IH]; intros start; simpl.
  - reflexivity.
  - now rewrite IH.
Qed.

(** X21.  The memo always yields between one and eight paragraphs, and the
    non-empty lines of its paragraphs, read in order, are the non-empty
    lines it was given. *)
Theorem descriptionParagraphs_regroups (lines : list string) :
  (1 <= length (descriptionParagraphs lines) <= MAX_DESCRIPTION_PARAGRAPHS)%nat /\
  kept (concat (descriptionParagraphs lines)) = kept lines.
Proof.
  unfold descriptionParagraphs.
  pose proof (collect_kept lines [] []) as Hfold.
  destruct (fold_left collect lines ([], [])) as [closed current].
  cbn [fst snd concat app] in Hfold.
  set (pushed := match current with
                 | [] => closed
                 | _ :: _ => closed ++ [current]
                 end).
  assert (Hpushed : kept (concat pushed) = kept lines).
  { rewrite <- Hfold. unfold pushed. destruct current as [|line more].
    - now rewrite app_nil_r.
    - rewrite concat_app. simpl. now rewrite app_nil_r. }
  cbv zeta.
  set (paragraphs := popEmpty (popEmpty pushed)).
  assert (Hparagraphs : kept (concat paragraphs) = kept lines).
  { unfold paragraphs. now rewrite !popEmpty_concat. }
  clearbody paragraphs. clear Hfold Hpushed pushed.
  destruct (MAX_DESCRIPTION_PARAGRAPHS <? length paragraphs)%nat eqn:E.
  - apply Nat.ltb_lt in E.
    assert (Hlen : length (firstn MAX_DESCRIPTION_PARAGRAPHS paragraphs)
                   = MAX_DESCRIPTION_PARAGRAPHS).
    { apply firstn_length_le. lia. }
    destruct (firstn MAX_DESCRIPTION_PARAGRAPHS paragraphs)
      as [|first limited] eqn:El; [discriminate Hlen|].
    assert (Hne : first :: limited <> []) by discriminate.
    pose proof (app_removelast_last [] Hne) as Hlast.
    split.
    + rewrite length_app. cbn [length].
      assert (Hr : length (first :: limited)
                   = (length (removelast (first :: limited)) + 1)%nat).
      { rewrite Hlast at 1. now rewrite length_app. }
      lia.
    + assert (H1 : concat (first :: limited)
                   = concat (removelast (first :: limited))
                     ++ last (first :: limited) []).
      { transitivity
          (concat (removelast (first :: limited) ++ [last (first :: limited) []])).
        - f_equal. exact Hlast.
        - rewrite concat_app. cbn [concat]. now rewrite app_nil_r. }
      assert (H2 : concat paragraphs
                   = concat (first :: limited)
                     ++ concat (skipn MAX_DESCRIPTION_PARAGRAPHS paragraphs)).
      { rewrite <- El, <- concat_app, firstn_skipn. reflexivity. }
      rewrite <- Hparagraphs, H2, H1.
      rewrite concat_app. cbn [concat]. rewrite app_nil_r.
      rewrite !kept_app, absorb_kept, entries_first.
      now rewrite app_assoc.
  - apply Nat.ltb_ge in E.
    destruct paragraphs as [|first more].
    + split; [unfold MAX_DESCRIPTION_PARAGRAPHS; simpl; lia|].
      now rewrite <- Hparagraphs.
    + split; [simpl in *; lia|assumption].
Qed.

End DescriptionParagraphs.
